(** * Galaga-style shooter: the simulation core of [galaga_shooter.py]

    A shallow embedding of the player and enemy state machines, the
    per-frame collision resolution, the formation generators and the dive
    scheduler of [src/galaga_shooter.py], and the properties of the
    specification checked against it.

    Conventions of the embedding.
    - Python integers are [Z]; Python floats are IEEE binary64 numbers,
      the kernel's primitive [float].
    - A [pygame.Rect] is a record of four integers.
    - The sprite groups are lists in insertion order (a [pygame] group
      is a dictionary and iterates in insertion order).
    - The module-level globals and the locals of [run_game] form the
      record [World]; the code is written in a state monad over it.
    - What the program reads from outside (random draws, the millisecond
      clock, the event queue, the keyboard) is a stream held in the world,
      a function from [nat], consumed one element per call.
    - Drawing is left out: the images, the explosion sprites and the star
      field do not act on the simulation (the star field draws random
      numbers of its own; the stream of the world stands for the draws of the
      simulation).  The sounds played are kept as a trace.
    - [math.sin] and [math.cos] are parameters of the simulation. *)

From Stdlib Require Import ZArith List Bool Lia Arith RelationClasses Permutation.
From Stdlib Require Import Floats.PrimFloat Floats.FloatOps Floats.SpecFloat.
From Stdlib Require Import Numbers.Cyclic.Int63.Uint63.
Import ListNotations.
Open Scope Z_scope.

#[local] Set Warnings "-inexact-float".

(** ** Numbers *)

(** Conversion of a Python [int] to [float], exact below [2^53]. *)
Definition float_of_int (z : Z) : float :=
  if z <? 0 then PrimFloat.opp (PrimFloat.of_uint63 (Uint63.of_Z (- z)))
  else PrimFloat.of_uint63 (Uint63.of_Z z).

(** Python's [int(x)] on a float: truncation toward zero.  Python raises on
    a NaN or an infinity; the embedding answers [0] there. *)
Definition int_of_float (f : float) : Z :=
  match Prim2SF f with
  | S754_finite s m e =>
      let v := if 0 <=? e then Z.pos m * 2 ^ e else Z.pos m / 2 ^ (- e) in
      if s then - v else v
  | _ => 0
  end.

Definition fadd := PrimFloat.add.
Definition fsub := PrimFloat.sub.
Definition fmul := PrimFloat.mul.
Definition fdiv := PrimFloat.div.

(** [x ** 2] on a float: the square, correctly rounded.  (Python calls C's
    [pow], which is exact at 0 and at 1, the two values that decide the ends
    of a dive path.) *)
Definition fsquare (x : float) : float := fmul x x.

Definition math_pi : float := 3.141592653589793%float.

(** ** Game constants *)

Definition WINDOW_WIDTH : Z := 600.
Definition WINDOW_HEIGHT : Z := 800.

(** ** Rectangles ([pygame.Rect]) *)

Record Rect := mkRect { rx : Z; ry : Z; rwidth : Z; rheight : Z }.

Definition rleft (r : Rect) : Z := rx r.
Definition rtop (r : Rect) : Z := ry r.
Definition rright (r : Rect) : Z := rx r + rwidth r.
Definition rbottom (r : Rect) : Z := ry r + rheight r.
Definition rcenterx (r : Rect) : Z := rx r + Z.quot (rwidth r) 2.
Definition rcentery (r : Rect) : Z := ry r + Z.quot (rheight r) 2.

Definition set_rx (v : Z) (r : Rect) : Rect := mkRect v (ry r) (rwidth r) (rheight r).
Definition set_ry (v : Z) (r : Rect) : Rect := mkRect (rx r) v (rwidth r) (rheight r).
Definition set_rcenterx (v : Z) (r : Rect) : Rect := set_rx (v - Z.quot (rwidth r) 2) r.
Definition set_rbottom (v : Z) (r : Rect) : Rect := set_ry (v - rheight r) r.
Definition set_rtop (v : Z) (r : Rect) : Rect := set_ry v r.

(** [Rect.colliderect]: the two rectangles overlap; a rectangle of zero
    width or height overlaps nothing. *)
Definition colliderect (a b : Rect) : bool :=
  if (rwidth a =? 0) || (rheight a =? 0) || (rwidth b =? 0) || (rheight b =? 0)
  then false
  else (Z.min (rx a) (rx a + rwidth a) <? Z.max (rx b) (rx b + rwidth b))
    && (Z.min (ry a) (ry a + rheight a) <? Z.max (ry b) (ry b + rheight b))
    && (Z.max (rx a) (rx a + rwidth a) >? Z.min (rx b) (rx b + rwidth b))
    && (Z.max (ry a) (ry a + rheight a) >? Z.min (ry b) (ry b + rheight b)).

(** ** Sounds, events *)

Inductive Sound :=
| shoot_sound | explosion_sound | hit_sound
| capture_sound | rescue_sound | wave_complete_sound.

Definition Sound_eqb (a b : Sound) : bool :=
  match a, b with
  | shoot_sound, shoot_sound | explosion_sound, explosion_sound
  | hit_sound, hit_sound | capture_sound, capture_sound
  | rescue_sound, rescue_sound | wave_complete_sound, wave_complete_sound => true
  | _, _ => false
  end.

Inductive Key := K_ESCAPE | K_SPACE | K_RETURN | K_other.

Inductive Event := QUIT | KEYDOWN (key : Key) | OTHER_EVENT.

(** ** The player *)

(** The attributes of [Player] that are assigned after construction.  The
    attributes assigned once in [__init__] and never again are the constants
    below the record. *)
Record Player := mkPlayer {
  p_rect : Rect;
  p_last_shot : Z;
  lives : Z;
  combined_ships : Z;
  invincible : bool;
  invincible_timer : Z;
  flash_counter : Z;
  is_captured : bool;
  captured_by : option nat;      (* the captor, by its identity *)
  has_double_fire : bool;
  engine_anim_counter : Z
}.

Definition p_speed : Z := 8.
Definition p_shoot_delay : Z := 250.
Definition max_combined_ships : Z := 2.
Definition invincible_duration : Z := 2000.

Definition set_p_rect v (p : Player) :=
  mkPlayer v (p_last_shot p) (lives p) (combined_ships p) (invincible p)
    (invincible_timer p) (flash_counter p) (is_captured p) (captured_by p)
    (has_double_fire p) (engine_anim_counter p).
Definition set_p_last_shot v (p : Player) :=
  mkPlayer (p_rect p) v (lives p) (combined_ships p) (invincible p)
    (invincible_timer p) (flash_counter p) (is_captured p) (captured_by p)
    (has_double_fire p) (engine_anim_counter p).
Definition set_lives v (p : Player) :=
  mkPlayer (p_rect p) (p_last_shot p) v (combined_ships p) (invincible p)
    (invincible_timer p) (flash_counter p) (is_captured p) (captured_by p)
    (has_double_fire p) (engine_anim_counter p).
Definition set_combined_ships v (p : Player) :=
  mkPlayer (p_rect p) (p_last_shot p) (lives p) v (invincible p)
    (invincible_timer p) (flash_counter p) (is_captured p) (captured_by p)
    (has_double_fire p) (engine_anim_counter p).
Definition set_invincible v (p : Player) :=
  mkPlayer (p_rect p) (p_last_shot p) (lives p) (combined_ships p) v
    (invincible_timer p) (flash_counter p) (is_captured p) (captured_by p)
    (has_double_fire p) (engine_anim_counter p).
Definition set_invincible_timer v (p : Player) :=
  mkPlayer (p_rect p) (p_last_shot p) (lives p) (combined_ships p) (invincible p)
    v (flash_counter p) (is_captured p) (captured_by p)
    (has_double_fire p) (engine_anim_counter p).
Definition set_flash_counter v (p : Player) :=
  mkPlayer (p_rect p) (p_last_shot p) (lives p) (combined_ships p) (invincible p)
    (invincible_timer p) v (is_captured p) (captured_by p)
    (has_double_fire p) (engine_anim_counter p).
Definition set_is_captured v (p : Player) :=
  mkPlayer (p_rect p) (p_last_shot p) (lives p) (combined_ships p) (invincible p)
    (invincible_timer p) (flash_counter p) v (captured_by p)
    (has_double_fire p) (engine_anim_counter p).
Definition set_captured_by v (p : Player) :=
  mkPlayer (p_rect p) (p_last_shot p) (lives p) (combined_ships p) (invincible p)
    (invincible_timer p) (flash_counter p) (is_captured p) v
    (has_double_fire p) (engine_anim_counter p).
Definition set_has_double_fire v (p : Player) :=
  mkPlayer (p_rect p) (p_last_shot p) (lives p) (combined_ships p) (invincible p)
    (invincible_timer p) (flash_counter p) (is_captured p) (captured_by p)
    v (engine_anim_counter p).
Definition set_engine_anim_counter v (p : Player) :=
  mkPlayer (p_rect p) (p_last_shot p) (lives p) (combined_ships p) (invincible p)
    (invincible_timer p) (flash_counter p) (is_captured p) (captured_by p)
    (has_double_fire p) v.

(** ** Enemies *)

Inductive EnemyType := small | medium | large.

(** An enemy object.  [eid] stands for the identity of the Python object:
    every construction takes a fresh one.  [move_down_interval] (5000),
    [can_shoot] (True) and [captured_player_offset] ((0, 40)) are assigned
    in [__init__] only and are constants below. *)
Record Enemy := mkEnemy {
  eid : nat;
  enemy_type : EnemyType;
  points : Z;
  health : Z;
  speed_factor : float;
  can_capture : bool;
  e_rect : Rect;
  base_x : float;
  base_speed : float;
  speed_x : float;
  wave_amplitude : Z;
  wave_speed : float;
  wave_offset : float;
  e_time : float;
  last_move_down : Z;
  is_diving : bool;
  dive_path : list (Z * Z);
  dive_index : nat;
  original_pos : Z * Z;
  has_captured_player : bool;
  e_shoot_delay : Z;
  e_last_shot : Z;
  anim_counter : Z
}.

Definition move_down_interval : Z := 5000.
Definition can_shoot : bool := true.
Definition captured_player_offset : Z * Z := (0, 40).

Definition set_health v (e : Enemy) :=
  mkEnemy (eid e) (enemy_type e) (points e) v (speed_factor e) (can_capture e)
    (e_rect e) (base_x e) (base_speed e) (speed_x e) (wave_amplitude e)
    (wave_speed e) (wave_offset e) (e_time e) (last_move_down e) (is_diving e)
    (dive_path e) (dive_index e) (original_pos e) (has_captured_player e)
    (e_shoot_delay e) (e_last_shot e) (anim_counter e).
Definition set_e_rect v (e : Enemy) :=
  mkEnemy (eid e) (enemy_type e) (points e) (health e) (speed_factor e)
    (can_capture e) v (base_x e) (base_speed e) (speed_x e) (wave_amplitude e)
    (wave_speed e) (wave_offset e) (e_time e) (last_move_down e) (is_diving e)
    (dive_path e) (dive_index e) (original_pos e) (has_captured_player e)
    (e_shoot_delay e) (e_last_shot e) (anim_counter e).
Definition set_base_x v (e : Enemy) :=
  mkEnemy (eid e) (enemy_type e) (points e) (health e) (speed_factor e)
    (can_capture e) (e_rect e) v (base_speed e) (speed_x e) (wave_amplitude e)
    (wave_speed e) (wave_offset e) (e_time e) (last_move_down e) (is_diving e)
    (dive_path e) (dive_index e) (original_pos e) (has_captured_player e)
    (e_shoot_delay e) (e_last_shot e) (anim_counter e).
Definition set_speed_x v (e : Enemy) :=
  mkEnemy (eid e) (enemy_type e) (points e) (health e) (speed_factor e)
    (can_capture e) (e_rect e) (base_x e) (base_speed e) v (wave_amplitude e)
    (wave_speed e) (wave_offset e) (e_time e) (last_move_down e) (is_diving e)
    (dive_path e) (dive_index e) (original_pos e) (has_captured_player e)
    (e_shoot_delay e) (e_last_shot e) (anim_counter e).
Definition set_e_time v (e : Enemy) :=
  mkEnemy (eid e) (enemy_type e) (points e) (health e) (speed_factor e)
    (can_capture e) (e_rect e) (base_x e) (base_speed e) (speed_x e)
    (wave_amplitude e) (wave_speed e) (wave_offset e) v (last_move_down e)
    (is_diving e) (dive_path e) (dive_index e) (original_pos e)
    (has_captured_player e) (e_shoot_delay e) (e_last_shot e) (anim_counter e).
Definition set_last_move_down v (e : Enemy) :=
  mkEnemy (eid e) (enemy_type e) (points e) (health e) (speed_factor e)
    (can_capture e) (e_rect e) (base_x e) (base_speed e) (speed_x e)
    (wave_amplitude e) (wave_speed e) (wave_offset e) (e_time e) v
    (is_diving e) (dive_path e) (dive_index e) (original_pos e)
    (has_captured_player e) (e_shoot_delay e) (e_last_shot e) (anim_counter e).
Definition set_is_diving v (e : Enemy) :=
  mkEnemy (eid e) (enemy_type e) (points e) (health e) (speed_factor e)
    (can_capture e) (e_rect e) (base_x e) (base_speed e) (speed_x e)
    (wave_amplitude e) (wave_speed e) (wave_offset e) (e_time e)
    (last_move_down e) v (dive_path e) (dive_index e) (original_pos e)
    (has_captured_player e) (e_shoot_delay e) (e_last_shot e) (anim_counter e).
Definition set_dive_path v (e : Enemy) :=
  mkEnemy (eid e) (enemy_type e) (points e) (health e) (speed_factor e)
    (can_capture e) (e_rect e) (base_x e) (base_speed e) (speed_x e)
    (wave_amplitude e) (wave_speed e) (wave_offset e) (e_time e)
    (last_move_down e) (is_diving e) v (dive_index e) (original_pos e)
    (has_captured_player e) (e_shoot_delay e) (e_last_shot e) (anim_counter e).
Definition set_dive_index v (e : Enemy) :=
  mkEnemy (eid e) (enemy_type e) (points e) (health e) (speed_factor e)
    (can_capture e) (e_rect e) (base_x e) (base_speed e) (speed_x e)
    (wave_amplitude e) (wave_speed e) (wave_offset e) (e_time e)
    (last_move_down e) (is_diving e) (dive_path e) v (original_pos e)
    (has_captured_player e) (e_shoot_delay e) (e_last_shot e) (anim_counter e).
Definition set_original_pos v (e : Enemy) :=
  mkEnemy (eid e) (enemy_type e) (points e) (health e) (speed_factor e)
    (can_capture e) (e_rect e) (base_x e) (base_speed e) (speed_x e)
    (wave_amplitude e) (wave_speed e) (wave_offset e) (e_time e)
    (last_move_down e) (is_diving e) (dive_path e) (dive_index e) v
    (has_captured_player e) (e_shoot_delay e) (e_last_shot e) (anim_counter e).
Definition set_has_captured_player v (e : Enemy) :=
  mkEnemy (eid e) (enemy_type e) (points e) (health e) (speed_factor e)
    (can_capture e) (e_rect e) (base_x e) (base_speed e) (speed_x e)
    (wave_amplitude e) (wave_speed e) (wave_offset e) (e_time e)
    (last_move_down e) (is_diving e) (dive_path e) (dive_index e)
    (original_pos e) v (e_shoot_delay e) (e_last_shot e) (anim_counter e).
Definition set_e_shoot_delay v (e : Enemy) :=
  mkEnemy (eid e) (enemy_type e) (points e) (health e) (speed_factor e)
    (can_capture e) (e_rect e) (base_x e) (base_speed e) (speed_x e)
    (wave_amplitude e) (wave_speed e) (wave_offset e) (e_time e)
    (last_move_down e) (is_diving e) (dive_path e) (dive_index e)
    (original_pos e) (has_captured_player e) v (e_last_shot e)
    (anim_counter e).
Definition set_e_last_shot v (e : Enemy) :=
  mkEnemy (eid e) (enemy_type e) (points e) (health e) (speed_factor e)
    (can_capture e) (e_rect e) (base_x e) (base_speed e) (speed_x e)
    (wave_amplitude e) (wave_speed e) (wave_offset e) (e_time e)
    (last_move_down e) (is_diving e) (dive_path e) (dive_index e)
    (original_pos e) (has_captured_player e) (e_shoot_delay e) v
    (anim_counter e).
Definition set_anim_counter v (e : Enemy) :=
  mkEnemy (eid e) (enemy_type e) (points e) (health e) (speed_factor e)
    (can_capture e) (e_rect e) (base_x e) (base_speed e) (speed_x e)
    (wave_amplitude e) (wave_speed e) (wave_offset e) (e_time e)
    (last_move_down e) (is_diving e) (dive_path e) (dive_index e)
    (original_pos e) (has_captured_player e) (e_shoot_delay e) (e_last_shot e)
    v.

(** ** The world *)

(** The globals [player], [enemies], [bullets], [enemy_bullets], the locals
    of [run_game], and the environment.  [all_sprites] is not a field: it is
    the player followed by the members of the three groups, and
    [all_sprites.update()] is written out over them.  [played] is the trace of
    the sounds played, latest first.  [exited] records [sys.exit()]. *)
Record World := mkWorld {
  player : Player;
  enemies : list Enemy;
  bullets : list Rect;
  enemy_bullets : list Rect;
  score : Z;
  current_wave : Z;
  last_dive_time : Z;
  respawning : bool;
  respawn_timer : Z;
  running : bool;
  exited : bool;
  next_eid : nat;
  played : list Sound;
  rng : nat -> Z;                    (* raw draws of the random source *)
  clock : nat -> Z;                  (* readings of [pygame.time.get_ticks] *)
  event_queue : nat -> list Event;   (* results of [pygame.event.get] *)
  pressed : nat -> bool * bool       (* [K_LEFT], [K_RIGHT] of [get_pressed] *)
}.

Definition set_player v (w : World) :=
  mkWorld v (enemies w) (bullets w) (enemy_bullets w) (score w) (current_wave w)
    (last_dive_time w) (respawning w) (respawn_timer w) (running w) (exited w)
    (next_eid w) (played w) (rng w) (clock w) (event_queue w) (pressed w).
Definition set_enemies v (w : World) :=
  mkWorld (player w) v (bullets w) (enemy_bullets w) (score w) (current_wave w)
    (last_dive_time w) (respawning w) (respawn_timer w) (running w) (exited w)
    (next_eid w) (played w) (rng w) (clock w) (event_queue w) (pressed w).
Definition set_bullets v (w : World) :=
  mkWorld (player w) (enemies w) v (enemy_bullets w) (score w) (current_wave w)
    (last_dive_time w) (respawning w) (respawn_timer w) (running w) (exited w)
    (next_eid w) (played w) (rng w) (clock w) (event_queue w) (pressed w).
Definition set_enemy_bullets v (w : World) :=
  mkWorld (player w) (enemies w) (bullets w) v (score w) (current_wave w)
    (last_dive_time w) (respawning w) (respawn_timer w) (running w) (exited w)
    (next_eid w) (played w) (rng w) (clock w) (event_queue w) (pressed w).
Definition set_score v (w : World) :=
  mkWorld (player w) (enemies w) (bullets w) (enemy_bullets w) v (current_wave w)
    (last_dive_time w) (respawning w) (respawn_timer w) (running w) (exited w)
    (next_eid w) (played w) (rng w) (clock w) (event_queue w) (pressed w).
Definition set_current_wave v (w : World) :=
  mkWorld (player w) (enemies w) (bullets w) (enemy_bullets w) (score w) v
    (last_dive_time w) (respawning w) (respawn_timer w) (running w) (exited w)
    (next_eid w) (played w) (rng w) (clock w) (event_queue w) (pressed w).
Definition set_last_dive_time v (w : World) :=
  mkWorld (player w) (enemies w) (bullets w) (enemy_bullets w) (score w)
    (current_wave w) v (respawning w) (respawn_timer w) (running w) (exited w)
    (next_eid w) (played w) (rng w) (clock w) (event_queue w) (pressed w).
Definition set_respawning v (w : World) :=
  mkWorld (player w) (enemies w) (bullets w) (enemy_bullets w) (score w)
    (current_wave w) (last_dive_time w) v (respawn_timer w) (running w)
    (exited w) (next_eid w) (played w) (rng w) (clock w) (event_queue w)
    (pressed w).
Definition set_respawn_timer v (w : World) :=
  mkWorld (player w) (enemies w) (bullets w) (enemy_bullets w) (score w)
    (current_wave w) (last_dive_time w) (respawning w) v (running w)
    (exited w) (next_eid w) (played w) (rng w) (clock w) (event_queue w)
    (pressed w).
Definition set_running v (w : World) :=
  mkWorld (player w) (enemies w) (bullets w) (enemy_bullets w) (score w)
    (current_wave w) (last_dive_time w) (respawning w) (respawn_timer w) v
    (exited w) (next_eid w) (played w) (rng w) (clock w) (event_queue w)
    (pressed w).
Definition set_exited v (w : World) :=
  mkWorld (player w) (enemies w) (bullets w) (enemy_bullets w) (score w)
    (current_wave w) (last_dive_time w) (respawning w) (respawn_timer w)
    (running w) v (next_eid w) (played w) (rng w) (clock w) (event_queue w)
    (pressed w).
Definition set_next_eid v (w : World) :=
  mkWorld (player w) (enemies w) (bullets w) (enemy_bullets w) (score w)
    (current_wave w) (last_dive_time w) (respawning w) (respawn_timer w)
    (running w) (exited w) v (played w) (rng w) (clock w) (event_queue w)
    (pressed w).
Definition set_played v (w : World) :=
  mkWorld (player w) (enemies w) (bullets w) (enemy_bullets w) (score w)
    (current_wave w) (last_dive_time w) (respawning w) (respawn_timer w)
    (running w) (exited w) (next_eid w) v (rng w) (clock w) (event_queue w)
    (pressed w).
Definition set_rng v (w : World) :=
  mkWorld (player w) (enemies w) (bullets w) (enemy_bullets w) (score w)
    (current_wave w) (last_dive_time w) (respawning w) (respawn_timer w)
    (running w) (exited w) (next_eid w) (played w) v (clock w) (event_queue w)
    (pressed w).
Definition set_clock v (w : World) :=
  mkWorld (player w) (enemies w) (bullets w) (enemy_bullets w) (score w)
    (current_wave w) (last_dive_time w) (respawning w) (respawn_timer w)
    (running w) (exited w) (next_eid w) (played w) (rng w) v (event_queue w)
    (pressed w).
Definition set_event_queue v (w : World) :=
  mkWorld (player w) (enemies w) (bullets w) (enemy_bullets w) (score w)
    (current_wave w) (last_dive_time w) (respawning w) (respawn_timer w)
    (running w) (exited w) (next_eid w) (played w) (rng w) (clock w) v
    (pressed w).
Definition set_pressed v (w : World) :=
  mkWorld (player w) (enemies w) (bullets w) (enemy_bullets w) (score w)
    (current_wave w) (last_dive_time w) (respawning w) (respawn_timer w)
    (running w) (exited w) (next_eid w) (played w) (rng w) (clock w)
    (event_queue w) v.

(** ** The state monad of the program *)

Definition M (A : Type) : Type := World -> A * World.

Definition ret {A} (a : A) : M A := fun w => (a, w).

Definition bind {A B} (m : M A) (k : A -> M B) : M B :=
  fun w => let r := m w in k (fst r) (snd r).

Definition exec {A} (m : M A) (w : World) : World := snd (m w).
Definition eval {A} (m : M A) (w : World) : A := fst (m w).

Declare Scope prog_scope.
Delimit Scope prog_scope with prog.
Notation "x <- m ;; k" := (bind m (fun x => k))
  (at level 61, m at next level, right associativity) : prog_scope.
Notation "m ;; k" := (bind m (fun _ => k))
  (at level 61, right associativity) : prog_scope.
Open Scope prog_scope.

Definition get {A} (f : World -> A) : M A := fun w => (f w, w).
Definition modify (f : World -> World) : M unit := fun w => (tt, f w).
Definition skip : M unit := ret tt.

(** [if b: body] *)
Definition when (b : bool) (body : M unit) : M unit := if b then body else skip.

(** [for x in l: body(x)] *)
Fixpoint for_each {A} (l : list A) (body : A -> M unit) : M unit :=
  match l with
  | [] => skip
  | x :: l' => body x ;; for_each l' body
  end.

(** A loop over objects that rewrites each of them: the list of the results. *)
Fixpoint map_each {A B} (l : list A) (body : A -> M B) : M (list B) :=
  match l with
  | [] => ret []
  | x :: l' => y <- body x ;; ys <- map_each l' body ;; ret (y :: ys)
  end.

Definition modify_player (f : Player -> Player) : M unit :=
  modify (fun w => set_player (f (player w)) w).

Definition play (s : Sound) : M unit :=
  modify (fun w => set_played (s :: played w) w).

(** [pygame.time.get_ticks()] *)
Definition get_ticks : M Z :=
  fun w => (clock w 0%nat, set_clock (fun n => clock w (S n)) w).

(** One raw draw of the random source. *)
Definition draw : M Z :=
  fun w => (rng w 0%nat, set_rng (fun n => rng w (S n)) w).

(** [random.randint(a, b)]: an integer of [a..b]. *)
Definition randint (a b : Z) : M Z :=
  r <- draw ;; ret (a + r mod (b - a + 1)).

(** [random.random()]: 53 random bits over [2^53], a float of [0, 1). *)
Definition random : M float :=
  r <- draw ;; ret (fdiv (float_of_int (r mod 2 ^ 53)) (float_of_int (2 ^ 53))).

(** [random.uniform(a, b)] is [a + (b - a) * random()]. *)
Definition uniform (a b : float) : M float :=
  u <- random ;; ret (fadd a (fmul (fsub b a) u)).

(** [pygame.event.get()] and [pygame.key.get_pressed()] *)
Definition event_get : M (list Event) :=
  fun w => (event_queue w 0%nat, set_event_queue (fun n => event_queue w (S n)) w).

Definition get_pressed : M (bool * bool) :=
  fun w => (pressed w 0%nat, set_pressed (fun n => pressed w (S n)) w).

(** ** Bullets *)

(** [Bullet(x, y)]: a 6 by 12 rectangle, [centerx = x], [bottom = y]. *)
Definition Bullet (x y : Z) : Rect :=
  set_rbottom y (set_rcenterx x (mkRect 0 0 6 12)).

(** [EnemyBullet(x, y)]: a 6 by 12 rectangle, [centerx = x], [top = y]. *)
Definition EnemyBullet (x y : Z) : Rect :=
  set_rtop y (set_rcenterx x (mkRect 0 0 6 12)).

Definition bullet_speed : Z := -10.
Definition enemy_bullet_speed : Z := 7.

(** [Bullet.update]: [None] when the bullet leaves the field and kills
    itself. *)
Definition Bullet_update (b : Rect) : option Rect :=
  let b := set_ry (ry b + bullet_speed) b in
  if rbottom b <? 0 then None else Some b.

Definition EnemyBullet_update (b : Rect) : option Rect :=
  let b := set_ry (ry b + enemy_bullet_speed) b in
  if rtop b >? WINDOW_HEIGHT then None else Some b.

Definition add_bullet (b : Rect) : M unit :=
  modify (fun w => set_bullets (bullets w ++ [b]) w).

Definition add_enemy_bullet (b : Rect) : M unit :=
  modify (fun w => set_enemy_bullets (enemy_bullets w ++ [b]) w).

(** ** Player methods *)

(** [Player()]: the ship is 30 by 40, centred, 20 above the bottom. *)
Definition new_Player : M Player :=
  now <- get_ticks ;;
  ret (mkPlayer
         (set_rbottom (WINDOW_HEIGHT - 20)
            (set_rcenterx (WINDOW_WIDTH / 2) (mkRect 0 0 30 40)))
         now 3 1 false 0 0 false None false 0).

(** [Player.update] *)
Definition Player_update : M unit :=
  self <- get player ;;
  when (invincible self)
    (current_time <- get_ticks ;;
     when (current_time - invincible_timer self >? invincible_duration)
       (modify_player (set_invincible false)) ;;
     modify_player (fun p => set_flash_counter (flash_counter p + 1) p)) ;;
  self <- get player ;;
  when (negb (is_captured self) && negb (invincible self))
    (modify_player (fun p => set_engine_anim_counter (engine_anim_counter p + 1) p)) ;;
  (* If captured, don't process movement *)
  if is_captured self then skip
  else
    keys <- get_pressed ;;
    self <- get player ;;
    when (fst keys && (rleft (p_rect self) >? 0))
      (modify_player
         (fun p => set_p_rect (set_rx (rx (p_rect p) - p_speed) (p_rect p)) p)) ;;
    self <- get player ;;
    when (snd keys && (rright (p_rect self) <? WINDOW_WIDTH))
      (modify_player
         (fun p => set_p_rect (set_rx (rx (p_rect p) + p_speed) (p_rect p)) p)).

(** [Player.shoot] *)
Definition Player_shoot : M unit :=
  self <- get player ;;
  if is_captured self then skip
  else
    now <- get_ticks ;;
    when (now - p_last_shot self >? p_shoot_delay)
      (modify_player (set_p_last_shot now) ;;
       play shoot_sound ;;
       add_bullet (Bullet (rcenterx (p_rect self)) (rtop (p_rect self))) ;;
       if combined_ships self =? 2 then
         add_bullet (Bullet (rcenterx (p_rect self) - 20) (rtop (p_rect self))) ;;
         add_bullet (Bullet (rcenterx (p_rect self) + 20) (rtop (p_rect self)))
       else
         when (has_double_fire self)
           (add_bullet (Bullet (rcenterx (p_rect self) - 20) (rtop (p_rect self))))).

(** The three lines that start an invincibility period. *)
Definition start_invincibility : M unit :=
  modify_player (set_invincible true) ;;
  now <- get_ticks ;;
  modify_player (set_invincible_timer now) ;;
  modify_player (set_flash_counter 0).

(** [Player.hit] *)
Definition Player_hit : M unit :=
  self <- get player ;;
  when (negb (invincible self) && negb (is_captured self))
    (play hit_sound ;;
     if combined_ships self >? 1 then
       modify_player (fun p => set_combined_ships (combined_ships p - 1) p) ;;
       modify_player (set_has_double_fire true) ;;
       when (rwidth (p_rect self) >? 30)
         (let center_x := rcenterx (p_rect self) in
          modify_player
            (set_p_rect
               (set_rbottom (WINDOW_HEIGHT - 20)
                  (set_rcenterx center_x (mkRect 0 0 30 40))))) ;;
       start_invincibility
     else
       modify_player (fun p => set_lives (lives p - 1) p) ;;
       self <- get player ;;
       when (lives self >? 0) start_invincibility).

(** [Player.get_captured(captor)]; [captor] is the identity of the enemy. *)
Definition Player_get_captured (captor : nat) : M unit :=
  self <- get player ;;
  when (negb (invincible self) && negb (is_captured self))
    (when (combined_ships self <? max_combined_ships)
       (play capture_sound ;;
        modify_player (set_is_captured true) ;;
        modify_player (set_captured_by (Some captor)) ;;
        modify_player (fun p => set_lives (lives p - 1) p))).

(** [Player.rescue] *)
Definition Player_rescue : M unit :=
  play rescue_sound ;;
  modify_player (set_is_captured false) ;;
  modify_player (set_captured_by None) ;;
  self <- get player ;;
  when (combined_ships self <? max_combined_ships)
    (modify_player (fun p => set_combined_ships (combined_ships p + 1) p) ;;
     self <- get player ;;
     when (combined_ships self =? 2)
       (let center_x := rcenterx (p_rect self) in
        modify_player
          (set_p_rect
             (set_rbottom (WINDOW_HEIGHT - 20)
                (set_rcenterx center_x (mkRect 0 0 50 40)))))) ;;
  modify_player (set_has_double_fire true) ;;
  start_invincibility.

(** ** Enemy construction, shooting, diving *)

Definition range (n : nat) : list Z := map Z.of_nat (seq 0 n).

(** The kind-dependent part of [Enemy.__init__]: side of the square image,
    points, health, speed factor, whether the kind captures. *)
Definition kind_size (t : EnemyType) : Z :=
  match t with small => 20 | medium => 30 | large => 40 end.
Definition kind_points (t : EnemyType) : Z :=
  match t with small => 100 | medium => 200 | large => 400 end.
Definition kind_health (t : EnemyType) : Z :=
  match t with small => 1 | medium => 2 | large => 3 end.
Definition kind_speed_factor (t : EnemyType) : float :=
  match t with small => 1.2%float | medium => 1.0%float | large => 0.8%float end.
Definition kind_can_capture (t : EnemyType) : bool :=
  match t with large => true | _ => false end.

Definition fresh_eid : M nat :=
  fun w => (next_eid w, set_next_eid (S (next_eid w)) w).

Definition two_pi : float := fmul (float_of_int 2) math_pi.

(** [Enemy(x, y, enemy_type)] *)
Definition new_Enemy (x y : Z) (t : EnemyType) : M Enemy :=
  id <- fresh_eid ;;
  let base_speed := fmul (float_of_int 2) (kind_speed_factor t) in
  wave_amplitude <- randint 20 40 ;;
  wave_speed <- uniform 0.05%float 0.1%float ;;
  wave_offset <- uniform (float_of_int 0) two_pi ;;
  time <- uniform (float_of_int 0) two_pi ;;
  last_move_down <- get_ticks ;;
  shoot_delay <- randint 3000 8000 ;;
  now <- get_ticks ;;
  back <- randint 0 2000 ;;
  ret (mkEnemy id t (kind_points t) (kind_health t) (kind_speed_factor t)
         (kind_can_capture t)
         (mkRect x y (kind_size t) (kind_size t))
         (float_of_int x) base_speed base_speed
         wave_amplitude wave_speed wave_offset time last_move_down
         false [] 0%nat (x, y) false shoot_delay (now - back) 0).

(** [Enemy.shoot] *)
Definition Enemy_shoot (self : Enemy) : M unit :=
  u <- random ;;
  when (PrimFloat.ltb u 0.3%float)
    (add_enemy_bullet (EnemyBullet (rcenterx (e_rect self)) (rbottom (e_rect self)))).

(** One coordinate of the quadratic Bezier curve at parameter [t]:
    [(1-t)**2 * p0 + 2*(1-t)*t * p1 + t**2 * p2]. *)
Definition bezier (t : float) (p0 p1 p2 : Z) : float :=
  let one_minus_t := fsub (float_of_int 1) t in
  fadd (fadd (fmul (fsquare one_minus_t) (float_of_int p0))
             (fmul (fmul (fmul (float_of_int 2) one_minus_t) t) (float_of_int p1)))
       (fmul (fsquare t) (float_of_int p2)).

Definition dive_steps : nat := 30.

(** The loop of [start_dive] that fills [dive_path]. *)
Definition bezier_path (start_x start_y control_x control_y target_x target_y : Z)
  : list (Z * Z) :=
  map (fun i =>
         let t := fdiv (float_of_int i) (float_of_int (Z.of_nat dive_steps)) in
         (int_of_float (bezier t start_x control_x target_x),
          int_of_float (bezier t start_y control_y target_y)))
      (range (dive_steps + 1)).

(** [Enemy.start_dive(target_x, target_y)] *)
Definition Enemy_start_dive (self : Enemy) (target_x target_y : Z) : M Enemy :=
  if has_captured_player self then ret self
  else
    let self := set_is_diving true self in
    let self := set_dive_index 0%nat self in
    let self := set_original_pos (rx (e_rect self), ry (e_rect self)) self in
    let start_x := rx (e_rect self) in
    let start_y := ry (e_rect self) in
    r <- randint (-100) 100 ;;
    let control_x := start_x + r in
    let control_y := (start_y + target_y) / 2 - 50 in
    ret (set_dive_path
           (bezier_path start_x start_y control_x control_y target_x target_y)
           self).

(** Back to the top row at a random column: the three lines shared by the
    two ends of a dive. *)
Definition relocate_top (self : Enemy) : M Enemy :=
  let self := set_e_rect (set_ry 50 (e_rect self)) self in
  x <- randint 50 (WINDOW_WIDTH - 50) ;;
  let self := set_e_rect (set_rx x (e_rect self)) self in
  ret (set_base_x (float_of_int (rx (e_rect self))) self).

Section Simulation.

(** [math.sin] and [math.cos] of the C library. *)
Variables math_sin math_cos : float -> float.

(** The formation branch of [Enemy.update]: sway around [base_x], turn at
    the edges, step down every [move_down_interval]. *)
Definition Enemy_formation_move (self : Enemy) : M Enemy :=
  let self := set_e_time (fadd (e_time self) (wave_speed self)) self in
  let sway :=
    int_of_float (fmul (float_of_int (wave_amplitude self))
                       (math_sin (fadd (e_time self) (wave_offset self)))) in
  let self :=
    set_e_rect (set_rx (int_of_float (fadd (base_x self) (float_of_int sway)))
                       (e_rect self)) self in
  let self :=
    if rright (e_rect self) >? WINDOW_WIDTH then
      set_speed_x (PrimFloat.opp (PrimFloat.abs (speed_x self)))
        (set_base_x (float_of_int (WINDOW_WIDTH - rwidth (e_rect self)
                                   - wave_amplitude self)) self)
    else if rleft (e_rect self) <? 0 then
      set_speed_x (PrimFloat.abs (speed_x self))
        (set_base_x (float_of_int (wave_amplitude self)) self)
    else self in
  let self := set_base_x (fadd (base_x self) (speed_x self)) self in
  now <- get_ticks ;;
  if now - last_move_down self >? move_down_interval then
    ret (set_last_move_down now
           (set_e_rect (set_ry (ry (e_rect self) + 20) (e_rect self)) self))
  else ret self.

(** The diving branch of [Enemy.update]. *)
Definition Enemy_dive_move (self : Enemy) : M Enemy :=
  if (dive_index self <? length (dive_path self))%nat then
    let '(x, y) := nth (dive_index self) (dive_path self) (0, 0) in
    let self := set_e_rect (set_ry y (set_rx x (e_rect self))) self in
    let self := set_dive_index (S (dive_index self)) self in
    if can_capture self && negb (has_captured_player self)
       && (length (dive_path self) / 2 <? dive_index self)%nat
    then
      p <- get player ;;
      if colliderect (p_rect p) (e_rect self)
         && negb (invincible p) && negb (is_captured p)
      then
        Player_get_captured (eid self) ;;
        let self := set_has_captured_player true self in
        let self := set_is_diving false self in
        relocate_top self
      else ret self
    else ret self
  else
    let self := set_is_diving false self in
    if ry (e_rect self) >? WINDOW_HEIGHT then relocate_top self else ret self.

(** [Enemy.update] *)
Definition Enemy_update (self : Enemy) : M Enemy :=
  let self := set_anim_counter (anim_counter self + 1) self in
  self <- (if can_shoot then
             now <- get_ticks ;;
             if now - e_last_shot self >? e_shoot_delay self then
               Enemy_shoot self ;;
               let self := set_e_last_shot now self in
               d <- randint 3000 8000 ;;
               ret (set_e_shoot_delay d self)
             else ret self
           else ret self) ;;
  self <- (if is_diving self then Enemy_dive_move self
           else Enemy_formation_move self) ;;
  when (has_captured_player self)
    (modify_player
       (fun p =>
          set_p_rect
            (set_ry (ry (e_rect self) + snd captured_player_offset)
               (set_rx (rx (e_rect self) + fst captured_player_offset) (p_rect p)))
            p)) ;;
  ret self.

(** ** Wave management *)

Inductive Formation := grid | diamond | arc | v_shape.

Definition enemy_types : list EnemyType := [small; medium; large].

Definition enemy_type_at (i : Z) : EnemyType := nth (Z.to_nat i) enemy_types large.

Definition add_enemy (e : Enemy) : M unit :=
  modify (fun w => set_enemies (enemies w ++ [e]) w).

Definition spawn (x y : Z) (t : EnemyType) : M unit :=
  e <- new_Enemy x y t ;; add_enemy e.

Definition diamond_positions : list (Z * Z) :=
  let c := WINDOW_WIDTH / 2 in
  [ (c, 50); (c - 80, 100); (c + 80, 100); (c, 150); (c - 40, 75);
    (c + 40, 75); (c - 40, 125); (c + 40, 125); (c - 120, 150); (c + 120, 150) ].

(** [create_enemies_formation(formation)].  [enemies.empty()] takes every
    enemy out of the group [enemies]; the callers run it on an empty group. *)
Definition create_enemies_formation (formation : Formation) : M unit :=
  modify (set_enemies []) ;;
  match formation with
  | grid =>
      let cols := 5%nat in
      let rows := 2%nat in
      for_each (range rows) (fun row =>
        for_each (range cols) (fun col =>
          k <- randint 0 2 ;;
          spawn (col * 80 + 100) (row * 60 + 50) (enemy_type_at k)))
  | diamond =>
      for_each (combine (range (length diamond_positions)) diamond_positions)
        (fun '(i, pos) => spawn (fst pos) (snd pos) (enemy_type_at (i mod 3)))
  | arc =>
      let center_x := WINDOW_WIDTH / 2 in
      let radius := 150 in
      let count := 10%nat in
      for_each (range count) (fun i =>
        let angle := fdiv (fmul math_pi (float_of_int i))
                          (float_of_int (Z.of_nat count - 1)) in
        let x := center_x + int_of_float (fmul (float_of_int radius) (math_cos angle)) in
        let y := 100 + int_of_float (fmul (float_of_int radius) (math_sin angle)) in
        spawn x y (enemy_type_at (i mod 3)))
  | v_shape =>
      let center_x := WINDOW_WIDTH / 2 in
      let count := 10 in
      let spacing := 40 in
      for_each (range (Z.to_nat (count / 2))) (fun i =>
        spawn (center_x - (i + 1) * spacing) (50 + i * 30) (enemy_type_at (i mod 3)) ;;
        spawn (center_x + (i + 1) * spacing) (50 + i * 30)
              (enemy_type_at ((i + 1) mod 3)))
  end.

Definition wave_formations : list Formation := [grid; diamond; arc; v_shape].

(** ** Collision resolution *)

(** Positions of the elements of [l] that satisfy [f], counted from [from]. *)
Fixpoint positions {A} (f : A -> bool) (l : list A) (from : nat) : list nat :=
  match l with
  | [] => []
  | x :: l' => if f x then from :: positions f l' (S from) else positions f l' (S from)
  end.

Fixpoint replace_nth {A} (i : nat) (x : A) (l : list A) : list A :=
  match l, i with
  | [], _ => []
  | _ :: l', O => x :: l'
  | y :: l', S i' => y :: replace_nth i' x l'
  end.

(** A loop that carries a local value through its iterations. *)
Fixpoint fold_each {A S} (l : list A) (body : S -> A -> M S) (s : S) : M S :=
  match l with
  | [] => ret s
  | x :: l' => s' <- body s x ;; fold_each l' body s'
  end.

(** [pygame.sprite.groupcollide(bullets, enemies, True, False)]: for every
    bullet, in group order, the enemies whose rectangle overlaps it; a bullet
    with a non-empty list enters the result and is killed.  The enemies are
    given by their position in the group. *)
Definition groupcollide_bullets_enemies : M (list (Rect * list nat)) :=
  bs <- get bullets ;;
  es <- get enemies ;;
  let collision b := positions (fun e => colliderect b (e_rect e)) es 0 in
  modify (set_bullets
            (filter (fun b => match collision b with [] => true | _ => false end) bs)) ;;
  ret (flat_map (fun b => match collision b with [] => [] | c => [(b, c)] end) bs).

(** The body of the inner loop of the bullet-enemy pass, on the enemy object
    at position [i].  The objects referred to by [hits] are held in [store]
    with a flag that tells whether the object is still in the group
    [enemies]; [enemy.kill()] clears the flag, the object stays in the lists
    of the bullets that come later. *)
Definition bullet_hits_enemy (store : list (Enemy * bool)) (i : nat)
  : M (list (Enemy * bool)) :=
  match nth_error store i with
  | None => ret store
  | Some (enemy, member) =>
      let enemy := set_health (health enemy - 1) enemy in
      if health enemy <=? 0 then
        when (has_captured_player enemy) Player_rescue ;;
        play explosion_sound ;;
        modify (fun w => set_score (score w + points enemy) w) ;;
        ret (replace_nth i (enemy, false) store)
      else ret (replace_nth i (enemy, member) store)
  end.

(** Check for bullet-enemy collisions. *)
Definition bullet_enemy_collisions : M unit :=
  es <- get enemies ;;
  hits <- groupcollide_bullets_enemies ;;
  store <- fold_each hits
             (fun store '(bullet, hit_enemies) =>
                fold_each hit_enemies bullet_hits_enemy store)
             (map (fun e => (e, true)) es) ;;
  modify (set_enemies (map fst (filter snd store))).

(** Check for enemy bullet-player collisions.
    [spritecollide(player, enemy_bullets, True)] kills the overlapping
    bullets; the player is hit once when there is one. *)
Definition enemy_bullet_player_collisions : M unit :=
  p <- get player ;;
  when (negb (is_captured p) && negb (invincible p))
    (ebs <- get enemy_bullets ;;
     let touches b := colliderect (p_rect p) b in
     modify (set_enemy_bullets (filter (fun b => negb (touches b)) ebs)) ;;
     when (existsb touches ebs) Player_hit).

Definition respawn_delay : Z := 1000.

(** The body of the loop over [enemy_collisions]: [None] when the enemy is
    destroyed by the collision. *)
Definition enemy_meets_player (enemy : Enemy) : M (option Enemy) :=
  p <- get player ;;
  captures <-
    (if can_capture enemy && negb (has_captured_player enemy)
        && (combined_ships p <? max_combined_ships)
     then u <- random ;; ret (PrimFloat.ltb u 0.3%float)
     else ret false) ;;
  if captures then
    Player_get_captured (eid enemy) ;;
    let enemy := set_has_captured_player true enemy in
    p <- get player ;;
    when (lives p >? 0)
      (modify (set_respawning true) ;;
       now <- get_ticks ;;
       modify (set_respawn_timer now) ;;
       modify_player
         (fun p => set_p_rect (set_rcenterx (WINDOW_WIDTH / 2) (p_rect p)) p) ;;
       modify_player
         (fun p => set_p_rect (set_rbottom (WINDOW_HEIGHT - 20) (p_rect p)) p)) ;;
    ret (Some enemy)
  else
    Player_hit ;;
    ret None.

Definition keep_some {A} (l : list (option A)) : list A :=
  flat_map (fun o => match o with Some x => [x] | None => [] end) l.

(** Check for enemy-player collisions.  [spritecollide(player, enemies,
    False)] is taken once, before the loop, on the rectangles of that
    moment; the loop visits the overlapping enemies in group order. *)
Definition enemy_player_collisions : M unit :=
  p <- get player ;;
  when (negb (is_captured p) && negb (invincible p))
    (es <- get enemies ;;
     es' <- map_each es
              (fun enemy =>
                 if colliderect (p_rect p) (e_rect enemy)
                 then enemy_meets_player enemy
                 else ret (Some enemy)) ;;
     modify (set_enemies (keep_some es'))).

(** ** The dive scheduler *)

(** [random.sample(population, k)] as CPython draws it for a population of at
    most 21 elements (there are at most 10 enemies): [k] times, take the
    element at a random position of the pool and move the last element of the
    pool into its place. *)
Fixpoint sample {A} (pool : list A) (k : nat) : M (list A) :=
  match k with
  | O => ret []
  | S k' =>
      j <- randint 0 (Z.of_nat (length pool) - 1) ;;
      match nth_error pool (Z.to_nat j), rev pool with
      | Some x, y :: _ =>
          rest <- sample (removelast (replace_nth (Z.to_nat j) y pool)) k' ;;
          ret (x :: rest)
      | _, _ => ret []
      end
  end.

Definition dive_interval : Z := 3000.

(** The body of the loop over [diving_enemies], on the enemy at position [i]
    of the group. *)
Definition send_diving (i : nat) : M unit :=
  es <- get enemies ;;
  match nth_error es i with
  | None => skip
  | Some enemy =>
      when (negb (is_diving enemy) && negb (has_captured_player enemy))
        (p <- get player ;;
         r <- randint (-50) 50 ;;
         let target_x := rcenterx (p_rect p) + r in
         let target_y := WINDOW_HEIGHT + 50 in
         enemy' <- Enemy_start_dive enemy target_x target_y ;;
         modify (fun w => set_enemies (replace_nth i enemy' (enemies w)) w))
  end.

(** Randomly select enemies to dive toward the player. *)
Definition dive_scheduler : M unit :=
  now <- get_ticks ;;
  last <- get last_dive_time ;;
  es <- get enemies ;;
  when ((now - last >? dive_interval) && (0 <? length es)%nat)
    (modify (set_last_dive_time now) ;;
     r <- randint 1 2 ;;
     let dive_count := Nat.min (Z.to_nat r) (length es) in
     diving_enemies <- sample (seq 0 (length es)) dive_count ;;
     for_each diving_enemies send_diving).

(** ** The game loop *)

(** Handle player respawning after capture. *)
Definition respawn_step : M unit :=
  r <- get respawning ;;
  when r
    (current_time <- get_ticks ;;
     t <- get respawn_timer ;;
     when (current_time - t >? respawn_delay)
       (modify (set_respawning false) ;;
        modify_player (set_invincible true) ;;
        modify_player (set_invincible_timer current_time) ;;
        modify_player (set_flash_counter 0))).

Definition keep_updated (update : Rect -> option Rect) (l : list Rect) : list Rect :=
  keep_some (map update l).

(** [all_sprites.update()]: the player first, then the sprites in the order
    they were added.  The iteration runs over a snapshot of the group, so the
    enemy bullets fired during the pass are not moved by it. *)
Definition update_all : M unit :=
  old_enemy_bullets <- get (fun w => length (enemy_bullets w)) ;;
  Player_update ;;
  es <- get enemies ;;
  es' <- map_each es Enemy_update ;;
  modify (set_enemies es') ;;
  modify (fun w => set_bullets (keep_updated Bullet_update (bullets w)) w) ;;
  modify (fun w =>
            set_enemy_bullets
              (keep_updated EnemyBullet_update
                 (firstn old_enemy_bullets (enemy_bullets w))
               ++ skipn old_enemy_bullets (enemy_bullets w)) w).

(** Check if all enemies are destroyed: next wave, next formation. *)
Definition next_wave_check : M unit :=
  es <- get enemies ;;
  when (length es =? 0)%nat
    (play wave_complete_sound ;;
     modify (fun w => set_current_wave (current_wave w + 1) w) ;;
     wave <- get current_wave ;;
     let formation :=
       nth (Z.to_nat (wave mod Z.of_nat (length wave_formations)))
           wave_formations grid in
     create_enemies_formation formation).

(** Check for game over. *)
Definition game_over_check : M unit :=
  p <- get player ;;
  when (lives p <=? 0) (modify (set_running false)).

(** The event loop of a frame; answers [true] when a [QUIT] event ended the
    process ([sys.exit()]), which leaves the rest of the frame undone. *)
Fixpoint process_events (events : list Event) : M bool :=
  match events with
  | [] => ret false
  | QUIT :: _ => modify (set_exited true) ;; ret true
  | KEYDOWN K_ESCAPE :: rest => modify (set_running false) ;; process_events rest
  | KEYDOWN K_SPACE :: rest => Player_shoot ;; process_events rest
  | _ :: rest => process_events rest
  end.

(** The simulation part of the body of [while running:]. *)
Definition collision_resolution : M unit :=
  bullet_enemy_collisions ;;
  enemy_bullet_player_collisions ;;
  enemy_player_collisions.

Definition frame : M unit :=
  events <- event_get ;;
  quit <- process_events events ;;
  if quit then skip
  else
    respawn_step ;;
    update_all ;;
    collision_resolution ;;
    next_wave_check ;;
    dive_scheduler ;;
    game_over_check.

(** [run_game] up to its loop: fresh groups, a new player, the first wave. *)
Definition run_game_setup : M unit :=
  modify (set_enemies []) ;;
  modify (set_bullets []) ;;
  modify (set_enemy_bullets []) ;;
  p <- new_Player ;;
  modify (set_player p) ;;
  modify (set_current_wave 0) ;;
  create_enemies_formation grid ;;
  modify (set_score 0) ;;
  now <- get_ticks ;;
  modify (set_last_dive_time now) ;;
  modify (set_running true) ;;
  modify (set_respawning false) ;;
  modify (set_respawn_timer 0).

(** [n] turns of [while running:]; the loop is left when [running] is
    cleared, or by [sys.exit()]. *)
Fixpoint run_frames (n : nat) (w : World) : World :=
  match n with
  | O => w
  | S n' => if running w && negb (exited w) then run_frames n' (exec frame w) else w
  end.

(** The states the loop of [run_game] goes through, seen at the loop head. *)
Inductive reachable : World -> Prop :=
| reach_start : forall w, exited w = false -> reachable (exec run_game_setup w)
| reach_frame : forall w,
    reachable w -> running w = true -> exited w = false ->
    reachable (exec frame w).

End Simulation.

(** * Definitions used by the statements *)

(** ** Relations between the world before and after a program *)

(** [steps R m]: running [m] takes a world to one related to it by [R]. *)
Definition steps (R : World -> World -> Prop) {A} (m : M A) : Prop :=
  forall w, R w (snd (m w)).

(** The range of [combined_ships] in the data model. *)
Definition ships_in_range (p : Player) : Prop :=
  combined_ships p = 1 \/ combined_ships p = 2.

(** From [w] to [w']: [combined_ships] stays in its range. *)
Definition ships_kept (w w' : World) : Prop :=
  ships_in_range (player w) -> ships_in_range (player w').

(** [w'] has no more lives than [w]. *)
Definition lives_not_raised (w w' : World) : Prop :=
  lives (player w') <= lives (player w).

(** What holds of the player at the head of the loop of [run_game]. *)
Definition loop_head_ok (w : World) : Prop :=
  lives (player w) <= 3
  /\ (running w = true -> exited w = false -> 1 <= lives (player w))
  /\ ships_in_range (player w).

(** The number of calls of [Player.rescue] so far: each call plays
    [rescue_sound], and nothing else plays it. *)
Definition rescues (w : World) : nat :=
  length (filter (Sound_eqb rescue_sound) (played w)).

(** From [w] to [w']: unless [rescue()] was called in between, a captured
    player is still captured. *)
Definition captivity_kept (w w' : World) : Prop :=
  (rescues w <= rescues w')%nat
  /\ (is_captured (player w) = true -> rescues w' = rescues w ->
      is_captured (player w') = true).

(** ** The dive path and the grid *)

Definition point_eqb (a b : Z * Z) : bool :=
  (fst a =? fst b) && (snd a =? snd b).

(** The path of [start_dive] from [(100,50)] to [(120,850)] when the random
    offset of the control point is [r]: its length and its two ends. *)
Definition dive_100_50_ends_ok (r : Z) : bool :=
  let path := bezier_path 100 50 (100 + r) ((50 + 850) / 2 - 50) 120 850 in
  (length path =? 31)%nat
  && match nth_error path 0 with Some a => point_eqb a (100, 50) | None => false end
  && match nth_error path 30 with Some a => point_eqb a (120, 850) | None => false end.

(** The coordinates of the grid formation: [(100+80c, 50+60r)], row by row. *)
Definition grid_coordinates : list (Z * Z) :=
  flat_map (fun r => map (fun c => (100 + 80 * c, 50 + 60 * r)) (range 5)) (range 2).

(** ** The dive scheduler *)

(** An enemy that the dive scheduler may send: not diving, not carrying the
    captured player. *)
Definition eligible (e : Enemy) : bool :=
  negb (is_diving e) && negb (has_captured_player e).

(** The scheduler acts: more than [dive_interval] since the last time, and
    there is an enemy. *)
Definition scheduler_due (w : World) : Prop :=
  clock w 0%nat - last_dive_time w > dive_interval /\ enemies w <> [].

(** The positions of the enemies that were eligible before and dive after. *)
Definition newly_diving (before after : list Enemy) : list nat :=
  positions (fun ee => eligible (fst ee) && is_diving (snd ee)) (combine before after) 0.

(** [e'] is [e] after a call of [start_dive] whose target is within 50 of the
    centre of the player [p], and 50 below the bottom of the window. *)
Definition dive_started (p : Player) (e e' : Enemy) : Prop :=
  exists target_x v,
    rcenterx (p_rect p) - 50 <= target_x <= rcenterx (p_rect p) + 50
    /\ e' = eval (Enemy_start_dive e target_x (WINDOW_HEIGHT + 50)) v.

(** ** The bullet-enemy pass *)

(** The bullet [b] overlaps the enemy [e]. *)
Definition overlaps (b : Rect) (e : Enemy) : bool := colliderect b (e_rect e).

(** The number of the bullets [bs] that overlap [e]. *)
Definition hits_on (bs : list Rect) (e : Enemy) : Z :=
  Z.of_nat (length (filter (fun b => overlaps b e) bs)).

(** Of [k] successive hits on an enemy of health [h], the number of those
    that leave its health at 0 or below. *)
Definition lethal_hits (h k : Z) : Z := Z.max 0 (k - Z.max h 1 + 1).

(** The enemy [e] is hit by a bullet of [bs] and ends at health 0 or below. *)
Definition destroyed (bs : list Rect) (e : Enemy) : bool :=
  (0 <? hits_on bs e) && (health e - hits_on bs e <=? 0).

Fixpoint sumZ (l : list Z) : Z :=
  match l with
  | [] => 0
  | x :: l' => x + sumZ l'
  end.

(** The body of the inner loop of the bullet-enemy pass seen on the object
    itself: the new object and its membership of the group. *)
Definition hit_object (em : Enemy * bool) : M (Enemy * bool) :=
  let enemy := set_health (health (fst em) - 1) (fst em) in
  if health enemy <=? 0 then
    when (has_captured_player enemy) Player_rescue ;;
    play explosion_sound ;;
    modify (fun w => set_score (score w + points enemy) w) ;;
    ret (enemy, false)
  else ret (enemy, snd em).

(** The object after one hit, and whether that hit is lethal. *)
Definition obj_hit (em : Enemy * bool) : Enemy * bool :=
  let enemy := set_health (health (fst em) - 1) (fst em) in
  (enemy, if health enemy <=? 0 then false else snd em).

Definition lethal_now (em : Enemy * bool) : bool := health (fst em) - 1 <=? 0.

(** The object after the bullets [bs], each overlapping one hitting it. *)
Fixpoint after_bullets (bs : list Rect) (em : Enemy * bool) : Enemy * bool :=
  match bs with
  | [] => em
  | b :: bs' => after_bullets bs' (if overlaps b (fst em) then obj_hit em else em)
  end.

(** The number of lethal hits of the bullets [bs] on the object. *)
Fixpoint lethal_count (bs : list Rect) (em : Enemy * bool) : Z :=
  match bs with
  | [] => 0
  | b :: bs' =>
      if overlaps b (fst em)
      then (if lethal_now em then 1 else 0) + lethal_count bs' (obj_hit em)
      else lethal_count bs' em
  end.

(** What a part of the bullet-enemy pass does to the world: [ds] points
    scored, [dr] calls of [rescue()], the bullets untouched, the player
    untouched unless rescued. *)
Definition tally (w w' : World) (ds dr : Z) : Prop :=
  score w' = score w + ds
  /\ Z.of_nat (rescues w') = Z.of_nat (rescues w) + dr
  /\ bullets w' = bullets w
  /\ (dr = 0 -> player w' = player w)
  /\ (0 < dr -> exists v, player w' = player (exec Player_rescue v)).

(** The visit of the objects of [store] by the bullet [b]. *)
Definition bullet_visit (b : Rect) (store : list (Enemy * bool))
  : M (list (Enemy * bool)) :=
  map_each store (fun em => if overlaps b (fst em) then hit_object em else ret em).

(** ** Concrete states *)

(** A new player: three lives, one ship, at the bottom centre. *)
Definition demo_player : Player :=
  mkPlayer (mkRect 285 740 30 40) 0 3 1 false 0 0 false None false 0.

(** A free player with two combined ships. *)
Definition combined_player : Player :=
  mkPlayer (mkRect 275 740 50 40) 0 2 2 false 0 0 false None true 0.

(** A player captured by the enemy of identity 4, carried below it. *)
Definition captured_player : Player :=
  mkPlayer (mkRect 200 90 30 40) 0 2 1 false 0 0 true (Some 4%nat) false 0.

(** A player on its last life, free. *)
Definition last_life_player : Player :=
  mkPlayer (mkRect 285 740 30 40) 0 1 1 false 0 0 false None false 0.

(** An enemy of kind [t] in formation at [(x, y)], as [Enemy(x, y, t)] makes
    it, with fixed values where the constructor draws random ones. *)
Definition demo_enemy (t : EnemyType) (x y : Z) (id : nat) : Enemy :=
  mkEnemy id t (kind_points t) (kind_health t) (kind_speed_factor t)
    (kind_can_capture t) (mkRect x y (kind_size t) (kind_size t))
    (float_of_int x) (fmul (float_of_int 2) (kind_speed_factor t))
    (fmul (float_of_int 2) (kind_speed_factor t))
    30 0.07%float 0%float 0%float 0 false [] 0%nat (x, y) false 5000 0 0.

(** The boss that carries [captured_player]. *)
Definition captor_enemy : Enemy :=
  set_has_captured_player true (demo_enemy large 200 50 4).

(** A small enemy in the middle of a dive from [(sx, 50)] toward
    [(tx, 850)] with control abscissa [cx]: it stands on point [i - 1] of its
    path and moves to point [i] at its next update. *)
Definition diving_small (id : nat) (sx cx tx : Z) (i : nat) : Enemy :=
  let path := bezier_path sx 50 cx ((50 + 850) / 2 - 50) tx 850 in
  let '(x, y) := nth (i - 1) path (0, 0) in
  set_dive_index i
    (set_dive_path path
       (set_is_diving true
          (set_e_last_shot 9000
             (set_e_rect (mkRect x y 20 20) (demo_enemy small sx 50 id))))).

(** A running game with the player [p] and the enemies [es]: no bullet, no
    event, no key pressed, the clock at 10 s, every raw draw 0. *)
Definition demo_world (p : Player) (es : list Enemy) : World :=
  mkWorld p es [] [] 0 0 0 false 0 true false 0%nat []
    (fun _ => 0) (fun n => 10000 + Z.of_nat n) (fun _ => []) (fun _ => (false, false)).

(** The scheduler is due, the random source samples the enemy at position 0,
    which is diving already; the enemy at position 1 is eligible. *)
Definition busy_world : World :=
  mkWorld demo_player
    [diving_small 0 260 230 290 5; demo_enemy medium 340 50 1]
    [] [] 0 0 5000 false 0 true false 2%nat []
    (fun _ => 0) (fun n => 10000 + Z.of_nat n) (fun _ => []) (fun _ => (false, false)).


(** A bullet over a boss that carries the player and over a small enemy, a
    second bullet over the boss, which has one point of health left, and a
    third bullet over nothing. *)
Definition crossfire_world : World :=
  mkWorld captured_player
    [set_health 1 captor_enemy;
     demo_enemy small 236 60 5; demo_enemy medium 400 50 6]
    [mkRect 235 70 6 12; mkRect 210 80 6 12; mkRect 500 300 6 12] [] 0 0 9000
    false 0 true false 7%nat []
    (fun _ => 0) (fun n => 10000 + Z.of_nat n) (fun _ => []) (fun _ => (false, false)).

(** * Further definitions: the rest of the program

    The methods of the player and of the enemies seen over several calls, the
    relations that a turn of the loop keeps, and the parts of the program
    that stand beside the simulation: the explosions, the lives display, the
    high score file, the start screen and the star field.  These act on
    nothing that the simulation reads, and are modelled apart from the
    world, except for the events and the random source that they take. *)

(** ** The player *)

(** The bullets of one shot of the player [p]: one from the nose; with two
    combined ships one more on each side, 20 away; with a single ship and
    double fire one more on the left. *)
Definition volley (p : Player) : list Rect :=
  let c := rcenterx (p_rect p) in
  let t := rtop (p_rect p) in
  Bullet c t ::
    (if combined_ships p =? 2 then [Bullet (c - 20) t; Bullet (c + 20) t]
     else if has_double_fire p then [Bullet (c - 20) t] else []).

(** The ship is less than one step of [speed] outside the window. *)
Definition within_reach (p : Player) : Prop :=
  - p_speed < rleft (p_rect p) /\ rright (p_rect p) < WINDOW_WIDTH + p_speed.

(** ** Bullets in flight *)

(** [k] successive calls of [update] on a bullet: [None] once it has killed
    itself. *)
Fixpoint updates (update : Rect -> option Rect) (k : nat) (b : Rect) : option Rect :=
  match k with
  | O => Some b
  | S k' =>
      match update b with
      | Some b' => updates update k' b'
      | None => None
      end
  end.

(** A ship 5 from the left edge of the window, the left key held down. *)
Definition left_edge_world : World :=
  mkWorld (set_p_rect (mkRect 5 740 30 40) demo_player) [] [] [] 0 0 0 false 0
    true false 0%nat []
    (fun _ => 0) (fun n => 10000 + Z.of_nat n) (fun _ => []) (fun _ => (true, false)).

(** ** Enemies *)

(** [k] successive calls of [Enemy.update] on the same enemy. *)
Fixpoint Enemy_updates (math_sin : float -> float) (k : nat) (self : Enemy) : M Enemy :=
  match k with
  | O => ret self
  | S k' => self' <- Enemy_update math_sin self ;; Enemy_updates math_sin k' self'
  end.

(** A small enemy at the start of a dive along [path]. *)
Definition diver (path : list (Z * Z)) : Enemy :=
  set_dive_path path (set_is_diving true (demo_enemy small 100 50 0)).

(** ** Formations *)

(** The attributes of an enemy that its kind fixes. *)
Definition of_its_kind (e : Enemy) : Prop :=
  points e = kind_points (enemy_type e)
  /\ can_capture e = kind_can_capture (enemy_type e)
  /\ rwidth (e_rect e) = kind_size (enemy_type e)
  /\ rheight (e_rect e) = kind_size (enemy_type e).

(** An enemy as its constructor leaves it: full health, in formation,
    carrying nothing. *)
Definition newly_made (e : Enemy) : Prop :=
  of_its_kind e /\ health e = kind_health (enemy_type e)
  /\ is_diving e = false /\ has_captured_player e = false /\ dive_path e = [].

(** The coordinates of the V formation: row [i] has its two enemies
    [40 (i + 1)] left and right of the middle of the window. *)
Definition v_coordinates : list (Z * Z) :=
  flat_map (fun i => [(WINDOW_WIDTH / 2 - 40 * (i + 1), 50 + 30 * i);
                      (WINDOW_WIDTH / 2 + 40 * (i + 1), 50 + 30 * i)]) (range 5).

Definition position (e : Enemy) : Z * Z := (rx (e_rect e), ry (e_rect e)).

(** ** What a turn of the loop keeps of the enemies *)

(** [e'] is the object [e] later on: the same identity, kind, points, capture
    ability and size; its health has not gone up, and is positive if it
    was. *)
Definition kept (e e' : Enemy) : Prop :=
  eid e' = eid e /\ enemy_type e' = enemy_type e /\ points e' = points e
  /\ can_capture e' = can_capture e
  /\ rwidth (e_rect e') = rwidth (e_rect e)
  /\ rheight (e_rect e') = rheight (e_rect e)
  /\ health e' <= health e /\ (1 <= health e -> 1 <= health e').

(** [l'] is the group [l] later on: some of its objects have left, the
    others are there in the same order. *)
Inductive thinned : list Enemy -> list Enemy -> Prop :=
| thinned_nil : thinned [] []
| thinned_keep : forall e e' l l', kept e e' -> thinned l l' -> thinned (e :: l) (e' :: l')
| thinned_drop : forall e l l', thinned l l' -> thinned (e :: l) l'.

Definition enemies_thinned (w w' : World) : Prop :=
  thinned (enemies w) (enemies w') /\ next_eid w' = next_eid w.

(** No object has left the group. *)
Definition enemies_kept (w w' : World) : Prop :=
  Forall2 kept (enemies w) (enemies w') /\ next_eid w' = next_eid w.

(** The program has not touched the group of the enemies. *)
Definition enemies_untouched (w w' : World) : Prop :=
  enemies w' = enemies w /\ next_eid w' = next_eid w.

(** An enemy of the group at the head of the loop. *)
Definition enemy_ok (e : Enemy) : Prop :=
  of_its_kind e /\ 1 <= health e <= kind_health (enemy_type e).

(** The group of the enemies at the head of the loop. *)
Definition enemies_ok (w : World) : Prop :=
  (1 <= length (enemies w) <= 10)%nat
  /\ Forall enemy_ok (enemies w)
  /\ NoDup (map eid (enemies w))
  /\ Forall (fun e => (eid e < next_eid w)%nat) (enemies w).

(** The program has not touched the score. *)
Definition score_same (w w' : World) : Prop := score w' = score w.

(** ** A captured player with no bullet in flight *)

(** From [w] to [w']: if the player was captured and no bullet of its own was
    in flight, it is so still, and it has lost and won nothing. *)
Definition still_stuck (w w' : World) : Prop :=
  is_captured (player w) = true -> bullets w = [] ->
  is_captured (player w') = true /\ bullets w' = []
  /\ captured_by (player w') = captured_by (player w)
  /\ lives (player w') = lives (player w)
  /\ combined_ships (player w') = combined_ships (player w)
  /\ score w' = score w
  /\ rescues w' = rescues w.

(** ** Events *)

Definition is_escape (e : Event) : bool :=
  match e with KEYDOWN K_ESCAPE => true | _ => false end.

(** A turn of the loop after its event loop. *)
Definition rest_of_turn (math_sin math_cos : float -> float) : M unit :=
  respawn_step ;;
  update_all math_sin ;;
  collision_resolution ;;
  next_wave_check math_sin math_cos ;;
  dive_scheduler ;;
  game_over_check.

(** A running game with one enemy in formation; in the batch of events of
    the turn the [ESCAPE] key comes before the [SPACE] key. *)
Definition escape_world : World :=
  mkWorld demo_player [demo_enemy medium 100 50 0] [] [] 0 0 9000 false 0
    true false 1%nat []
    (fun _ => 0) (fun n => 10000 + Z.of_nat n)
    (fun n => match n with O => [KEYDOWN K_ESCAPE; KEYDOWN K_SPACE] | _ => [] end)
    (fun _ => (false, false)).

(** The program has touched neither [running] nor [exited]. *)
Definition flags_same (w w' : World) : Prop :=
  running w' = running w /\ exited w' = exited w.

(** ** Collisions with the player *)

(** [k] successive calls of [hit()]. *)
Fixpoint Player_hits (k : nat) : M unit :=
  match k with
  | O => skip
  | S k' => Player_hit ;; Player_hits k'
  end.

(** The enemy [e] overlaps the player [p]. *)
Definition rams (p : Player) (e : Enemy) : bool := colliderect (p_rect p) (e_rect e).

(** A player with two combined ships under two small enemies. *)
Definition rammed_world : World :=
  mkWorld combined_player
    [demo_enemy small 280 745 0; demo_enemy small 300 750 1; demo_enemy medium 100 50 2]
    [] [mkRect 290 750 6 12; mkRect 300 760 6 12; mkRect 10 10 6 12]
    0 0 9000 false 0 true false 3%nat []
    (fun _ => 0) (fun n => 10000 + Z.of_nat n) (fun _ => []) (fun _ => (false, false)).

(** ** Explosions ([class Explosion])

    An explosion is a sprite of its own: it acts on nothing but itself.  A
    frame of its animation is kept as what is drawn on it: the side of the
    square surface, the radius and the alpha of the outer circle, and the
    radius of the inner circle when there is one. *)

Record ExplosionFrame := mkFrame {
  side : Z;
  radius : Z;
  alpha : Z;
  inner_radius : option Z
}.

Record Explosion := mkExplosion {
  x_size : Z;
  images : list ExplosionFrame;
  x_index : nat;
  x_image : ExplosionFrame;
  x_rect : Rect;
  x_counter : Z
}.

Definition num_frames : nat := 8.

(** The body of the loop of [Explosion.__init__] at step [i]. *)
Definition explosion_frame (size : Z) (i : Z) : ExplosionFrame :=
  let max_radius := fmul (float_of_int size) 1.5%float in
  let radius :=
    int_of_float (fdiv (fmul (float_of_int (i + 1)) max_radius)
                       (float_of_int (Z.of_nat num_frames))) in
  let alpha :=
    255 - int_of_float (fdiv (float_of_int (255 * i))
                             (float_of_int (Z.of_nat num_frames))) in
  mkFrame (size * 3) radius alpha
    (if i <? Z.of_nat num_frames - 2 then Some (radius / 2) else None).

(** [rect.center = (x, y)] *)
Definition set_rcenter (x y : Z) (r : Rect) : Rect :=
  set_ry (y - Z.quot (rheight r) 2) (set_rx (x - Z.quot (rwidth r) 2) r).

(** [Explosion(x, y, size)] *)
Definition new_Explosion (x y size : Z) : Explosion :=
  let images := map (explosion_frame size) (range num_frames) in
  let image := nth 0 images (mkFrame 0 0 0 None) in
  mkExplosion size images 0 image
    (set_rcenter x y (mkRect 0 0 (side image) (side image))) 0.

(** [Explosion.update]: [None] when the animation is over and the sprite
    kills itself. *)
Definition Explosion_update (self : Explosion) : option Explosion :=
  let counter := x_counter self + 1 in
  if counter >=? 2 then
    let index := S (x_index self) in
    if (length (images self) <=? index)%nat then None
    else
      Some (mkExplosion (x_size self) (images self) index
              (nth index (images self) (x_image self)) (x_rect self) 0)
  else
    Some (mkExplosion (x_size self) (images self) (x_index self) (x_image self)
            (x_rect self) counter).

(** [k] successive updates of an explosion. *)
Fixpoint Explosion_updates (k : nat) (self : Explosion) : option Explosion :=
  match k with
  | O => Some self
  | S k' =>
      match Explosion_update self with
      | Some self' => Explosion_updates k' self'
      | None => None
      end
  end.

(** The frames of an explosion of size [size] are as the integer formulas
    give them: radius [3 size (i + 1) / 16], alpha [255 - 255 i / 8], an inner
    circle of half the radius on the first six. *)
Definition frames_as_computed (size : Z) : bool :=
  forallb
    (fun i =>
       match nth_error (images (new_Explosion 0 0 size)) (Z.to_nat i) with
       | Some f =>
           (side f =? 3 * size) && (radius f =? 3 * size * (i + 1) / 16)
           && (alpha f =? 255 - 255 * i / 8)
           && match inner_radius f with
              | Some r => (i <? 6) && (r =? radius f / 2)
              | None => 6 <=? i
              end
       | None => false
       end)
    (range num_frames).

(** ** The lives display ([draw_lives]) *)

(** [range(n)] for an integer [n]: empty when [n] is not positive. *)
Definition range_Z (n : Z) : list Z := range (Z.to_nat n).

(** [draw_lives(surface, x, y, lives, image)]: the rectangles at which the
    image, [w] by [h], is blitted, in order. *)
Definition draw_lives (x y lives w h : Z) : list Rect :=
  map (fun i => set_ry y (set_rx (x + 30 * i) (mkRect 0 0 w h))) (range_Z lives).

(** ** The high score file ([load_high_score], [save_high_score])

    The file is seen through what the program does with it.  Its text is
    either the text of an integer, optional blanks around it (what
    [int(f.read().strip())] reads as that integer, and what [str(score)]
    writes), or any other text, on which [int] raises.  Opening the file and
    writing to it can fail; the three flags tell what the next operations
    do. *)

Inductive FileText := int_text (z : Z) | other_text.

Record Disk := mkDisk {
  high_score_file : option FileText;   (* [None]: no such file *)
  opens_for_read : bool;
  opens_for_write : bool;
  write_succeeds : bool
}.

Definition set_high_score_file (t : option FileText) (d : Disk) : Disk :=
  mkDisk t (opens_for_read d) (opens_for_write d) (write_succeeds d).

(** [load_high_score()]: every exception is caught and answered by 0. *)
Definition load_high_score (d : Disk) : Z :=
  match high_score_file d with
  | Some t =>
      if opens_for_read d then
        match t with
        | int_text z => z
        | other_text => 0
        end
      else 0
  | None => 0
  end.

(** [save_high_score(score)]: the answer and the disk afterwards.  A file
    opened for writing is emptied; when the write fails it is left without
    the text of an integer. *)
Definition save_high_score (score : Z) (d : Disk) : bool * Disk :=
  let current_high_score := load_high_score d in
  if score >? current_high_score then
    if opens_for_write d then
      if write_succeeds d then (true, set_high_score_file (Some (int_text score)) d)
      else (false, set_high_score_file (Some other_text) d)
    else (false, d)
  else (false, d).

(** A disk on which nothing fails. *)
Definition working (d : Disk) : Prop :=
  opens_for_read d = true /\ opens_for_write d = true /\ write_succeeds d = true.

(** ** The start screen ([show_start_screen]) *)

(** The event loop of one turn of the start screen, from the value of
    [waiting]: [None] when the process exits, else the new [waiting]. *)
Fixpoint start_screen_events (events : list Event) (waiting : bool) : M (option bool) :=
  match events with
  | [] => ret (Some waiting)
  | QUIT :: _ => modify (set_exited true) ;; ret None
  | KEYDOWN K_RETURN :: rest => start_screen_events rest false
  | KEYDOWN K_ESCAPE :: _ => modify (set_exited true) ;; ret None
  | _ :: rest => start_screen_events rest waiting
  end.

Inductive ScreenResult := screen_left | screen_exited | screen_waiting.

(** [show_start_screen()], at most [fuel] turns of its loop:
    [screen_waiting] when the loop is still waiting after them.  The star
    field and the drawing of the screen act on nothing that the loop reads,
    and are left out. *)
Fixpoint show_start_screen (fuel : nat) : M ScreenResult :=
  match fuel with
  | O => ret screen_waiting
  | S fuel' =>
      events <- event_get ;;
      r <- start_screen_events events true ;;
      match r with
      | None => ret screen_exited
      | Some true => show_start_screen fuel'
      | Some false => ret screen_left
      end
  end.

Definition is_quit (e : Event) : bool :=
  match e with QUIT | KEYDOWN K_ESCAPE => true | _ => false end.

Definition is_return (e : Event) : bool :=
  match e with KEYDOWN K_RETURN => true | _ => false end.

(** No key of the start screen in the batch. *)
Definition idle (events : list Event) : Prop :=
  existsb is_quit events = false /\ existsb is_return events = false.

(** The player presses ENTER in the third turn. *)
Definition enter_world : World :=
  mkWorld demo_player [] [] [] 0 0 0 false 0 true false 0%nat []
    (fun _ => 0) (fun n => 10000 + Z.of_nat n)
    (fun n => match n with 2%nat => [OTHER_EVENT; KEYDOWN K_RETURN] | _ => [OTHER_EVENT] end)
    (fun _ => (false, false)).

(** ** The star field ([class StarField])

    A star is a dictionary with the keys [x], [y], [size], [speed] and
    [color]; [y] starts as an integer and is a float from the first update
    on: it is kept as a float from the start. *)

Record Star := mkStar {
  s_x : Z;
  s_y : float;
  s_size : Z;
  s_speed : float;
  s_color : Z * Z * Z
}.

(** One star of a layer: the draws are made in the order of the keys. *)
Definition new_star (size : Z) (slow fast : float) (color : Z * Z * Z) : M Star :=
  x <- randint 0 WINDOW_WIDTH ;;
  y <- randint 0 WINDOW_HEIGHT ;;
  speed <- uniform slow fast ;;
  ret (mkStar x (float_of_int y) size speed color).

(** [StarField()]: the list [stars]. *)
Definition new_StarField : M (list Star) :=
  distant <- map_each (range 50)
               (fun _ => new_star 1 0.2%float 0.5%float (150, 150, 150)) ;;
  middle <- map_each (range 30)
              (fun _ => new_star 2 0.5%float 1.0%float (200, 200, 200)) ;;
  close <- map_each (range 20)
             (fun _ => new_star 3 1.0%float 2.0%float (255, 255, 255)) ;;
  ret (distant ++ middle ++ close).

(** The body of the loop of [StarField.update]. *)
Definition Star_update (star : Star) : M Star :=
  let star := mkStar (s_x star) (fadd (s_y star) (s_speed star)) (s_size star)
                (s_speed star) (s_color star) in
  if PrimFloat.ltb (float_of_int WINDOW_HEIGHT) (s_y star) then
    x <- randint 0 WINDOW_WIDTH ;;
    ret (mkStar x (float_of_int 0) (s_size star) (s_speed star) (s_color star))
  else ret star.

(** [StarField.update] *)
Definition StarField_update (stars : list Star) : M (list Star) :=
  map_each stars Star_update.

(** A star that is not below the window, nor left or right of it. *)
Definition star_in_window (s : Star) : Prop :=
  0 <= s_x s <= WINDOW_WIDTH
  /\ PrimFloat.ltb (float_of_int WINDOW_HEIGHT) (s_y s) = false.

(** The same star, moved. *)
Definition same_star (s s' : Star) : Prop :=
  s_size s' = s_size s /\ s_speed s' = s_speed s /\ s_color s' = s_color s.

(** ** Waves *)

(** The program has not touched the wave counter. *)
Definition wave_same (w w' : World) : Prop := current_wave w' = current_wave w.

(** The formation of the wave of number [k]. *)
Definition formation_of_wave (k : Z) : Formation :=
  nth (Z.to_nat (k mod 4)) wave_formations grid.

(** ** The lives of the player within a turn *)

(** The state of the turn of [w], when no [QUIT] comes, at the point where
    the two collision passes that touch the player begin: after the events,
    the respawn step, the updates and the bullet-enemy pass. *)
Definition before_player_passes (math_sin : float -> float) (w : World) : World :=
  exec bullet_enemy_collisions
    (exec (update_all math_sin)
       (exec respawn_step
          (exec (process_events (eval event_get w)) (exec event_get w)))).

(** The strikes that the two passes deal to the player of [v]: one for the
    enemy bullets if any of them overlaps the player, and one for each enemy
    that overlaps it. *)
Definition strikes (v : World) : Z :=
  (if existsb (colliderect (p_rect (player v))) (enemy_bullets v) then 1 else 0)
  + Z.of_nat (length (filter (rams (player v)) (enemies v))).

(** ** A game played from its start to its end *)

(** [math.sin] is a parameter of the simulation.  Where a whole game is run,
    the sine is computed by its Taylor series to the order 21, after the
    reduction of the argument to the interval from [-pi/2] to [pi/2]; the
    cosine is the sine a quarter of a turn further. *)
Definition half_pi : float := fdiv math_pi (float_of_int 2).

Definition sine_series (y : float) : float :=
  let y2 := fmul y y in
  let term (k : Z) (rest : float) :=
    fsub (float_of_int 1) (fdiv (fmul y2 rest) (float_of_int (k * (k + 1)))) in
  fmul y
    (term 2 (term 4 (term 6 (term 8 (term 10 (term 12 (term 14 (term 16
       (term 18 (term 20 (float_of_int 1))))))))))).

Definition sine (x : float) : float :=
  let turns := int_of_float (fdiv x two_pi) in
  let y := fsub x (fmul (float_of_int turns) two_pi) in
  let y := if PrimFloat.ltb math_pi y then fsub y two_pi
           else if PrimFloat.ltb y (PrimFloat.opp math_pi) then fadd y two_pi
           else y in
  let y := if PrimFloat.ltb half_pi y then fsub math_pi y
           else if PrimFloat.ltb y (PrimFloat.opp half_pi)
                then fsub (PrimFloat.opp math_pi) y
           else y in
  sine_series y.

Definition cosine (x : float) : float := sine (fadd x half_pi).

(** The state in which [run_game] is called: every raw draw of the random
    source is 3000000000000351, the clock advances by 10 ms from one reading
    to the next, no event comes and no key is held down.  With these draws
    the ten enemies of the grid are small ones, [random.random()] is about a
    third (no enemy shoots: a shot needs a draw below 0.3), and the dive
    scheduler sends two enemies at a time, toward a point 32 to the left of
    the centre of the player. *)
Definition first_world : World :=
  mkWorld demo_player [] [] [] 0 0 0 false 0 false false 0%nat []
    (fun _ => 3000000000000351) (fun n => 10 * Z.of_nat n)
    (fun _ => []) (fun _ => (false, false)).

(** The game after [n] turns of the loop, or at its end if the loop stops
    before. *)
Definition game_after (n : nat) : World :=
  run_frames sine cosine n (exec (run_game_setup sine cosine) first_world).

(** The head of turn 109 of that game: the player is on its last life, and
    two small enemies that the scheduler has sent together are about to reach
    it. *)
Definition last_life_world : World := game_after 108.

(** What is seen of an enemy: its identity, its kind, its rectangle, whether
    it dives, and the point of its path that its next update takes it to. *)
Definition seen (e : Enemy) : nat * EnemyType * Rect * bool * option (Z * Z) :=
  (eid e, enemy_type e, e_rect e, is_diving e,
   nth_error (dive_path e) (dive_index e)).

(** What is seen of a state at the head of a turn. *)
Definition seen_at_head (w : World)
  : Player * list (nat * EnemyType * Rect * bool * option (Z * Z))
    * list Rect * list Rect * list Event * bool * bool * bool * Z :=
  (player w, map seen (enemies w), bullets w, enemy_bullets w,
   event_queue w 0%nat, respawning w, running w, exited w, clock w 0%nat).

(** The conditions under which the turn of [w] strikes a player on its last
    life [k] times, as a test. *)
Definition last_life_struck (math_sin : float -> float) (k : Z) (w : World) : bool :=
  let v := before_player_passes math_sin w in
  running w && negb (exited w)
  && negb (existsb (fun e => match e with QUIT => true | _ => false end)
             (event_queue w 0%nat))
  && negb (is_captured (player v)) && negb (invincible (player v))
  && (combined_ships (player v) =? 1) && (lives (player v) =? 1)
  && forallb (fun e => negb (rams (player v) e) || negb (can_capture e)) (enemies v)
  && (strikes v =? k).
(** * Properties *)

(** ** Equations of the monad *)

Lemma exec_bind {A B} (m : M A) (k : A -> M B) (w : World) :
  exec (bind m k) w = exec (k (eval m w)) (exec m w).
Proof. reflexivity. Qed.

Lemma exec_modify (f : World -> World) (w : World) : exec (modify f) w = f w.
Proof. reflexivity. Qed.

Lemma exec_map_each_cons {A B} (x : A) (l : list A) (body : A -> M B) (w : World) :
  exec (map_each (x :: l) body) w = exec (map_each l body) (exec (body x) w).
Proof. reflexivity. Qed.

Lemma exec_fold_each_cons {A S} (x : A) (l : list A) (body : S -> A -> M S) (s : S)
    (w : World) :
  exec (fold_each (x :: l) body s) w
  = exec (fold_each l body (eval (body s x) w)) (exec (body s x) w).
Proof. reflexivity. Qed.

Lemma eval_fold_each_cons {A S} (x : A) (l : list A) (body : S -> A -> M S) (s : S)
    (w : World) :
  eval (fold_each (x :: l) body s) w
  = eval (fold_each l body (eval (body s x) w)) (exec (body s x) w).
Proof. reflexivity. Qed.

(** ** Relations kept by every step of a program *)

(** With a reflexive and transitive [R], [steps R] goes through the
    sequencing and the loops of the monad. *)

Section Steps.

Context (R : World -> World -> Prop) {R_pre : PreOrder R}.

Lemma steps_ret {A} (a : A) : steps R (ret a).
Proof. intros w. cbn. reflexivity. Qed.

Lemma steps_bind {A B} (m : M A) (k : A -> M B) :
  steps R m -> (forall a, steps R (k a)) -> steps R (bind m k).
Proof.
  intros Hm Hk w. unfold bind. cbn.
  transitivity (snd (m w)); [apply Hm | apply Hk].
Qed.

Lemma steps_get {A} (f : World -> A) : steps R (get f).
Proof. intros w. cbn. reflexivity. Qed.

Lemma steps_when (b : bool) (m : M unit) : steps R m -> steps R (when b m).
Proof. intros H. destruct b; cbn; [exact H | apply steps_ret]. Qed.

Lemma steps_for_each {A} (l : list A) (body : A -> M unit) :
  (forall x, steps R (body x)) -> steps R (for_each l body).
Proof.
  intros H. induction l as [|x l IH]; cbn.
  - apply steps_ret.
  - apply steps_bind; [apply H | intros _; exact IH].
Qed.

Lemma steps_map_each {A B} (l : list A) (body : A -> M B) :
  (forall x, steps R (body x)) -> steps R (map_each l body).
Proof.
  intros H. induction l as [|x l IH]; cbn.
  - apply steps_ret.
  - apply steps_bind; [apply H | intros y].
    apply steps_bind; [exact IH | intros ys; apply steps_ret].
Qed.

Lemma steps_fold_each {A S} (l : list A) (body : S -> A -> M S) (s : S) :
  (forall s x, steps R (body s x)) -> steps R (fold_each l body s).
Proof.
  intros H. revert s. induction l as [|x l IH]; intros s; cbn.
  - apply steps_ret.
  - apply steps_bind; [apply H | intros s'; apply IH].
Qed.

Lemma steps_sample {A} (pool : list A) (k : nat) :
  steps R draw -> steps R (sample pool k).
Proof.
  intros Hd. revert pool. induction k as [|k IH]; intros pool; cbn [sample].
  - apply steps_ret.
  - apply steps_bind.
    + unfold randint. apply steps_bind; [exact Hd | intros r; apply steps_ret].
    + intros j. destruct (nth_error pool (Z.to_nat j)); [|apply steps_ret].
      destruct (rev pool); [apply steps_ret|].
      apply steps_bind; [apply IH | intros rest; apply steps_ret].
Qed.

End Steps.

Create HintDb steps.

(** The head constant of an application. *)
Ltac head_of t :=
  lazymatch t with
  | ?f _ => head_of f
  | _ => t
  end.

(** Proves [steps R m] by walking through the program [m]: the monad's
    combinators by the lemmas above, a named subprogram by a lemma of the
    context or of the hint base [steps], or else by unfolding it; a primitive
    that rewrites the world is left to the tactic [leaf]. *)
Ltac steps_walk pre leaf :=
  cbv beta zeta;
  lazymatch goal with
  | |- steps _ (bind _ _) =>
      apply (@steps_bind _ pre); [steps_walk pre leaf | intros ?; steps_walk pre leaf]
  | |- steps _ (ret _) => apply (@steps_ret _ pre)
  | |- steps _ skip => apply (@steps_ret _ pre)
  | |- steps _ (get _) => apply (@steps_get _ pre)
  | |- steps _ (when _ _) => apply (@steps_when _ pre); steps_walk pre leaf
  | |- steps _ (for_each _ _) =>
      apply (@steps_for_each _ pre); intros ?; steps_walk pre leaf
  | |- steps _ (map_each _ _) =>
      apply (@steps_map_each _ pre); intros ?; steps_walk pre leaf
  | |- steps _ (fold_each _ _ _) =>
      apply (@steps_fold_each _ pre); intros ? ?; steps_walk pre leaf
  | |- steps _ (sample _ _) => apply (@steps_sample _ pre); steps_walk pre leaf
  | |- steps _ (if ?b then _ else _) => destruct b; steps_walk pre leaf
  | |- steps _ (match ?x with _ => _ end) => destruct x; steps_walk pre leaf
  | |- steps _ (fun _ => _) => intros ?; cbn; leaf
  | |- steps _ ?m =>
      first
        [ assumption
        | solve [auto with steps nocore]
        | let h := head_of m in unfold h; steps_walk pre leaf ]
  end.

(** ** The player state machine *)

(** Unfolds the monadic plumbing of a straight-line method. *)
Ltac run_method :=
  unfold exec, eval, bind, when, skip, ret, get, modify_player, modify, play,
    start_invincibility, get_ticks in *;
  cbn [fst snd] in *.

(** C3. [get_captured(captor)] changes nothing, in the player or anywhere
    else, when the player is already captured, or invincible, or flies two
    combined ships.  Otherwise (a free player with a single ship, the other
    value of the data model) it sets [is_captured], links [captured_by] to the
    captor and takes exactly one life; no other attribute of the player
    changes. *)
Theorem get_captured_spec (w : World) (captor : nat) :
  let p := player w in
  let w' := exec (Player_get_captured captor) w in
  (is_captured p = true \/ invincible p = true \/ combined_ships p = 2 -> w' = w)
  /\ (is_captured p = false -> invincible p = false -> combined_ships p <> 2 ->
      ships_in_range p ->
      is_captured (player w') = true
      /\ captured_by (player w') = Some captor
      /\ lives (player w') = lives p - 1
      /\ player w' =
           set_lives (lives p - 1)
             (set_captured_by (Some captor) (set_is_captured true p))).
Proof.
  cbv zeta. split.
  - intros H. unfold Player_get_captured. run_method.
    destruct (invincible (player w)) eqn:Hi; cbn; [reflexivity|].
    destruct (is_captured (player w)) eqn:Hc; cbn; [reflexivity|].
    destruct H as [H | [H | H]]; try discriminate.
    rewrite H. reflexivity.
  - intros Hc Hi Hne [H1 | H2]; [|contradiction].
    unfold Player_get_captured. run_method.
    rewrite Hc, Hi, H1. cbn. repeat split; reflexivity.
Qed.

Lemma get_captured_spec_witness :
  is_captured
    (player (exec (Player_get_captured 7) (demo_world demo_player []))) = true
  /\ lives (player (exec (Player_get_captured 7) (demo_world demo_player []))) = 2.
Proof.
  destruct (get_captured_spec (demo_world demo_player []) 7) as [_ H].
  destruct H as (H1 & _ & H3 & _).
  - reflexivity.
  - reflexivity.
  - cbn. lia.
  - left. reflexivity.
  - split; [exact H1 | exact H3].
Defined.

(** C4. A hit on a free player that flies two combined ships leaves one ship,
    turns double fire on, starts the invincibility period and takes no life. *)
Theorem hit_combined_spec (w : World) :
  combined_ships (player w) = 2 ->
  invincible (player w) = false ->
  is_captured (player w) = false ->
  let p' := player (exec Player_hit w) in
  combined_ships p' = 1
  /\ has_double_fire p' = true
  /\ invincible p' = true
  /\ lives p' = lives (player w).
Proof.
  intros H2 Hi Hc. cbv zeta. unfold Player_hit. run_method.
  rewrite Hi, Hc, H2. cbn.
  destruct (rwidth (p_rect (player w)) >? 30); cbn; rewrite ?H2; repeat split.
Qed.

Lemma hit_combined_spec_witness :
  combined_ships (player (exec Player_hit (demo_world combined_player []))) = 1
  /\ lives (player (exec Player_hit (demo_world combined_player []))) = 2.
Proof.
  destruct (hit_combined_spec (demo_world combined_player []))
    as (H1 & _ & _ & H4); try reflexivity.
  split; [exact H1 | exact H4].
Defined.

(** C5. After [rescue()] the player is not captured, has no captor, has
    double fire and is invincible; [combined_ships] is one more than before,
    unless it was 2 already, and then it is unchanged.  ([combined_ships] is
    1 or 2 in the data model; the statement needs only that it is at most
    2.) *)
Theorem rescue_spec (w : World) :
  combined_ships (player w) <= 2 ->
  let p' := player (exec Player_rescue w) in
  is_captured p' = false
  /\ captured_by p' = None
  /\ has_double_fire p' = true
  /\ invincible p' = true
  /\ combined_ships p' =
       (if combined_ships (player w) =? 2 then 2 else combined_ships (player w) + 1).
Proof.
  intros Hle. cbv zeta. unfold Player_rescue. run_method.
  unfold max_combined_ships. cbn.
  destruct (combined_ships (player w) <? 2) eqn:Hlt; cbn.
  - apply Z.ltb_lt in Hlt.
    replace (combined_ships (player w) =? 2) with false
      by (symmetry; apply Z.eqb_neq; lia).
    destruct (combined_ships (player w) + 1 =? 2); cbn; repeat split.
  - apply Z.ltb_ge in Hlt.
    replace (combined_ships (player w)) with 2 by lia.
    cbn. repeat split.
Qed.

Lemma rescue_spec_witness :
  is_captured (player (exec Player_rescue (demo_world captured_player []))) = false
  /\ combined_ships (player (exec Player_rescue (demo_world captured_player []))) = 2.
Proof.
  destruct (rescue_spec (demo_world captured_player [])) as (H1 & _ & _ & _ & H5).
  - cbn. lia.
  - split; [exact H1 | exact H5].
Defined.

(** ** The dive path *)

Lemma point_eqb_eq (a b : Z * Z) : point_eqb a b = true -> a = b.
Proof.
  destruct a, b. unfold point_eqb. cbn. rewrite andb_true_iff, !Z.eqb_eq.
  intros [-> ->]. reflexivity.
Qed.

(** Every offset that [randint(-100, 100)] can return, tried one by one. *)
Lemma dive_100_50_all_offsets :
  forallb (fun c => dive_100_50_ends_ok (-100 + c)) (range 201) = true.
Proof. vm_compute. reflexivity. Qed.

Lemma in_range (n : nat) (z : Z) : 0 <= z < Z.of_nat n -> In z (range n).
Proof.
  intros H. unfold range. apply in_map_iff. exists (Z.to_nat z). split.
  - lia.
  - apply in_seq. lia.
Qed.

Lemma randint_bounds (a b : Z) (w : World) :
  a <= b -> a <= eval (randint a b) w <= b.
Proof.
  intros H. unfold randint, draw, eval, bind, ret. cbn.
  pose proof (Z.mod_pos_bound (rng w 0%nat) (b - a + 1)). lia.
Qed.

(** C8. For an enemy at [(100,50)] that carries no captured player,
    [start_dive(120, 850)] leaves a [dive_path] of exactly 31 points, the
    first one [(100,50)] and the last one [(120,850)], whatever the random
    source gives for the control point. *)
Theorem start_dive_100_50_spec (w : World) (self : Enemy) :
  rx (e_rect self) = 100 ->
  ry (e_rect self) = 50 ->
  has_captured_player self = false ->
  let path := dive_path (eval (Enemy_start_dive self 120 850) w) in
  length path = 31%nat
  /\ nth_error path 0 = Some (100, 50)
  /\ nth_error path 30 = Some (120, 850).
Proof.
  intros Hx Hy Hc. cbv zeta.
  unfold Enemy_start_dive. rewrite Hc.
  unfold eval, bind, ret. cbn [fst snd dive_path set_dive_path e_rect
    set_original_pos set_dive_index set_is_diving].
  rewrite Hx, Hy.
  pose proof (randint_bounds (-100) 100 w ltac:(lia)) as Hr.
  unfold eval in Hr.
  set (r := fst (randint (-100) 100 w)) in *.
  assert (Hok : dive_100_50_ends_ok r = true).
  { pose proof dive_100_50_all_offsets as Hall.
    rewrite forallb_forall in Hall.
    specialize (Hall (r + 100)).
    replace (-100 + (r + 100)) with r in Hall by lia.
    apply Hall. apply in_range. lia. }
  unfold dive_100_50_ends_ok in Hok. cbv zeta in Hok.
  set (path := bezier_path 100 50 (100 + r) ((50 + 850) / 2 - 50) 120 850) in *.
  apply andb_true_iff in Hok. destruct Hok as [Hok H30].
  apply andb_true_iff in Hok. destruct Hok as [Hlen H0].
  apply Nat.eqb_eq in Hlen.
  destruct (nth_error path 0) as [a|]; [|discriminate].
  destruct (nth_error path 30) as [b|]; [|discriminate].
  apply point_eqb_eq in H0. apply point_eqb_eq in H30. subst a b.
  repeat split; exact Hlen.
Qed.

Lemma start_dive_100_50_spec_witness :
  length (dive_path (eval (Enemy_start_dive (demo_enemy large 100 50 0) 120 850)
                          (demo_world demo_player []))) = 31%nat.
Proof.
  apply (start_dive_100_50_spec (demo_world demo_player []) (demo_enemy large 100 50 0));
    reflexivity.
Defined.

(** ** The grid formation *)

(** C9. The grid generator leaves exactly 10 enemies in the group, at the
    coordinates [(100+80c, 50+60r)] for [c] in [0..4] and [r] in [0..1],
    whatever the random source gives for the kinds.  The 10 enemies are new
    objects, with fresh identities: none of the enemies that were in the
    group remains. *)
Theorem grid_formation_spec (math_sin math_cos : float -> float) (w : World) :
  let w' := exec (create_enemies_formation math_sin math_cos grid) w in
  length (enemies w') = 10%nat
  /\ map (fun e => (rx (e_rect e), ry (e_rect e))) (enemies w') = grid_coordinates
  /\ map eid (enemies w') = seq (next_eid w) 10
  /\ (forall e, In e (enemies w) -> (eid e < next_eid w)%nat -> ~ In e (enemies w')).
Proof.
  cbv zeta.
  assert (Hid : map eid (enemies (exec (create_enemies_formation math_sin math_cos grid) w))
                = seq (next_eid w) 10) by reflexivity.
  split; [reflexivity|]. split; [reflexivity|]. split; [exact Hid|].
  intros e _ Hlt Hin. apply (in_map eid) in Hin. rewrite Hid in Hin.
  apply in_seq in Hin. lia.
Qed.

(** ** A frame gives no life *)

#[local] Instance lives_not_raised_pre : PreOrder lives_not_raised.
Proof.
  split.
  - intros w. unfold lives_not_raised. lia.
  - intros a b c. unfold lives_not_raised. lia.
Qed.

Ltac lives_leaf := unfold lives_not_raised; cbn; lia.

Lemma process_events_lives (events : list Event) :
  steps lives_not_raised (process_events events).
Proof.
  induction events as [|e events IH]; cbn [process_events].
  - steps_walk lives_not_raised_pre lives_leaf.
  - destruct e as [|k|]; [|destruct k|]; steps_walk lives_not_raised_pre lives_leaf.
Qed.

#[local] Hint Resolve process_events_lives : steps.

Lemma frame_lives (math_sin math_cos : float -> float) :
  steps lives_not_raised (frame math_sin math_cos).
Proof. steps_walk lives_not_raised_pre lives_leaf. Qed.

(** ** Captivity *)

#[local] Instance captivity_kept_pre : PreOrder captivity_kept.
Proof.
  split.
  - intros w. unfold captivity_kept. auto.
  - intros a b c [Hab1 Hab2] [Hbc1 Hbc2]. unfold captivity_kept. split.
    + lia.
    + intros Hc Heq. apply Hbc2; [apply Hab2|]; try assumption; lia.
Qed.

Ltac captivity_leaf :=
  unfold captivity_kept, rescues; cbn; split; [lia | auto].

Lemma Player_rescue_counted (w : World) :
  rescues (exec Player_rescue w) = S (rescues w).
Proof.
  unfold Player_rescue. run_method. unfold rescues.
  destruct (combined_ships _ <? max_combined_ships); cbn;
    [destruct (_ =? 2); cbn|]; reflexivity.
Qed.

Lemma Player_rescue_captivity : steps captivity_kept Player_rescue.
Proof.
  intros w. pose proof (Player_rescue_counted w) as H. unfold exec in H.
  unfold captivity_kept. rewrite H. split; [lia | intros _ Hn; lia].
Qed.

#[local] Hint Resolve Player_rescue_captivity : steps.

Lemma process_events_captivity (events : list Event) :
  steps captivity_kept (process_events events).
Proof.
  induction events as [|e events IH]; cbn [process_events].
  - steps_walk captivity_kept_pre captivity_leaf.
  - destruct e as [|k|]; [|destruct k|];
      steps_walk captivity_kept_pre captivity_leaf.
Qed.

#[local] Hint Resolve process_events_captivity : steps.

Lemma frame_captivity (math_sin math_cos : float -> float) :
  steps captivity_kept (frame math_sin math_cos).
Proof. steps_walk captivity_kept_pre captivity_leaf. Qed.

Lemma run_frames_captivity (math_sin math_cos : float -> float) (n : nat) (w : World) :
  captivity_kept w (run_frames math_sin math_cos n w).
Proof.
  revert w. induction n as [|n IH]; intros w; cbn [run_frames].
  - reflexivity.
  - destruct (running w && negb (exited w)); [|reflexivity].
    transitivity (exec (frame math_sin math_cos) w);
      [apply frame_captivity | apply IH].
Qed.

Lemma run_frames_split (math_sin math_cos : float -> float) (m k : nat) (w : World) :
  run_frames math_sin math_cos (m + k) w
  = run_frames math_sin math_cos k (run_frames math_sin math_cos m w).
Proof.
  revert w. induction m as [|m IH]; intros w; cbn [run_frames Nat.add].
  - reflexivity.
  - destruct (running w && negb (exited w)) eqn:Hr.
    + apply IH.
    + destruct k; cbn [run_frames]; [reflexivity | rewrite Hr; reflexivity].
Qed.

(** C10. Once the player is captured, it stays captured through every frame
    of the loop until [rescue()] is called: if no call of [rescue()] is made
    during [n] turns of the loop, [is_captured] holds after each of them.
    The respawn step of the loop does nothing to the player but start an
    invincibility period, so it leaves [is_captured] as it is; and for a
    captured player [shoot()] does nothing at all, and [Player.update] reads
    no key and leaves the position where it is. *)
Theorem captivity_lasts_until_rescue
    (math_sin math_cos : float -> float) (n : nat) (w : World) :
  is_captured (player w) = true ->
  rescues (run_frames math_sin math_cos n w) = rescues w ->
  (forall m, (m <= n)%nat ->
     is_captured (player (run_frames math_sin math_cos m w)) = true)
  /\ (player (exec respawn_step w) = player w
      \/ player (exec respawn_step w)
         = set_flash_counter 0
             (set_invincible_timer (clock w 0%nat) (set_invincible true (player w))))
  /\ exec Player_shoot w = w
  /\ p_rect (player (exec Player_update w)) = p_rect (player w)
  /\ pressed (exec Player_update w) = pressed w.
Proof.
  intros Hc Hn. split; [|split; [|split; [|split]]].
  - intros m Hm.
    destruct (run_frames_captivity math_sin math_cos m w) as [Hle Hkeep].
    apply Hkeep; [exact Hc|].
    replace n with (m + (n - m))%nat in Hn by lia.
    rewrite run_frames_split in Hn.
    destruct (run_frames_captivity math_sin math_cos (n - m)
                (run_frames math_sin math_cos m w)) as [Hle' _].
    lia.
  - unfold respawn_step. run_method.
    destruct (respawning w); cbn; [|left; reflexivity].
    destruct (_ >? respawn_delay); cbn; [right | left]; reflexivity.
  - unfold Player_shoot. run_method. rewrite Hc. reflexivity.
  - unfold Player_update. run_method.
    destruct (invincible (player w)); cbn;
      [destruct (_ >? invincible_duration); cbn|]; rewrite Hc; cbn; reflexivity.
  - unfold Player_update. run_method.
    destruct (invincible (player w)); cbn;
      [destruct (_ >? invincible_duration); cbn|]; rewrite Hc; cbn; reflexivity.
Qed.

Lemma captivity_lasts_until_rescue_witness :
  is_captured
    (player (run_frames (fun x => x) (fun x => x) 3
               (demo_world captured_player [captor_enemy]))) = true.
Proof.
  destruct (captivity_lasts_until_rescue (fun x => x) (fun x => x) 3
              (demo_world captured_player [captor_enemy])) as [H _].
  - reflexivity.
  - vm_compute. reflexivity.
  - apply (H 3%nat). lia.
Defined.

(** ** The lives counter at the head of the loop *)

(** A [QUIT] event is the only way out of the event loop with [true], and it
    sets [exited]. *)
Lemma process_events_quit (events : list Event) (w : World) :
  eval (process_events events) w = true ->
  exited (exec (process_events events) w) = true.
Proof.
  revert w. induction events as [|e events IH]; intros w; cbn [process_events].
  - discriminate.
  - destruct e as [|k|]; [|destruct k|]; try apply IH.
    reflexivity.
Qed.

#[local] Instance ships_kept_pre : PreOrder ships_kept.
Proof.
  split.
  - intros w H. exact H.
  - intros a b c Hab Hbc H. apply Hbc, Hab, H.
Qed.

Ltac ships_leaf := unfold ships_kept, ships_in_range; cbn; auto.

Lemma Player_hit_ships : steps ships_kept Player_hit.
Proof.
  intros w. unfold ships_kept, ships_in_range, Player_hit. run_method.
  destruct (negb _ && negb _); cbn; [|auto].
  destruct (combined_ships (player w) >? 1) eqn:Hgt; cbn.
  - intros H. apply Z.gtb_lt in Hgt.
    destruct (rwidth _ >? 30); cbn; lia.
  - destruct (_ >? 0); cbn; auto.
Qed.

Lemma Player_rescue_ships : steps ships_kept Player_rescue.
Proof.
  intros w. unfold ships_kept, ships_in_range, Player_rescue. run_method.
  unfold max_combined_ships. cbn.
  destruct (combined_ships (player w) <? 2) eqn:Hlt; cbn.
  - intros H. apply Z.ltb_lt in Hlt.
    destruct (_ + 1 =? 2); cbn; lia.
  - auto.
Qed.

#[local] Hint Resolve Player_hit_ships Player_rescue_ships : steps.

Lemma process_events_ships (events : list Event) :
  steps ships_kept (process_events events).
Proof.
  induction events as [|e events IH]; cbn [process_events].
  - steps_walk ships_kept_pre ships_leaf.
  - destruct e as [|k|]; [|destruct k|]; steps_walk ships_kept_pre ships_leaf.
Qed.

#[local] Hint Resolve process_events_ships : steps.

Lemma frame_ships (math_sin math_cos : float -> float) :
  steps ships_kept (frame math_sin math_cos).
Proof. steps_walk ships_kept_pre ships_leaf. Qed.

(** A frame that leaves the loop running leaves a life. *)
Lemma frame_leaves_a_life (math_sin math_cos : float -> float) (w : World) :
  running (exec (frame math_sin math_cos) w) = true ->
  exited (exec (frame math_sin math_cos) w) = false ->
  1 <= lives (player (exec (frame math_sin math_cos) w)).
Proof.
  unfold frame. rewrite !exec_bind.
  set (w1 := exec event_get w).
  set (events := eval event_get w).
  destruct (eval (process_events events) w1) eqn:Hq.
  - intros _ He. apply process_events_quit in Hq.
    change (exited (exec (process_events events) w1) = false) in He.
    congruence.
  - rewrite !exec_bind.
    match goal with |- context [exec game_over_check ?x] => set (w2 := x) end.
    unfold game_over_check. run_method.
    destruct (lives (player w2) <=? 0) eqn:Hl; cbn.
    + discriminate.
    + intros _ _. apply Z.leb_gt in Hl. lia.
Qed.

Lemma setup_loop_head_ok (math_sin math_cos : float -> float) (w : World) :
  loop_head_ok (exec (run_game_setup math_sin math_cos) w).
Proof.
  assert (Hl : lives (player (exec (run_game_setup math_sin math_cos) w)) = 3)
    by reflexivity.
  assert (Hs : combined_ships (player (exec (run_game_setup math_sin math_cos) w)) = 1)
    by reflexivity.
  unfold loop_head_ok, ships_in_range.
  rewrite Hl, Hs. split; [lia|]. split; [lia|]. left. reflexivity.
Qed.

Lemma reachable_loop_head_ok (math_sin math_cos : float -> float) (w : World) :
  reachable math_sin math_cos w -> loop_head_ok w.
Proof.
  induction 1 as [w He | w Hr IH Hrun Hex].
  - apply setup_loop_head_ok.
  - destruct IH as (Hle & Hge & Hs). repeat split.
    + pose proof (frame_lives math_sin math_cos w) as H.
      unfold lives_not_raised in H. unfold exec. lia.
    + apply frame_leaves_a_life.
    + apply (frame_ships math_sin math_cos w Hs).
Qed.

Lemma Player_hit_takes_at_most_one (w : World) :
  lives (player w) - 1 <= lives (player (exec Player_hit w)) <= lives (player w).
Proof.
  unfold Player_hit. run_method.
  destruct (negb _ && negb _); cbn; [|lia].
  destruct (_ >? 1); cbn.
  - destruct (_ >? 30); cbn; lia.
  - destruct (_ >? 0); cbn; lia.
Qed.

Lemma Player_get_captured_takes_at_most_one (captor : nat) (w : World) :
  lives (player w) - 1 <= lives (player (exec (Player_get_captured captor) w))
                       <= lives (player w).
Proof.
  unfold Player_get_captured. run_method.
  destruct (negb _ && negb _); cbn; [|lia].
  destruct (_ <? max_combined_ships); cbn; lia.
Qed.

(** ** One captor at a time *)


(** ** Lists: replacing an element *)

Lemma length_replace_nth {A} (i : nat) (x : A) (l : list A) :
  length (replace_nth i x l) = length l.
Proof.
  revert i. induction l as [|y l IH]; intros [|i]; cbn; try reflexivity.
  rewrite IH. reflexivity.
Qed.

Lemma nth_error_replace_nth_eq {A} (i : nat) (x : A) (l : list A) :
  (i < length l)%nat -> nth_error (replace_nth i x l) i = Some x.
Proof.
  revert i. induction l as [|y l IH]; intros [|i] H; cbn in *; try lia.
  - reflexivity.
  - apply IH. lia.
Qed.

Lemma nth_error_replace_nth_neq {A} (i j : nat) (x : A) (l : list A) :
  i <> j -> nth_error (replace_nth i x l) j = nth_error l j.
Proof.
  revert i j. induction l as [|y l IH]; intros [|i] [|j] H; cbn; try reflexivity.
  - congruence.
  - apply IH. congruence.
Qed.

Lemma replace_nth_app_l {A} (i : nat) (x : A) (l1 l2 : list A) :
  (i < length l1)%nat -> replace_nth i x (l1 ++ l2) = replace_nth i x l1 ++ l2.
Proof.
  revert i. induction l1 as [|y l1 IH]; intros [|i] H; cbn in *; try lia.
  - reflexivity.
  - rewrite IH by lia. reflexivity.
Qed.

Lemma replace_nth_app_r {A} (x y : A) (l1 l2 : list A) :
  replace_nth (length l1) x (l1 ++ y :: l2) = l1 ++ x :: l2.
Proof. induction l1 as [|z l1 IH]; cbn; [reflexivity | rewrite IH; reflexivity]. Qed.

(** ** Sampling without replacement *)

Lemma pool_step {A} (pool : list A) (j : nat) (x y : A) (l : list A) :
  NoDup pool -> nth_error pool j = Some x -> rev pool = y :: l ->
  let pool' := removelast (replace_nth j y pool) in
  NoDup pool' /\ incl pool' pool /\ ~ In x pool' /\ S (length pool') = length pool.
Proof.
  intros Hnd Hj Hrev.
  assert (Hp : pool = rev l ++ [y]).
  { rewrite <- (rev_involutive pool), Hrev. reflexivity. }
  clear Hrev. set (q := rev l) in *. clearbody q. subst pool. cbv zeta.
  destruct (Nat.lt_ge_cases j (length q)) as [Hlt | Hge].
  - rewrite replace_nth_app_l by assumption. rewrite removelast_last.
    rewrite nth_error_app1 in Hj by assumption.
    apply nth_error_split in Hj. destruct Hj as (q1 & q2 & Hq & Hlen).
    subst q j. rewrite replace_nth_app_r.
    assert (Hperm : Permutation ((q1 ++ x :: q2) ++ [y]) (x :: y :: q1 ++ q2)).
    { rewrite <- app_assoc. cbn.
      rewrite <- Permutation_middle. apply perm_skip.
      rewrite app_assoc. rewrite <- Permutation_cons_append. reflexivity. }
    pose proof (Permutation_NoDup Hperm Hnd) as Hnd'.
    inversion Hnd' as [|? ? Hx Hnd'']; subst.
    assert (Hperm2 : Permutation (y :: q1 ++ q2) (q1 ++ y :: q2))
      by apply Permutation_middle.
    repeat split.
    + apply (Permutation_NoDup Hperm2 Hnd'').
    + intros z Hz. rewrite !in_app_iff in *. cbn in *. intuition.
    + intros Hin. apply Hx. apply (Permutation_in _ (Permutation_sym Hperm2) Hin).
    + rewrite !length_app. cbn. lia.
  - assert (Hj' : j = length q).
    { assert (j < length (q ++ [y]))%nat
        by (apply nth_error_Some; rewrite Hj; discriminate).
      rewrite length_app in H. cbn in H. lia. }
    subst j. rewrite nth_error_app2 in Hj by lia.
    rewrite Nat.sub_diag in Hj. cbn in Hj. injection Hj as <-.
    rewrite replace_nth_app_r. rewrite removelast_last.
    apply NoDup_remove in Hnd. rewrite app_nil_r in Hnd. destruct Hnd as [Hq Hy].
    repeat split.
    + exact Hq.
    + intros z Hz. apply in_or_app. left. exact Hz.
    + exact Hy.
    + rewrite length_app. cbn. lia.
Qed.

(** [sample pool k] answers [k] elements of the pool, no position taken
    twice: on a pool without repetition, [k] distinct elements. *)
Lemma sample_spec {A} (k : nat) (pool : list A) (w : World) :
  NoDup pool -> (k <= length pool)%nat ->
  NoDup (eval (sample pool k) w)
  /\ incl (eval (sample pool k) w) pool
  /\ length (eval (sample pool k) w) = k.
Proof.
  revert pool w. induction k as [|k IH]; intros pool w Hnd Hk.
  - cbn. repeat split; [constructor | intros z []].
  - cbn [sample]. unfold eval, bind. cbn [fst snd].
    pose proof (randint_bounds 0 (Z.of_nat (length pool) - 1) w ltac:(lia)) as Hb.
    unfold eval in Hb.
    set (j := fst (randint 0 (Z.of_nat (length pool) - 1) w)) in *.
    set (w1 := snd (randint 0 (Z.of_nat (length pool) - 1) w)).
    destruct (nth_error pool (Z.to_nat j)) as [x|] eqn:Hx.
    2:{ apply nth_error_None in Hx. lia. }
    destruct (rev pool) as [|y l] eqn:Hrev.
    { apply (f_equal (@length A)) in Hrev. rewrite length_rev in Hrev.
      cbn in Hrev. lia. }
    destruct (pool_step pool (Z.to_nat j) x y l Hnd Hx Hrev)
      as (Hnd' & Hincl & Hnin & Hlen).
    cbv zeta in *.
    set (pool' := removelast (replace_nth (Z.to_nat j) y pool)) in *.
    destruct (IH pool' w1 Hnd' ltac:(lia)) as (Hr1 & Hr2 & Hr3).
    unfold eval in Hr1, Hr2, Hr3. cbn [fst snd ret].
    repeat split.
    + constructor; [|exact Hr1]. intros Hin. apply Hnin. apply Hr2. exact Hin.
    + intros z [<- | Hz].
      * apply (nth_error_In _ _ Hx).
      * apply Hincl, Hr2, Hz.
    + cbn [length]. f_equal. exact Hr3.
Qed.

(** ** Lists: the positions of the elements that satisfy a test *)

Lemma in_positions {A} (f : A -> bool) (l : list A) (from i : nat) :
  In i (positions f l from) <->
  (from <= i)%nat /\ exists x, nth_error l (i - from) = Some x /\ f x = true.
Proof.
  revert from. induction l as [|y l IH]; intros from; cbn [positions].
  - split; [intros [] | intros (_ & x & Hx & _)].
    destruct (i - from)%nat; discriminate.
  - assert (Hrest : In i (positions f l (S from)) <->
                    (from < i)%nat /\ exists x, nth_error (y :: l) (i - from) = Some x
                                                /\ f x = true).
    { rewrite IH. split.
      - intros (Hle & x & Hx & Hf). split; [lia|]. exists x. split; [|exact Hf].
        replace (i - from)%nat with (S (i - S from)) by lia. exact Hx.
      - intros (Hlt & x & Hx & Hf). split; [lia|]. exists x. split; [|exact Hf].
        replace (i - from)%nat with (S (i - S from)) in Hx by lia. exact Hx. }
    destruct (f y) eqn:Hy.
    + cbn [In]. rewrite Hrest. split.
      * intros [<- | (Hlt & Hx)].
        -- split; [lia|]. exists y. rewrite Nat.sub_diag. auto.
        -- split; [lia | exact Hx].
      * intros (Hle & x & Hx & Hf).
        destruct (Nat.eq_dec from i) as [-> | Hne]; [left; reflexivity|].
        right. split; [lia|]. exists x. auto.
    + rewrite Hrest. split.
      * intros (Hlt & Hx). split; [lia | exact Hx].
      * intros (Hle & x & Hx & Hf).
        destruct (Nat.eq_dec from i) as [-> | Hne].
        -- rewrite Nat.sub_diag in Hx. cbn in Hx. congruence.
        -- split; [lia|]. exists x. auto.
Qed.

Lemma NoDup_positions {A} (f : A -> bool) (l : list A) (from : nat) :
  NoDup (positions f l from).
Proof.
  revert from. induction l as [|y l IH]; intros from; cbn [positions].
  - constructor.
  - destruct (f y); [|apply IH].
    constructor; [|apply IH].
    rewrite in_positions. intros (H & _). lia.
Qed.

Lemma positions_nil_iff {A} (f : A -> bool) (l : list A) (from : nat) :
  positions f l from = [] <-> existsb f l = false.
Proof.
  revert from. induction l as [|y l IH]; intros from; cbn.
  - tauto.
  - destruct (f y); cbn; [split; discriminate | apply IH].
Qed.

Lemma positions_map {A B} (g : A -> B) (f : B -> bool) (l : list A) (from : nat) :
  positions f (map g l) from = positions (fun x => f (g x)) l from.
Proof.
  revert from. induction l as [|y l IH]; intros from; cbn; [reflexivity|].
  rewrite IH. reflexivity.
Qed.

(** ** The dive scheduler *)

Lemma start_dive_eligible (e : Enemy) (tx ty : Z) (v : World) :
  has_captured_player e = false ->
  is_diving (eval (Enemy_start_dive e tx ty) v) = true
  /\ dive_index (eval (Enemy_start_dive e tx ty) v) = 0%nat
  /\ exec (Enemy_start_dive e tx ty) v = exec draw v.
Proof.
  intros H. unfold Enemy_start_dive. rewrite H. repeat split.
Qed.

Lemma send_diving_spec (i : nat) (v : World) :
  let v' := exec (send_diving i) v in
  player v' = player v
  /\ last_dive_time v' = last_dive_time v
  /\ match nth_error (enemies v) i with
     | Some e =>
         if eligible e
         then exists e', enemies v' = replace_nth i e' (enemies v)
                         /\ is_diving e' = true /\ dive_index e' = 0%nat
                         /\ dive_started (player v) e e'
         else enemies v' = enemies v
     | None => enemies v' = enemies v
     end.
Proof.
  cbv zeta. unfold send_diving. rewrite exec_bind.
  change (exec (get enemies) v) with v. change (eval (get enemies) v) with (enemies v).
  destruct (nth_error (enemies v) i) as [e|] eqn:He; [|repeat split].
  unfold eligible.
  destruct (is_diving e) eqn:Hd; [repeat split|].
  destruct (has_captured_player e) eqn:Hc; [repeat split|].
  cbn [negb andb when].
  pose proof (randint_bounds (-50) 50 v ltac:(lia)) as Hr. unfold eval in Hr.
  set (r := fst (randint (-50) 50 v)) in *.
  set (v1 := snd (randint (-50) 50 v)).
  destruct (start_dive_eligible e (rcenterx (p_rect (player v)) + r)
              (WINDOW_HEIGHT + 50) v1 Hc) as (H1 & H2 & H3).
  set (e' := eval (Enemy_start_dive e (rcenterx (p_rect (player v)) + r)
                     (WINDOW_HEIGHT + 50)) v1) in *.
  assert (Hv : exec (p <- get player ;;
                     r <- randint (-50) 50 ;;
                     enemy' <- Enemy_start_dive e (rcenterx (p_rect p) + r)
                                 (WINDOW_HEIGHT + 50) ;;
                     modify (fun w => set_enemies (replace_nth i enemy' (enemies w)) w)) v
               = set_enemies (replace_nth i e' (enemies (exec draw v1))) (exec draw v1)).
  { rewrite !exec_bind. rewrite <- H3. reflexivity. }
  rewrite Hv. split; [reflexivity|]. split; [reflexivity|].
  exists e'. split; [reflexivity|]. split; [exact H1|]. split; [exact H2|].
  exists (rcenterx (p_rect (player v)) + r), v1. split; [lia | reflexivity].
Qed.

Lemma existsb_eqb_in (i : nat) (l : list nat) :
  existsb (Nat.eqb i) l = true <-> In i l.
Proof.
  rewrite existsb_exists. split.
  - intros (x & Hx & He). apply Nat.eqb_eq in He. subst. exact Hx.
  - intros H. exists i. split; [exact H | apply Nat.eqb_refl].
Qed.

(** The loop over the sampled positions: an enemy changes when its position
    was sampled and it is eligible, and then a dive is started on it. *)
Lemma send_all_spec (sel : list nat) :
  NoDup sel ->
  forall v : World,
    let v' := exec (for_each sel send_diving) v in
    player v' = player v
    /\ last_dive_time v' = last_dive_time v
    /\ length (enemies v') = length (enemies v)
    /\ forall i e, nth_error (enemies v) i = Some e ->
         exists e', nth_error (enemies v') i = Some e'
           /\ if existsb (Nat.eqb i) sel && eligible e
              then is_diving e' = true /\ dive_index e' = 0%nat
                   /\ dive_started (player v) e e'
              else e' = e.
Proof.
  induction 1 as [|a sel Ha Hnd IH]; intros v; cbv zeta.
  - cbn. repeat split. intros i e He. exists e. auto.
  - cbn [for_each]. rewrite exec_bind.
    destruct (send_diving_spec a v) as (Hp & Hl & Hes). cbv zeta in Hes.
    set (v1 := exec (send_diving a) v) in *.
    destruct (IH v1) as (Hp' & Hl' & Hlen' & Hall'). cbv zeta in *.
    set (v' := exec (for_each sel send_diving) v1) in *.
    assert (Hlen1 : length (enemies v1) = length (enemies v)).
    { destruct (nth_error (enemies v) a) as [ea|]; [|congruence].
      destruct (eligible ea); [|congruence].
      destruct Hes as (e' & -> & _). apply length_replace_nth. }
    split; [congruence|]. split; [congruence|]. split; [congruence|].
    intros i e He. cbn [existsb].
    destruct (Nat.eq_dec i a) as [-> | Hne].
    + rewrite Nat.eqb_refl. cbn [orb andb].
      rewrite He in Hes.
      assert (Hnot : existsb (Nat.eqb a) sel = false).
      { destruct (existsb (Nat.eqb a) sel) eqn:Hex; [|reflexivity].
        apply existsb_eqb_in in Hex. contradiction. }
      destruct (eligible e) eqn:Hel.
      * destruct Hes as (e1 & Hes & Hd & Hi & Hst).
        assert (H1 : nth_error (enemies v1) a = Some e1).
        { rewrite Hes. apply nth_error_replace_nth_eq.
          apply nth_error_Some. rewrite He. discriminate. }
        destruct (Hall' a e1 H1) as (e' & He' & Hif).
        rewrite Hnot in Hif. cbn in Hif. subst e'.
        exists e1. auto.
      * assert (H1 : nth_error (enemies v1) a = Some e) by (rewrite Hes; exact He).
        destruct (Hall' a e H1) as (e' & He' & Hif).
        rewrite Hnot in Hif. cbn in Hif. subst e'.
        exists e. auto.
    + assert (Hia : Nat.eqb i a = false) by (apply Nat.eqb_neq; exact Hne).
      rewrite Hia. cbn [orb].
      assert (H1 : nth_error (enemies v1) i = Some e).
      { destruct (nth_error (enemies v) a) as [ea|]; [|rewrite Hes; exact He].
        destruct (eligible ea); [|rewrite Hes; exact He].
        destruct Hes as (e1 & -> & _).
        rewrite nth_error_replace_nth_neq by congruence. exact He. }
      destruct (Hall' i e H1) as (e' & He' & Hif).
      exists e'. split; [exact He'|]. rewrite <- Hp. exact Hif.
Qed.

Lemma nth_error_combine {A B} (l : list A) (l' : list B) (i : nat) (x : A) (y : B) :
  nth_error (combine l l') i = Some (x, y) ->
  nth_error l i = Some x /\ nth_error l' i = Some y.
Proof.
  revert l' i. induction l as [|a l IH]; intros [|b l'] [|i]; cbn; try discriminate.
  - intros H. injection H as <- <-. auto.
  - apply IH.
Qed.

(** C7, as the code has it.  When more than 3000 ms have passed since the
    last scheduling and there is an enemy, the scheduler notes the time and
    samples 1 or 2 positions of the enemy group, without repetition, among
    all the enemies.  A sampled enemy that is eligible (not diving, not
    carrying the captured player) starts a dive whose target is within 50 of
    the centre of the player and 50 below the bottom of the window; a sampled
    enemy that is not eligible, and every enemy that was not sampled, is left
    as it is.  So at most as many dives start as positions were sampled,
    possibly none.  When the scheduler is not due, it changes no enemy. *)
Theorem dive_scheduler_spec (w : World) :
  let w' := exec dive_scheduler w in
  (scheduler_due w ->
   exists sampled : list nat,
     NoDup sampled
     /\ (1 <= length sampled <= 2)%nat
     /\ (forall i, In i sampled -> (i < length (enemies w))%nat)
     /\ last_dive_time w' = clock w 0%nat
     /\ player w' = player w
     /\ length (enemies w') = length (enemies w)
     /\ (forall i e, nth_error (enemies w) i = Some e ->
           exists e', nth_error (enemies w') i = Some e'
             /\ if existsb (Nat.eqb i) sampled && eligible e
                then is_diving e' = true /\ dive_index e' = 0%nat
                     /\ dive_started (player w) e e'
                else e' = e)
     /\ (length (newly_diving (enemies w) (enemies w')) <= length sampled)%nat
     /\ WINDOW_HEIGHT < WINDOW_HEIGHT + 50)
  /\ (~ scheduler_due w ->
      enemies w' = enemies w /\ last_dive_time w' = last_dive_time w).
Proof.
  cbv zeta. unfold dive_scheduler. rewrite !exec_bind.
  change (eval get_ticks w) with (clock w 0%nat).
  set (w0 := exec get_ticks w).
  change (exec (get last_dive_time) w0) with w0.
  change (eval (get last_dive_time) w0) with (last_dive_time w).
  change (exec (get enemies) w0) with w0.
  change (eval (get enemies) w0) with (enemies w).
  split.
  - intros [Hdue Hne].
    assert (Hlen : (0 < length (enemies w))%nat)
      by (destruct (enemies w); [congruence | cbn; lia]).
    replace (clock w 0%nat - last_dive_time w >? dive_interval) with true
      by (symmetry; apply Z.gtb_lt; lia).
    replace (0 <? length (enemies w))%nat with true
      by (symmetry; apply Nat.ltb_lt; exact Hlen).
    cbn [andb when]. rewrite !exec_bind.
    set (w1 := exec (modify (set_last_dive_time (clock w 0%nat))) w0).
    pose proof (randint_bounds 1 2 w1 ltac:(lia)) as Hr.
    set (r := eval (randint 1 2) w1) in *.
    set (w2 := exec (randint 1 2) w1).
    set (dive_count := Nat.min (Z.to_nat r) (length (enemies w))).
    destruct (sample_spec dive_count (seq 0 (length (enemies w))) w2)
      as (Hnd & Hincl & Hcount).
    { apply seq_NoDup. }
    { rewrite length_seq. unfold dive_count. lia. }
    set (sampled := eval (sample (seq 0 (length (enemies w))) dive_count) w2) in *.
    set (w3 := exec (sample (seq 0 (length (enemies w))) dive_count) w2).
    destruct (send_all_spec sampled Hnd w3) as (Hp & Hl & Hlen' & Hall).
    cbv zeta in *.
    set (w' := exec (for_each sampled send_diving) w3) in *.
    assert (Hes3 : enemies w3 = enemies w).
    { assert (H : steps (fun a b => enemies b = enemies a)
                    (sample (seq 0 (length (enemies w))) dive_count)).
      { apply steps_sample.
        - split; [intros a; reflexivity | intros a b c; congruence].
        - intros a. reflexivity. }
      unfold w3, exec. rewrite H. reflexivity. }
    assert (Hp3 : player w3 = player w).
    { assert (H : steps (fun a b => player b = player a)
                    (sample (seq 0 (length (enemies w))) dive_count)).
      { apply steps_sample.
        - split; [intros a; reflexivity | intros a b c; congruence].
        - intros a. reflexivity. }
      unfold w3, exec. rewrite H. reflexivity. }
    assert (Hl3 : last_dive_time w3 = clock w 0%nat).
    { assert (H : steps (fun a b => last_dive_time b = last_dive_time a)
                    (sample (seq 0 (length (enemies w))) dive_count)).
      { apply steps_sample.
        - split; [intros a; reflexivity | intros a b c; congruence].
        - intros a. reflexivity. }
      unfold w3, exec. rewrite H. reflexivity. }
    rewrite Hes3, Hp3 in *.
    exists sampled. split; [exact Hnd|]. split.
    { rewrite Hcount. unfold dive_count. lia. }
    split.
    { intros i Hi. apply Hincl in Hi. apply in_seq in Hi. lia. }
    split; [congruence|]. split; [exact Hp|]. split; [exact Hlen'|].
    split; [exact Hall|]. split; [|unfold WINDOW_HEIGHT; lia].
    apply NoDup_incl_length; [apply NoDup_positions|].
    intros i Hi. unfold newly_diving in Hi. apply in_positions in Hi.
    destruct Hi as (_ & [e e'] & Hnth & Hf).
    rewrite Nat.sub_0_r in Hnth. apply nth_error_combine in Hnth.
    destruct Hnth as [He He']. cbn [fst snd] in Hf.
    destruct (Hall i e He) as (e'' & He'' & Hif).
    assert (e'' = e') by congruence. subst e''.
    apply andb_true_iff in Hf. destruct Hf as [Hel Hdv]. rewrite Hel in Hif.
    destruct (existsb (Nat.eqb i) sampled) eqn:Hex.
    + apply existsb_eqb_in. exact Hex.
    + cbn in Hif. subst e'. unfold eligible in Hel. rewrite Hdv in Hel. discriminate.
  - intros Hnot.
    assert (Hb : (clock w 0%nat - last_dive_time w >? dive_interval)
                 && (0 <? length (enemies w))%nat = false).
    { destruct (_ && _) eqn:Hb; [|reflexivity]. exfalso. apply Hnot.
      apply andb_true_iff in Hb. destruct Hb as [H1 H2].
      apply Z.gtb_lt in H1. apply Nat.ltb_lt in H2. split; [lia|].
      intros Hnil. rewrite Hnil in H2. cbn in H2. lia. }
    rewrite Hb. split; reflexivity.
Qed.

Lemma dive_scheduler_spec_witness :
  length (enemies (exec dive_scheduler busy_world)) = 2%nat.
Proof.
  destruct (dive_scheduler_spec busy_world) as [H _].
  destruct H as (sampled & _ & _ & _ & _ & _ & Hlen & _).
  - split; [reflexivity | discriminate].
  - exact Hlen.
Defined.

(** C7 fails as it is stated.  In [busy_world] the scheduler is due and there
    are two enemies, one of them eligible; the position sampled is the one of
    the enemy that dives already, the loop skips it, and no dive starts. *)
Lemma dive_scheduler_may_start_none :
  ~ (forall w : World,
       scheduler_due w ->
       (1 <= length (newly_diving (enemies w) (enemies (exec dive_scheduler w))) <= 2)%nat).
Proof.
  intros H. specialize (H busy_world).
  assert (Hdue : scheduler_due busy_world) by (split; [reflexivity | discriminate]).
  specialize (H Hdue). vm_compute in H. lia.
Qed.

(** ** The bullet-enemy pass *)

Lemma bullet_hits_enemy_object (store : list (Enemy * bool)) (i : nat)
    (em : Enemy * bool) (w : World) :
  nth_error store i = Some em ->
  bullet_hits_enemy store i w
  = (replace_nth i (fst (hit_object em w)) store, snd (hit_object em w)).
Proof.
  intros H. unfold bullet_hits_enemy, hit_object. rewrite H.
  destruct em as [e m]. cbn [fst snd].
  destruct (health (set_health (health e - 1) e) <=? 0); reflexivity.
Qed.

(** The loop over the positions of the overlapping objects is a visit of the
    objects in order. *)
Lemma fold_hits_visit (f : Enemy * bool -> bool) (rest pre : list (Enemy * bool))
    (w : World) :
  fold_each (positions f rest (length pre)) bullet_hits_enemy (pre ++ rest) w
  = (pre ++ fst (map_each rest (fun em => if f em then hit_object em else ret em) w),
     snd (map_each rest (fun em => if f em then hit_object em else ret em) w)).
Proof.
  revert pre w. induction rest as [|x rest IH]; intros pre w.
  - reflexivity.
  - cbn [positions map_each]. destruct (f x) eqn:Hf.
    + cbn [fold_each]. unfold bind at 1.
      rewrite (bullet_hits_enemy_object (pre ++ x :: rest) (length pre) x w).
      2:{ rewrite nth_error_app2 by lia. rewrite Nat.sub_diag. reflexivity. }
      cbn [fst snd]. rewrite replace_nth_app_r.
      set (x' := fst (hit_object x w)). set (w1 := snd (hit_object x w)).
      replace (pre ++ x' :: rest) with ((pre ++ [x']) ++ rest)
        by (rewrite <- app_assoc; reflexivity).
      replace (S (length pre)) with (length (pre ++ [x']))
        by (rewrite length_app; cbn; lia).
      rewrite IH. unfold bind, ret. cbn [fst snd].
      rewrite <- app_assoc. reflexivity.
    + replace (pre ++ x :: rest) with ((pre ++ [x]) ++ rest)
        by (rewrite <- app_assoc; reflexivity).
      replace (S (length pre)) with (length (pre ++ [x]))
        by (rewrite length_app; cbn; lia).
      rewrite IH. unfold bind, ret. cbn [fst snd].
      rewrite <- app_assoc. reflexivity.
Qed.

Lemma hit_object_fst (em : Enemy * bool) (w : World) :
  fst (hit_object em w) = obj_hit em.
Proof.
  unfold hit_object, obj_hit. cbv zeta.
  destruct (health (set_health (health (fst em) - 1) (fst em)) <=? 0); reflexivity.
Qed.

Lemma bullet_visit_fst (b : Rect) (store : list (Enemy * bool)) (w : World) :
  fst (bullet_visit b store w)
  = map (fun em => if overlaps b (fst em) then obj_hit em else em) store.
Proof.
  unfold bullet_visit. revert w. induction store as [|em store IH]; intros w.
  - reflexivity.
  - cbn [map_each map]. unfold bind, ret. cbn [fst snd]. rewrite IH. f_equal.
    destruct (overlaps b (fst em)); [apply hit_object_fst | reflexivity].
Qed.

Lemma bullet_visit_rects (b : Rect) (store : list (Enemy * bool)) (w : World) :
  map (fun em => e_rect (fst em)) (fst (bullet_visit b store w))
  = map (fun em => e_rect (fst em)) store.
Proof.
  rewrite bullet_visit_fst, map_map. apply map_ext. intros em.
  destruct (overlaps b (fst em)); reflexivity.
Qed.

Lemma positions_overlaps (b : Rect) (es : list Enemy) (store : list (Enemy * bool)) :
  map (fun em => e_rect (fst em)) store = map e_rect es ->
  positions (fun e => colliderect b (e_rect e)) es 0
  = positions (fun em => overlaps b (fst em)) store 0.
Proof.
  intros H.
  change (fun e => colliderect b (e_rect e)) with (fun e => colliderect b (e_rect e)).
  rewrite <- (positions_map e_rect (colliderect b) es).
  rewrite <- H. rewrite positions_map. reflexivity.
Qed.

(** A bullet that overlaps no object leaves the store and the world alone. *)
Lemma bullet_visit_none (b : Rect) (store : list (Enemy * bool)) (w : World) :
  existsb (fun em => overlaps b (fst em)) store = false ->
  bullet_visit b store w = (store, w).
Proof.
  unfold bullet_visit. revert w. induction store as [|em store IH]; intros w H.
  - reflexivity.
  - cbn in H. apply orb_false_iff in H. destruct H as [H1 H2].
    cbn [map_each]. rewrite H1. unfold bind.
    change (ret em w) with (em, w). cbn [fst snd].
    rewrite (IH w H2). reflexivity.
Qed.

(** The two nested loops over [hits] are the visits of all the bullets, in
    the order of the group. *)
Lemma hits_loop_visits (es : list Enemy) (bs : list Rect) :
  forall (store : list (Enemy * bool)) (w : World),
    map (fun em => e_rect (fst em)) store = map e_rect es ->
    fold_each
      (flat_map (fun b => match positions (fun e => colliderect b (e_rect e)) es 0 with
                          | [] => []
                          | c => [(b, c)]
                          end) bs)
      (fun store '(bullet, hit_enemies) =>
         fold_each hit_enemies bullet_hits_enemy store)
      store w
    = fold_each bs (fun store b => bullet_visit b store) store w.
Proof.
  induction bs as [|b bs IH]; intros store w Hr.
  - reflexivity.
  - cbn [flat_map fold_each].
    rewrite (positions_overlaps b es store Hr).
    destruct (positions (fun em => overlaps b (fst em)) store 0) as [|i c] eqn:Hpos.
    + apply positions_nil_iff in Hpos.
      rewrite app_nil_l. unfold bind. rewrite (bullet_visit_none b store w Hpos).
      cbn [fst snd]. apply IH. exact Hr.
    + pose proof (fold_hits_visit (fun em => overlaps b (fst em)) store [] w) as Hv.
      cbn [length] in Hv. rewrite !app_nil_l in Hv. rewrite Hpos in Hv.
      fold (bullet_visit b store) in Hv. rewrite <- surjective_pairing in Hv.
      simpl app. cbn [fold_each]. unfold bind.
      change (fold_each c bullet_hits_enemy (fst (bullet_hits_enemy store i w))
                (snd (bullet_hits_enemy store i w)))
        with (fold_each (i :: c) bullet_hits_enemy store w).
      rewrite Hv. apply IH.
      rewrite bullet_visit_rects. exact Hr.
Qed.

Lemma tally_trans (a b c : World) (ds1 dr1 ds2 dr2 : Z) :
  0 <= dr1 -> 0 <= dr2 ->
  tally a b ds1 dr1 -> tally b c ds2 dr2 -> tally a c (ds1 + ds2) (dr1 + dr2).
Proof.
  intros H1 H2 (As & Ar & Ab & Ap & Aq) (Bs & Br & Bb & Bp & Bq).
  unfold tally. repeat split; try lia; try congruence.
  - intros H0. rewrite Bp by lia. apply Ap. lia.
  - intros Hpos. destruct (Z.eq_dec dr2 0) as [Hz | Hnz].
    + rewrite (Bp Hz). apply Aq. lia.
    + apply Bq. lia.
Qed.

Lemma Player_rescue_outside (w : World) :
  score (exec Player_rescue w) = score w
  /\ bullets (exec Player_rescue w) = bullets w.
Proof.
  unfold Player_rescue. run_method.
  destruct (combined_ships _ <? max_combined_ships); cbn;
    [destruct (_ =? 2); cbn|]; split; reflexivity.
Qed.

(** The world after the lethal branch of the loop body, whatever the first
    step [rescue] is. *)
Lemma after_lethal_hit (rescue : M unit) (e : Enemy) (m : bool) (w : World) :
  exec (rescue ;; play explosion_sound ;;
        modify (fun w => set_score (score w + points e) w) ;; ret (e, m)) w
  = set_score (score (exec rescue w) + points e)
      (set_played (explosion_sound :: played (exec rescue w)) (exec rescue w)).
Proof. reflexivity. Qed.

Lemma hit_object_tally (em : Enemy * bool) (w : World) :
  tally w (exec (hit_object em) w)
    (if lethal_now em then points (fst em) else 0)
    (if lethal_now em && has_captured_player (fst em) then 1 else 0).
Proof.
  unfold hit_object, lethal_now. cbv zeta.
  change (health (set_health (health (fst em) - 1) (fst em)))
    with (health (fst em) - 1).
  change (has_captured_player (set_health (health (fst em) - 1) (fst em)))
    with (has_captured_player (fst em)).
  destruct (health (fst em) - 1 <=? 0).
  - destruct (has_captured_player (fst em)); cbn [andb when].
    + rewrite after_lethal_hit.
      change (points (set_health (health (fst em) - 1) (fst em)))
        with (points (fst em)).
      destruct (Player_rescue_outside w) as [Hs Hb].
      pose proof (Player_rescue_counted w) as Hr.
      assert (Hp : exists v, exec Player_rescue w = exec Player_rescue v)
        by (exists w; reflexivity).
      revert Hs Hb Hr Hp. generalize (exec Player_rescue w). intros w1 Hs Hb Hr Hp.
      unfold tally, rescues in *. cbn [score set_score played set_played bullets
        player filter Sound_eqb length].
      rewrite Hs, Hb. repeat split; try lia.
      intros _. destruct Hp as [v Hv]. exists v. rewrite Hv. reflexivity.
    + change (when false Player_rescue) with skip. rewrite after_lethal_hit.
      unfold tally, rescues. cbn. repeat split; try lia.
  - unfold tally. cbn. repeat split; try lia.
Qed.

Lemma tally_refl (w : World) : tally w w 0 0.
Proof.
  unfold tally. repeat split; try lia.
Qed.

Lemma sumZ_map_add {A} (f g : A -> Z) (l : list A) :
  sumZ (map f l) + sumZ (map g l) = sumZ (map (fun x => f x + g x) l).
Proof. induction l as [|x l IH]; cbn; lia. Qed.

Lemma sumZ_map_ext {A} (f g : A -> Z) (l : list A) :
  (forall x, f x = g x) -> sumZ (map f l) = sumZ (map g l).
Proof. intros H. induction l as [|x l IH]; cbn; [reflexivity | rewrite H, IH; reflexivity]. Qed.

Lemma sumZ_map_nonneg {A} (f : A -> Z) (l : list A) :
  (forall x, 0 <= f x) -> 0 <= sumZ (map f l).
Proof. intros H. induction l as [|x l IH]; cbn; [lia | specialize (H x); lia]. Qed.

(** The points and the rescues of the visit of one bullet. *)
Lemma bullet_visit_tally (b : Rect) (store : list (Enemy * bool)) (w : World) :
  tally w (exec (bullet_visit b store) w)
    (sumZ (map (fun em => if overlaps b (fst em) && lethal_now em
                          then points (fst em) else 0) store))
    (sumZ (map (fun em => if overlaps b (fst em) && lethal_now em
                             && has_captured_player (fst em)
                          then 1 else 0) store)).
Proof.
  unfold bullet_visit. revert w. induction store as [|em store IH]; intros w.
  - apply tally_refl.
  - rewrite exec_map_each_cons. cbn [map sumZ].
    assert (Hrest : 0 <= sumZ (map (fun em => if overlaps b (fst em) && lethal_now em
                                                 && has_captured_player (fst em)
                                              then 1 else 0) store)).
    { apply sumZ_map_nonneg. intros x. destruct (_ && _ && _); lia. }
    destruct (overlaps b (fst em)); cbn [andb].
    + eapply tally_trans; [ | exact Hrest | apply hit_object_tally | apply IH ].
      destruct (_ && _); lia.
    + eapply tally_trans; [ | exact Hrest | apply tally_refl | apply IH ]. lia.
Qed.

Lemma lethal_count_nonneg (bs : list Rect) (em : Enemy * bool) :
  0 <= lethal_count bs em.
Proof.
  revert em. induction bs as [|b bs IH]; intros em; cbn [lethal_count]; [lia|].
  destruct (overlaps b (fst em)); [|apply IH].
  specialize (IH (obj_hit em)). destruct (lethal_now em); lia.
Qed.

(** The visits of all the bullets: every object ends as [after_bullets]
    says, and the lethal hits are paid and counted. *)
Lemma visits_tally (bs : list Rect) :
  forall (store : list (Enemy * bool)) (w : World),
    eval (fold_each bs (fun store b => bullet_visit b store) store) w
    = map (after_bullets bs) store
    /\ tally w (exec (fold_each bs (fun store b => bullet_visit b store) store) w)
         (sumZ (map (fun em => points (fst em) * lethal_count bs em) store))
         (sumZ (map (fun em => if has_captured_player (fst em)
                               then lethal_count bs em else 0) store)).
Proof.
  induction bs as [|b bs IH]; intros store w.
  - cbn [fold_each after_bullets lethal_count]. split.
    + cbn. rewrite map_id. reflexivity.
    + assert (H1 : sumZ (map (fun em : Enemy * bool => points (fst em) * 0) store) = 0).
      { induction store as [|x l IHl]; cbn [map sumZ]; [reflexivity | rewrite IHl; lia]. }
      assert (H2 : sumZ (map (fun em : Enemy * bool =>
                                if has_captured_player (fst em) then 0 else 0) store) = 0).
      { clear H1. induction store as [|x l IHl]; cbn [map sumZ];
          [reflexivity | rewrite IHl; destruct (has_captured_player (fst x)); lia]. }
      rewrite H1, H2. apply tally_refl.
  - rewrite exec_fold_each_cons, eval_fold_each_cons.
    change (eval (bullet_visit b store) w) with (fst (bullet_visit b store w)).
    rewrite bullet_visit_fst.
    set (step := fun em : Enemy * bool =>
                   if overlaps b (fst em) then obj_hit em else em).
    destruct (IH (map step store) (exec (bullet_visit b store) w)) as [Hst Ht].
    split.
    + rewrite Hst, map_map. reflexivity.
    + pose proof (bullet_visit_tally b store w) as Hb.
      rewrite !map_map in Ht.
      assert (Hs : sumZ (map (fun em => points (fst em) * lethal_count (b :: bs) em) store)
                   = sumZ (map (fun em => if overlaps b (fst em) && lethal_now em
                                          then points (fst em) else 0) store)
                     + sumZ (map (fun x => points (fst (step x))
                                           * lethal_count bs (step x)) store)).
      { rewrite sumZ_map_add. apply sumZ_map_ext. intros em.
        unfold step. cbn [lethal_count].
        destruct (overlaps b (fst em)); cbn [andb]; [|lia].
        change (points (fst (obj_hit em))) with (points (fst em)).
        destruct (lethal_now em); lia. }
      assert (Hr : sumZ (map (fun em => if has_captured_player (fst em)
                                        then lethal_count (b :: bs) em else 0) store)
                   = sumZ (map (fun em => if overlaps b (fst em) && lethal_now em
                                             && has_captured_player (fst em)
                                          then 1 else 0) store)
                     + sumZ (map (fun x => if has_captured_player (fst (step x))
                                           then lethal_count bs (step x) else 0) store)).
      { rewrite sumZ_map_add. apply sumZ_map_ext. intros em.
        unfold step. cbn [lethal_count].
        destruct (overlaps b (fst em)); cbn [andb].
        - change (has_captured_player (fst (obj_hit em)))
            with (has_captured_player (fst em)).
          destruct (lethal_now em), (has_captured_player (fst em)); cbn [andb]; lia.
        - destruct (has_captured_player (fst em)); lia. }
      rewrite Hs, Hr. eapply tally_trans; [ | | exact Hb | exact Ht ].
      * apply sumZ_map_nonneg. intros x. destruct (_ && _ && _); lia.
      * apply sumZ_map_nonneg. intros x.
        pose proof (lethal_count_nonneg bs (step x)).
        destruct (has_captured_player _); lia.
Qed.

Lemma hits_on_cons (b : Rect) (bs : list Rect) (e : Enemy) :
  hits_on (b :: bs) e = (if overlaps b e then 1 else 0) + hits_on bs e.
Proof.
  unfold hits_on. cbn [filter]. destruct (overlaps b e); cbn [length]; lia.
Qed.

Lemma hits_on_nonneg (bs : list Rect) (e : Enemy) : 0 <= hits_on bs e.
Proof. unfold hits_on. lia. Qed.

Lemma set_health_same (e : Enemy) : set_health (health e) e = e.
Proof. destruct e. reflexivity. Qed.

(** Case analysis on the comparisons of a boolean goal. *)
Ltac by_cases_on_tests :=
  repeat match goal with
         | |- context [?a <=? ?b] => destruct (Z.leb_spec a b)
         | |- context [?a <? ?b] => destruct (Z.ltb_spec a b)
         end;
  cbn [andb negb orb]; try reflexivity; try lia.

Lemma after_bullets_closed (bs : list Rect) :
  forall (e : Enemy) (m : bool),
    after_bullets bs (e, m)
    = (set_health (health e - hits_on bs e) e, m && negb (destroyed bs e)).
Proof.
  induction bs as [|b bs IH]; intros e m.
  - cbn [after_bullets]. unfold destroyed, hits_on. cbn [filter length Z.of_nat].
    rewrite Z.sub_0_r, set_health_same. cbn. rewrite andb_true_r. reflexivity.
  - cbn [after_bullets fst]. unfold destroyed. rewrite hits_on_cons.
    pose proof (hits_on_nonneg bs e) as Hk.
    destruct (overlaps b e) eqn:Hov.
    + unfold obj_hit. cbn [fst snd]. rewrite IH.
      change (health (set_health (health e - 1) e)) with (health e - 1).
      change (hits_on bs (set_health (health e - 1) e)) with (hits_on bs e).
      change (set_health (health e - 1 - hits_on bs e) (set_health (health e - 1) e))
        with (set_health (health e - 1 - hits_on bs e) e).
      unfold destroyed.
      change (health (set_health (health e - 1) e)) with (health e - 1).
      change (hits_on bs (set_health (health e - 1) e)) with (hits_on bs e).
      f_equal.
      * f_equal. lia.
      * destruct m; by_cases_on_tests.
    + rewrite IH. unfold destroyed. f_equal.
Qed.

Lemma lethal_count_closed (bs : list Rect) :
  forall (e : Enemy) (m : bool),
    lethal_count bs (e, m) = lethal_hits (health e) (hits_on bs e).
Proof.
  induction bs as [|b bs IH]; intros e m.
  - unfold lethal_hits, hits_on. cbn. lia.
  - cbn [lethal_count fst]. rewrite hits_on_cons.
    pose proof (hits_on_nonneg bs e) as Hk.
    destruct (overlaps b e) eqn:Hov.
    + unfold obj_hit, lethal_now. cbn [fst snd]. rewrite IH.
      change (health (set_health (health e - 1) e)) with (health e - 1).
      change (hits_on bs (set_health (health e - 1) e)) with (hits_on bs e).
      unfold lethal_hits. destruct (Z.leb_spec (health e - 1) 0); lia.
    + rewrite IH. reflexivity.
Qed.

Lemma groupcollide_exec (w : World) :
  exec groupcollide_bullets_enemies w
  = set_bullets
      (filter (fun b => match positions (fun e => colliderect b (e_rect e)) (enemies w) 0 with
                        | [] => true
                        | _ => false
                        end) (bullets w)) w.
Proof. reflexivity. Qed.

Lemma groupcollide_eval (w : World) :
  eval groupcollide_bullets_enemies w
  = flat_map (fun b => match positions (fun e => colliderect b (e_rect e)) (enemies w) 0 with
                       | [] => []
                       | c => [(b, c)]
                       end) (bullets w).
Proof. reflexivity. Qed.

(** The pass as the visits of all the bullets. *)
Lemma bullet_enemy_collisions_visits (w : World) :
  exec bullet_enemy_collisions w
  = let wg := exec groupcollide_bullets_enemies w in
    let store0 := map (fun e => (e, true)) (enemies w) in
    let visits := fold_each (bullets w) (fun store b => bullet_visit b store) store0 in
    set_enemies (map fst (filter snd (eval visits wg))) (exec visits wg).
Proof.
  unfold bullet_enemy_collisions. rewrite !exec_bind.
  change (exec (get enemies) w) with w.
  change (eval (get enemies) w) with (enemies w).
  rewrite groupcollide_eval. cbv zeta.
  set (wg := exec groupcollide_bullets_enemies w).
  pose proof (hits_loop_visits (enemies w) (bullets w)
                (map (fun e => (e, true)) (enemies w)) wg) as H.
  rewrite map_map in H. specialize (H eq_refl).
  rewrite exec_modify.
  unfold exec at 1 2. unfold eval at 1 2. rewrite H. reflexivity.
Qed.


Lemma live_after_bullets (bs : list Rect) (es : list Enemy) :
  map fst (filter snd (map (after_bullets bs) (map (fun e => (e, true)) es)))
  = flat_map (fun e => if destroyed bs e then []
                       else [set_health (health e - hits_on bs e) e]) es.
Proof.
  induction es as [|e es IH]; [reflexivity|].
  cbn [map flat_map filter]. rewrite after_bullets_closed. cbn [snd andb].
  destruct (destroyed bs e); cbn [negb map fst app]; rewrite IH; reflexivity.
Qed.


(** The pass on [crossfire_world]: the first bullet overlaps the boss and the
    small enemy, the second bullet the boss again, the third bullet nothing.
    Only the third bullet and the medium enemy are left.  The boss had one
    point of health: both of its hits are lethal, its 400 points are paid
    twice and [rescue()] is called twice. *)
Example crossfire_pass :
  let w' := exec bullet_enemy_collisions crossfire_world in
  bullets w' = [mkRect 500 300 6 12]
  /\ map eid (enemies w') = [6%nat]
  /\ score w' = 900
  /\ rescues w' = 2%nat
  /\ is_captured (player w') = false
  /\ combined_ships (player w') = 2.
Proof. vm_compute. repeat split; reflexivity. Qed.


(** * The rest of the program *)

(** ** Tests on integers *)

Lemma gtb_true (n m : Z) : m < n -> (n >? m) = true.
Proof. intros H. rewrite Z.gtb_ltb. apply Z.ltb_lt. exact H. Qed.

Lemma gtb_false (n m : Z) : n <= m -> (n >? m) = false.
Proof. intros H. rewrite Z.gtb_ltb. apply Z.ltb_ge. exact H. Qed.

(** ** The player: hits, shots, moves *)

(** [hit()] on a single ship, and on a player that it does not touch. *)
Lemma Player_hit_single_ship (w : World) :
  let p := player w in
  let w' := exec Player_hit w in
  (invincible p = true \/ is_captured p = true -> w' = w)
  /\ (invincible p = false -> is_captured p = false -> combined_ships p <= 1 ->
      lives (player w') = lives p - 1
      /\ combined_ships (player w') = combined_ships p
      /\ p_rect (player w') = p_rect p
      /\ played w' = hit_sound :: played w
      /\ invincible (player w') = (1 <? lives p)
      /\ (1 < lives p -> invincible_timer (player w') = clock w 0%nat)).
Proof.
  cbv zeta. split.
  - intros H. unfold Player_hit. run_method.
    destruct H as [H | H]; rewrite H; [|rewrite andb_false_r]; reflexivity.
  - intros Hi Hc Hs. unfold Player_hit. run_method.
    rewrite Hi, Hc. cbn.
    rewrite (gtb_false (combined_ships (player w)) 1) by lia.
    cbn.
    destruct (Z.ltb_spec 1 (lives (player w))) as [Hl | Hl].
    + rewrite (gtb_true (lives (player w) - 1) 0) by lia.
      cbn. repeat split.
    + rewrite (gtb_false (lives (player w) - 1) 0) by lia.
      cbn. repeat split; [exact Hi | intros; lia].
Qed.

(** X1. [hit()] on a free player with a single ship takes exactly one life
    and plays the hit sound; the invincibility period starts only when a life
    is left.  On an invincible or a captured player [hit()] changes nothing
    at all. *)
Theorem hit_single_ship_spec (w : World) :
  let p := player w in
  let w' := exec Player_hit w in
  (invincible p = true \/ is_captured p = true -> w' = w)
  /\ (invincible p = false -> is_captured p = false -> combined_ships p <= 1 ->
      lives (player w') = lives p - 1
      /\ combined_ships (player w') = combined_ships p
      /\ p_rect (player w') = p_rect p
      /\ played w' = hit_sound :: played w
      /\ invincible (player w') = (1 <? lives p)
      /\ (1 < lives p -> invincible_timer (player w') = clock w 0%nat)).
Proof. exact (Player_hit_single_ship w). Qed.

Lemma hit_single_ship_spec_witness :
  lives (player (exec Player_hit (demo_world last_life_player []))) = 0
  /\ invincible (player (exec Player_hit (demo_world last_life_player []))) = false.
Proof.
  destruct (hit_single_ship_spec (demo_world last_life_player [])) as [_ H].
  destruct H as (H1 & _ & _ & _ & H5 & _).
  - reflexivity.
  - reflexivity.
  - cbn. lia.
  - split; [exact H1 | exact H5].
Defined.

(** X2. [shoot()] does nothing for a captured player, and nothing within
    [shoot_delay] (250 ms) of the last shot.  Otherwise it records the time
    of the shot, plays the shoot sound and adds its volley at the end of the
    group [bullets]: 1 bullet, 2 with double fire, 3 with two combined
    ships, each 6 by 12 with its bottom on the top of the ship. *)
Theorem shoot_spec (w : World) :
  let p := player w in
  let w' := exec Player_shoot w in
  (is_captured p = true -> w' = w)
  /\ (is_captured p = false -> clock w 0%nat - p_last_shot p <= p_shoot_delay ->
      bullets w' = bullets w /\ player w' = p /\ played w' = played w)
  /\ (is_captured p = false -> p_shoot_delay < clock w 0%nat - p_last_shot p ->
      bullets w' = bullets w ++ volley p
      /\ player w' = set_p_last_shot (clock w 0%nat) p
      /\ played w' = shoot_sound :: played w
      /\ length (volley p)
         = (if combined_ships p =? 2 then 3%nat
            else if has_double_fire p then 2%nat else 1%nat)
      /\ Forall (fun b => rbottom b = rtop (p_rect p)
                          /\ rwidth b = 6 /\ rheight b = 12) (volley p)).
Proof.
  cbv zeta. split; [|split].
  - intros Hc. unfold Player_shoot. run_method. rewrite Hc. reflexivity.
  - intros Hc Hd. unfold Player_shoot. run_method. rewrite Hc.
    rewrite gtb_false by exact Hd. cbn. repeat split.
  - intros Hc Hd. unfold Player_shoot. run_method. rewrite Hc.
    rewrite gtb_true by exact Hd. unfold volley, add_bullet. run_method.
    destruct (combined_ships (player w) =? 2); cbn;
      [|destruct (has_double_fire (player w)); cbn];
      rewrite <- ?app_assoc; cbn [app];
      (split; [reflexivity|]); (split; [reflexivity|]); (split; [reflexivity|]);
      (split; [reflexivity|]);
      repeat constructor; unfold Bullet, rbottom, rtop; cbn; lia.
Qed.

Lemma shoot_spec_witness :
  length (bullets (exec Player_shoot (demo_world combined_player []))) = 3%nat.
Proof.
  destruct (shoot_spec (demo_world combined_player [])) as (_ & _ & H).
  destruct H as (H1 & _).
  - reflexivity.
  - vm_compute. reflexivity.
  - rewrite H1. reflexivity.
Defined.

(** X3. Of two calls of [shoot()] whose clock readings are at most
    [shoot_delay] apart, at most one fires. *)
Theorem shoot_cooldown (w : World) :
  clock w 1%nat - clock w 0%nat <= p_shoot_delay ->
  let w1 := exec Player_shoot w in
  let w2 := exec Player_shoot w1 in
  bullets w1 = bullets w \/ bullets w2 = bullets w1.
Proof.
  intros Hd. cbv zeta.
  destruct (is_captured (player w)) eqn:Hc.
  - left. unfold Player_shoot. run_method. rewrite Hc. reflexivity.
  - destruct (Z.leb_spec (clock w 0%nat - p_last_shot (player w)) p_shoot_delay)
      as [Hle | Hgt].
    + left. unfold Player_shoot. run_method. rewrite Hc.
      rewrite gtb_false by exact Hle. reflexivity.
    + right.
      assert (H1 : player (exec Player_shoot w)
                   = set_p_last_shot (clock w 0%nat) (player w)
                   /\ clock (exec Player_shoot w) 0%nat = clock w 1%nat).
      { unfold Player_shoot, add_bullet. run_method. rewrite Hc.
        rewrite gtb_true by exact Hgt. cbn.
        destruct (combined_ships (player w) =? 2); cbn;
          [|destruct (has_double_fire (player w)); cbn]; split; reflexivity. }
      destruct H1 as [Hp Hk].
      generalize dependent (exec Player_shoot w). intros w1 Hp Hk.
      unfold Player_shoot. run_method. rewrite Hp. cbn. rewrite Hc. cbn.
      rewrite Hk. rewrite gtb_false by exact Hd. reflexivity.
Qed.

Lemma shoot_cooldown_witness :
  bullets (exec Player_shoot (exec Player_shoot (demo_world demo_player [])))
  = bullets (exec Player_shoot (demo_world demo_player [])).
Proof.
  destruct (shoot_cooldown (demo_world demo_player [])) as [H | H].
  - vm_compute. discriminate.
  - discriminate H.
  - exact H.
Defined.

(** X4. [Player.update] moves the ship by [speed] (8) at most, along the
    horizontal only.  The tests on the edges are made before the move, so the
    ship can leave the window, by less than one step: a ship less than 8
    outside the window stays so, and a ship 5 inside the left edge goes 3
    outside. *)
Theorem update_keeps_player_within_reach (w : World) :
  let p := player w in
  let p' := player (exec Player_update w) in
  (within_reach p -> within_reach p')
  /\ Z.abs (rx (p_rect p') - rx (p_rect p)) <= p_speed
  /\ ry (p_rect p') = ry (p_rect p)
  /\ rwidth (p_rect p') = rwidth (p_rect p)
  /\ rheight (p_rect p') = rheight (p_rect p)
  /\ rleft (p_rect (player (exec Player_update left_edge_world))) = -3.
Proof.
  cbv zeta.
  assert (He : rleft (p_rect (player (exec Player_update left_edge_world))) = -3)
    by (vm_compute; reflexivity).
  rewrite He. clear He.
  unfold within_reach, Player_update, rleft, rright, p_speed, WINDOW_WIDTH.
  run_method. unfold get_pressed. cbn [fst snd].
  destruct (invincible (player w)) eqn:Hi; cbn;
    [destruct (_ >? invincible_duration); cbn|]; rewrite ?Hi; cbn;
    (destruct (is_captured (player w)) eqn:Hc; cbn; rewrite ?Hc; cbn;
     [repeat split; lia|]);
    destruct (pressed w 0%nat) as [l r]; cbn;
    destruct l; cbn;
    try (destruct (Z.gtb_spec (rx (p_rect (player w))) 0); cbn);
    destruct r; cbn;
    repeat match goal with
           | |- context [?a <? 600] => destruct (Z.ltb_spec a 600); cbn
           end;
    repeat split; lia.
Qed.

Lemma update_keeps_player_within_reach_witness :
  within_reach (player (exec Player_update left_edge_world)).
Proof.
  apply (update_keeps_player_within_reach left_edge_world).
  unfold within_reach. cbn. lia.
Defined.

(** [rescue()] on a player with a single ship, written out. *)
Lemma Player_rescue_single (w : World) :
  combined_ships (player w) = 1 ->
  player (exec Player_rescue w)
  = set_flash_counter 0
      (set_invincible_timer (clock w 0%nat)
         (set_invincible true
            (set_has_double_fire true
               (set_p_rect
                  (set_rbottom (WINDOW_HEIGHT - 20)
                     (set_rcenterx (rcenterx (p_rect (player w))) (mkRect 0 0 50 40)))
                  (set_combined_ships 2
                     (set_captured_by None (set_is_captured false (player w))))))))
  /\ played (exec Player_rescue w) = rescue_sound :: played w.
Proof.
  intros Hs. unfold Player_rescue. run_method. cbn. rewrite Hs. cbn. rewrite Hs.
  split; reflexivity.
Qed.

(** X5. A capture followed by a rescue trades a life for a second ship: a
    free player with a single ship that is captured and then rescued has one
    life less, two combined ships, double fire and an invincibility period,
    and its rectangle is 50 wide around the same centre, its bottom 20 above
    the bottom of the window. *)
Theorem capture_then_rescue (w : World) (captor : nat) :
  let p := player w in
  is_captured p = false -> invincible p = false -> combined_ships p = 1 ->
  let w' := exec (Player_get_captured captor ;; Player_rescue) w in
  let p' := player w' in
  is_captured p' = false
  /\ captured_by p' = None
  /\ lives p' = lives p - 1
  /\ combined_ships p' = 2
  /\ has_double_fire p' = true
  /\ invincible p' = true
  /\ rwidth (p_rect p') = 50
  /\ rcenterx (p_rect p') = rcenterx (p_rect p)
  /\ rbottom (p_rect p') = WINDOW_HEIGHT - 20
  /\ played w' = rescue_sound :: capture_sound :: played w.
Proof.
  intros p Hc Hi Hs. subst p. cbv zeta. rewrite exec_bind.
  assert (Hg : exec (Player_get_captured captor) w
               = set_player
                   (set_lives (lives (player w) - 1)
                      (set_captured_by (Some captor) (set_is_captured true (player w))))
                   (set_played (capture_sound :: played w) w)).
  { unfold Player_get_captured. run_method. rewrite Hc, Hi, Hs. reflexivity. }
  rewrite Hg. clear Hg.
  match goal with |- context [exec Player_rescue ?v] => set (w1 := v) end.
  destruct (Player_rescue_single w1 Hs) as [Hp Hq].
  rewrite Hp, Hq. clear Hp Hq.
  unfold rcenterx, rbottom, set_rbottom, set_rcenterx. cbn.
  repeat split; lia.
Qed.

Lemma capture_then_rescue_witness :
  combined_ships
    (player (exec (Player_get_captured 4 ;; Player_rescue) (demo_world demo_player [])))
  = 2
  /\ lives
       (player (exec (Player_get_captured 4 ;; Player_rescue) (demo_world demo_player [])))
     = 2.
Proof.
  destruct (capture_then_rescue (demo_world demo_player []) 4)
    as (_ & _ & H3 & H4 & _); try reflexivity.
  split; [exact H4 | exact H3].
Defined.

(** X6. The rectangle of the ship round a rescue and a hit.  [rescue()] on
    a single ship in its standard 30 by 40 rectangle leaves a rectangle that
    is another one: 50 wide, 10 further to the left, so around the same
    centre, at the same height.  The hit that takes the second ship, once the
    invincibility is over, gives back the rectangle the ship had before the
    rescue; no life is lost. *)
Theorem rescue_then_hit_restores_rect (w v : World) :
  let p := player w in
  combined_ships p = 1 ->
  rwidth (p_rect p) = 30 -> rheight (p_rect p) = 40 ->
  rbottom (p_rect p) = WINDOW_HEIGHT - 20 ->
  player v = set_invincible false (player (exec Player_rescue w)) ->
  let q := player (exec Player_rescue w) in
  let p' := player (exec Player_hit v) in
  (p_rect q = mkRect (rx (p_rect p) - 10) (ry (p_rect p)) 50 40
   /\ p_rect q <> p_rect p
   /\ rcenterx (p_rect q) = rcenterx (p_rect p)
   /\ combined_ships q = 2)
  /\ p_rect p' = p_rect p
  /\ combined_ships p' = 1
  /\ lives p' = lives p
  /\ has_double_fire p' = true.
Proof.
  intros p Hs Hw Hh Hb Hv. subst p. cbv zeta.
  destruct (Player_rescue_single w Hs) as [Hr _].
  rewrite Hr in Hv. split.
  - rewrite Hr. clear Hr Hv.
    destruct (p_rect (player w)) as [x y wd ht].
    unfold rbottom, rcenterx, set_rbottom, set_rcenterx, set_ry, set_rx,
      WINDOW_HEIGHT in *.
    cbn in *. subst wd ht. cbn.
    split; [f_equal; lia|]. split; [intros H; injection H; lia|].
    split; [lia | reflexivity].
  - clear Hr.
    unfold Player_hit. run_method. rewrite Hv. cbn. rewrite ?Hv. cbn.
    repeat split.
    destruct (p_rect (player w)) as [x y wd ht].
    unfold rbottom, rcenterx, set_rbottom, set_rcenterx, set_ry, set_rx,
      WINDOW_HEIGHT in *.
    cbn in *. subst wd ht. cbn. f_equal; lia.
Qed.

Lemma rescue_then_hit_restores_rect_witness :
  p_rect (player (exec Player_rescue (demo_world demo_player [])))
  = mkRect 275 740 50 40
  /\ p_rect
       (player
          (exec Player_hit
             (set_player
                (set_invincible false
                   (player (exec Player_rescue (demo_world demo_player []))))
                (demo_world demo_player []))))
     = mkRect 285 740 30 40.
Proof.
  destruct (rescue_then_hit_restores_rect (demo_world demo_player [])
              (set_player
                 (set_invincible false
                    (player (exec Player_rescue (demo_world demo_player []))))
                 (demo_world demo_player [])))
    as ((H1 & _) & H2 & _); try reflexivity.
  split; [exact H1 | exact H2].
Defined.

(** ** Bullets in flight *)

Lemma Bullet_updates (k : nat) (b : Rect) :
  updates Bullet_update k b
  = if (k =? 0)%nat || (0 <=? rbottom b - 10 * Z.of_nat k)
    then Some (set_ry (ry b - 10 * Z.of_nat k) b) else None.
Proof.
  revert b. induction k as [|k IH]; intros b.
  - cbn. destruct b. unfold set_ry. cbn. do 2 f_equal. lia.
  - cbn [updates Nat.eqb orb]. unfold Bullet_update, bullet_speed. cbv zeta.
    unfold rbottom in *. cbn [ry rheight set_ry].
    destruct (Z.ltb_spec (ry b + -10 + rheight b) 0) as [Hlt | Hge].
    + destruct (Z.leb_spec 0 (ry b + rheight b - 10 * Z.of_nat (S k))); [lia | reflexivity].
    + rewrite IH. cbn [ry rheight set_ry rx rwidth].
      destruct k as [|k].
      * cbn [Nat.eqb orb].
        destruct (Z.leb_spec 0 (ry b + rheight b - 10 * Z.of_nat 1)); [|lia].
        unfold set_ry. cbn. do 2 f_equal. lia.
      * cbn [Nat.eqb orb].
        destruct (Z.leb_spec 0 (ry b + -10 + rheight b - 10 * Z.of_nat (S k)));
          destruct (Z.leb_spec 0 (ry b + rheight b - 10 * Z.of_nat (S (S k))));
          try lia; [|reflexivity].
        unfold set_ry. cbn [rx ry rwidth rheight]. do 2 f_equal. lia.
Qed.

Lemma EnemyBullet_updates (k : nat) (b : Rect) :
  updates EnemyBullet_update k b
  = if (k =? 0)%nat || (rtop b + 7 * Z.of_nat k <=? WINDOW_HEIGHT)
    then Some (set_ry (ry b + 7 * Z.of_nat k) b) else None.
Proof.
  revert b. induction k as [|k IH]; intros b.
  - cbn. destruct b. unfold set_ry. cbn. do 2 f_equal. lia.
  - cbn [updates Nat.eqb orb]. unfold EnemyBullet_update, enemy_bullet_speed.
    cbv zeta. unfold rtop, WINDOW_HEIGHT in *. cbn [ry rheight set_ry].
    destruct (Z.gtb_spec (ry b + 7) 800) as [Hgt | Hle].
    + destruct (Z.leb_spec (ry b + 7 * Z.of_nat (S k)) 800); [lia | reflexivity].
    + rewrite IH. cbn [ry rheight set_ry rx rwidth].
      destruct k as [|k].
      * cbn [Nat.eqb orb].
        destruct (Z.leb_spec (ry b + 7 * Z.of_nat 1) 800); [|lia].
        unfold set_ry. cbn. do 2 f_equal. lia.
      * cbn [Nat.eqb orb].
        destruct (Z.leb_spec (ry b + 7 + 7 * Z.of_nat (S k)) 800);
          destruct (Z.leb_spec (ry b + 7 * Z.of_nat (S (S k))) 800);
          try lia; [|reflexivity].
        unfold set_ry. cbn [rx ry rwidth rheight]. do 2 f_equal. lia.
Qed.

(** X7. A bullet of the player made by [Bullet(x, y)] is 6 by 12, centred on
    [x], and flies straight up, 10 per update; it kills itself at the first
    update that leaves its bottom above the top of the window: after [k >= 1]
    updates it is still there exactly when [10 k <= y].  An enemy bullet made
    by [EnemyBullet(x, y)] flies straight down, 7 per update, and is still
    there after [k >= 1] updates exactly when [y + 7 k <= WINDOW_HEIGHT]. *)
Theorem bullet_flight (x y : Z) (k : nat) :
  updates Bullet_update k (Bullet x y)
  = (if (k =? 0)%nat || (10 * Z.of_nat k <=? y)
     then Some (mkRect (x - 3) (y - 12 - 10 * Z.of_nat k) 6 12) else None)
  /\ updates EnemyBullet_update k (EnemyBullet x y)
     = (if (k =? 0)%nat || (y + 7 * Z.of_nat k <=? WINDOW_HEIGHT)
        then Some (mkRect (x - 3) (y + 7 * Z.of_nat k) 6 12) else None).
Proof.
  split.
  - rewrite Bullet_updates. unfold Bullet, rbottom, set_rbottom, set_rcenterx, set_ry, set_rx.
    cbn [rx ry rwidth rheight].
    replace (0 <=? y - 12 + 12 - 10 * Z.of_nat k) with (10 * Z.of_nat k <=? y).
    + change (Z.quot 6 2) with 3. reflexivity.
    + destruct (Z.leb_spec (10 * Z.of_nat k) y);
        destruct (Z.leb_spec 0 (y - 12 + 12 - 10 * Z.of_nat k)); lia || reflexivity.
  - rewrite EnemyBullet_updates.
    unfold EnemyBullet, rtop, set_rtop, set_rcenterx, set_ry, set_rx.
    cbn [rx ry rwidth rheight]. change (Z.quot 6 2) with 3. reflexivity.
Qed.

(** ** Enemies *)

(** X8. [Enemy(x, y, enemy_type)] makes an enemy at [(x, y)] whose size,
    health and points are those of its kind (20, 1, 100 for small; 30, 2, 200
    for medium; 40, 3, 400 for large), that captures only if it is large, is
    not diving and carries nothing; its wave amplitude is drawn in [20..40],
    its shoot delay in [3000..8000], and its last shot is put at most 2000 ms
    before the time of construction.  The construction takes six draws of the
    random source and two readings of the clock, and touches nothing else. *)
Theorem new_Enemy_spec (x y : Z) (t : EnemyType) (w : World) :
  let e := eval (new_Enemy x y t) w in
  let w' := exec (new_Enemy x y t) w in
  e_rect e = mkRect x y (kind_size t) (kind_size t)
  /\ (enemy_type e, health e, points e)
     = match t with
       | small => (small, 1, 100) | medium => (medium, 2, 200) | large => (large, 3, 400)
       end
  /\ (can_capture e = true <-> t = large)
  /\ 20 <= wave_amplitude e <= 40
  /\ 3000 <= e_shoot_delay e <= 8000
  /\ clock w 1%nat - 2000 <= e_last_shot e <= clock w 1%nat
  /\ last_move_down e = clock w 0%nat
  /\ is_diving e = false /\ has_captured_player e = false /\ dive_path e = []
  /\ original_pos e = (x, y)
  /\ eid e = next_eid w
  /\ w' = set_clock (fun n => clock w (S (S n)))
            (set_rng (fun n => rng w (6 + n)%nat)
               (set_next_eid (S (next_eid w)) w)).
Proof.
  cbv zeta.
  assert (Ha : wave_amplitude (eval (new_Enemy x y t) w)
               = 20 + rng w 0%nat mod (40 - 20 + 1)) by reflexivity.
  assert (Hs : e_shoot_delay (eval (new_Enemy x y t) w)
               = 3000 + rng w 4%nat mod (8000 - 3000 + 1)) by reflexivity.
  assert (Hl : e_last_shot (eval (new_Enemy x y t) w)
               = clock w 1%nat - (0 + rng w 5%nat mod (2000 - 0 + 1))) by reflexivity.
  rewrite Ha, Hs, Hl.
  pose proof (Z.mod_pos_bound (rng w 0%nat) (40 - 20 + 1) ltac:(lia)).
  pose proof (Z.mod_pos_bound (rng w 4%nat) (8000 - 3000 + 1) ltac:(lia)).
  pose proof (Z.mod_pos_bound (rng w 5%nat) (2000 - 0 + 1) ltac:(lia)).
  split; [reflexivity|].
  split; [destruct t; reflexivity|].
  split.
  { change (can_capture (eval (new_Enemy x y t) w)) with (kind_can_capture t).
    destruct t; cbn; split; congruence. }
  split; [lia|]. split; [lia|]. split; [lia|].
  repeat split; reflexivity.
Qed.

(** What [Enemy.update] answers: the enemy after its move, the shooting
    step before it having changed the shooting attributes only. *)
Lemma Enemy_update_eval (math_sin : float -> float) (self : Enemy) (w : World) :
  exists l d w1,
    let self1 :=
      set_e_shoot_delay d
        (set_e_last_shot l (set_anim_counter (anim_counter self + 1) self)) in
    eval (Enemy_update math_sin self) w
    = eval (if is_diving self then Enemy_dive_move self1
            else Enemy_formation_move math_sin self1) w1.
Proof.
  unfold Enemy_update, eval, bind, get_ticks. cbn [can_shoot fst snd].
  destruct (_ >? e_shoot_delay _).
  - eexists _, _, _. cbv zeta. reflexivity.
  - exists (e_last_shot self), (e_shoot_delay self).
    eexists. cbv zeta. destruct self. reflexivity.
Qed.

(** One update of a diving enemy that cannot capture, before the end of its
    path: it moves to the next point of the path. *)
Lemma Enemy_update_dive_step (math_sin : float -> float) (self : Enemy) (w : World) :
  is_diving self = true -> can_capture self = false ->
  (dive_index self < length (dive_path self))%nat ->
  let e := eval (Enemy_update math_sin self) w in
  is_diving e = true /\ can_capture e = false
  /\ dive_path e = dive_path self
  /\ dive_index e = S (dive_index self)
  /\ (rx (e_rect e), ry (e_rect e)) = nth (dive_index self) (dive_path self) (0, 0)
  /\ rwidth (e_rect e) = rwidth (e_rect self)
  /\ rheight (e_rect e) = rheight (e_rect self)
  /\ has_captured_player e = has_captured_player self.
Proof.
  intros Hd Hc Hi. cbv zeta.
  apply Nat.ltb_lt in Hi.
  destruct (Enemy_update_eval math_sin self w) as (l & d & w1 & He).
  cbv zeta in He. rewrite He, Hd. clear He.
  unfold Enemy_dive_move, eval.
  cbn [dive_index dive_path can_capture set_e_shoot_delay set_e_last_shot set_anim_counter].
  rewrite Hi.
  destruct (nth (dive_index self) (dive_path self) (0, 0)) as [px py].
  cbn [can_capture set_dive_index set_e_rect set_e_shoot_delay set_e_last_shot
       set_anim_counter].
  rewrite Hc.
  cbn. repeat split; assumption.
Qed.

(** The update that follows the last point of the path ends the dive; an
    enemy that is then below the window goes back to the top row. *)
Lemma Enemy_update_dive_end (math_sin : float -> float) (self : Enemy) (w : World) :
  is_diving self = true ->
  dive_index self = length (dive_path self) ->
  let e := eval (Enemy_update math_sin self) w in
  is_diving e = false
  /\ (WINDOW_HEIGHT < ry (e_rect self) ->
      ry (e_rect e) = 50 /\ 50 <= rx (e_rect e) <= WINDOW_WIDTH - 50
      /\ base_x e = float_of_int (rx (e_rect e)))
  /\ (ry (e_rect self) <= WINDOW_HEIGHT -> e_rect e = e_rect self).
Proof.
  intros Hd Hi. cbv zeta.
  assert (Hlt : (dive_index self <? length (dive_path self))%nat = false)
    by (apply Nat.ltb_ge; lia).
  destruct (Enemy_update_eval math_sin self w) as (l & d & w1 & He).
  cbv zeta in He. rewrite He, Hd. clear He.
  unfold Enemy_dive_move, eval.
  cbn [dive_index dive_path set_e_shoot_delay set_e_last_shot set_anim_counter
       e_rect set_is_diving].
  rewrite Hlt.
  destruct (Z.gtb_spec (ry (e_rect self)) WINDOW_HEIGHT) as [Hgt | Hle].
  - unfold relocate_top, randint, draw, bind, ret.
    change (WINDOW_WIDTH - 50 - 50 + 1) with 501.
    cbn -[Z.add Z.modulo].
    pose proof (Z.mod_pos_bound (rng w1 0%nat) 501 ltac:(lia)).
    unfold WINDOW_HEIGHT, WINDOW_WIDTH in *.
    repeat split; lia.
  - cbn. unfold WINDOW_HEIGHT in *. repeat split; lia.
Qed.

Lemma last_nth_pred {A} (l : list A) (d : A) : last l d = nth (length l - 1) l d.
Proof.
  induction l as [|x l IH]; [reflexivity|].
  destruct l as [|y l]; [reflexivity|].
  change (last (x :: y :: l) d) with (last (y :: l) d). rewrite IH.
  cbn [length]. rewrite !Nat.sub_1_r. reflexivity.
Qed.

Lemma Enemy_updates_dive (math_sin : float -> float) (k : nat) :
  forall (self : Enemy) (w : World),
  is_diving self = true -> can_capture self = false ->
  (dive_index self + k <= length (dive_path self))%nat ->
  let e := eval (Enemy_updates math_sin k self) w in
  is_diving e = true /\ can_capture e = false
  /\ dive_path e = dive_path self
  /\ dive_index e = (dive_index self + k)%nat
  /\ (forall j, k = S j ->
        (rx (e_rect e), ry (e_rect e)) = nth (dive_index self + j) (dive_path self) (0, 0)).
Proof.
  induction k as [|k IH]; intros self w Hd Hc Hi; cbv zeta.
  - cbn. repeat split; auto. discriminate.
  - cbn [Enemy_updates]. unfold eval, bind. cbn [fst snd].
    destruct (Enemy_update_dive_step math_sin self w Hd Hc ltac:(lia))
      as (Hd1 & Hc1 & Hp1 & Hi1 & Hxy & _).
    unfold eval in *.
    set (e1 := fst (Enemy_update math_sin self w)) in *.
    set (w1 := snd (Enemy_update math_sin self w)).
    destruct (IH e1 w1 Hd1 Hc1 ltac:(rewrite Hp1, Hi1; lia)) as (Hd2 & Hc2 & Hp2 & Hi2 & Hxy2).
    unfold eval in *.
    repeat split; try assumption.
    + rewrite Hp2. exact Hp1.
    + rewrite Hi2, Hi1. lia.
    + intros j Hj. injection Hj as <-.
      destruct k as [|k'].
      * cbn. replace (dive_index self + 0)%nat with (dive_index self) by lia. exact Hxy.
      * rewrite (Hxy2 k' eq_refl). rewrite Hp1, Hi1. f_equal. lia.
Qed.

(** X9. A dive of an enemy that cannot capture (small or medium) takes one
    update more than its path has points: the enemy stands on the [k]-th
    point of the path after [k] updates, still diving; the update after the
    last point ends the dive, and an enemy that is then below the window is
    put back on the row [y = 50] at a column drawn in [50 .. WINDOW_WIDTH -
    50], which becomes the centre of its sway. *)
Theorem dive_follows_path (math_sin : float -> float) (self : Enemy) (w : World) (k : nat) :
  is_diving self = true -> can_capture self = false -> dive_index self = 0%nat ->
  (1 <= k <= length (dive_path self))%nat ->
  let n := length (dive_path self) in
  let e := eval (Enemy_updates math_sin k self) w in
  let e' := eval (Enemy_updates math_sin (S n) self) w in
  is_diving e = true
  /\ nth_error (dive_path self) (k - 1) = Some (rx (e_rect e), ry (e_rect e))
  /\ is_diving e' = false
  /\ (WINDOW_HEIGHT < snd (last (dive_path self) (0, 0)) ->
      ry (e_rect e') = 50 /\ 50 <= rx (e_rect e') <= WINDOW_WIDTH - 50
      /\ base_x e' = float_of_int (rx (e_rect e'))).
Proof.
  intros Hd Hc Hi Hk. cbv zeta.
  destruct (Enemy_updates_dive math_sin k self w Hd Hc ltac:(lia))
    as (Hd1 & _ & _ & _ & Hxy).
  split; [exact Hd1|]. split.
  { destruct k as [|j]; [lia|]. rewrite (Hxy j eq_refl). rewrite Hi. cbn [Nat.add].
    replace (S j - 1)%nat with j by lia.
    apply nth_error_nth'. lia. }
  clear Hd1 Hxy.
  set (n := length (dive_path self)).
  assert (Hsplit : forall a b e0 v,
             eval (Enemy_updates math_sin (a + b) e0) v
             = eval (Enemy_updates math_sin b (eval (Enemy_updates math_sin a e0) v))
                 (exec (Enemy_updates math_sin a e0) v)).
  { induction a as [|a IHa]; intros b e0 v; [reflexivity|].
    cbn [Nat.add Enemy_updates]. unfold eval, exec, bind in *. cbn [fst snd].
    apply IHa. }
  replace (S n) with (n + 1)%nat by lia. rewrite Hsplit.
  destruct (Enemy_updates_dive math_sin n self w Hd Hc ltac:(lia))
    as (Hd2 & _ & Hp2 & Hi2 & Hxy2).
  set (en := eval (Enemy_updates math_sin n self) w) in *.
  set (wn := exec (Enemy_updates math_sin n self) w).
  assert (Hstep : eval (Enemy_updates math_sin 1 en) wn = eval (Enemy_update math_sin en) wn).
  { cbn [Enemy_updates]. unfold eval, bind, ret. reflexivity. }
  rewrite Hstep.
  destruct (Enemy_update_dive_end math_sin en wn Hd2 ltac:(rewrite Hi2, Hp2; lia))
    as (He1 & He2 & _).
  split; [exact He1|].
  intros Hlast. apply He2.
  destruct n as [|j] eqn:Hn; [lia|].
  pose proof (Hxy2 j eq_refl) as Hq. rewrite Hi in Hq. cbn [Nat.add] in Hq.
  assert (Hl : last (dive_path self) (0, 0) = nth j (dive_path self) (0, 0)).
  { rewrite last_nth_pred. fold n. rewrite Hn. f_equal. lia. }
  rewrite Hl, <- Hq in Hlast. exact Hlast.
Qed.

Lemma dive_follows_path_witness :
  is_diving
    (eval (Enemy_updates (fun x => x) 31
             (diver (bezier_path 100 50 130 350 120 850)))
          (demo_world demo_player [])) = true.
Proof.
  apply (dive_follows_path (fun x => x)
           (diver (bezier_path 100 50 130 350 120 850))
           (demo_world demo_player []) 31); try reflexivity.
  change (1 <= 31 <= 31)%nat. lia.
Defined.

(** ** Formations *)

Lemma kind_size_bounds (t : EnemyType) : 20 <= kind_size t <= 40.
Proof. destruct t; cbn; lia. Qed.

Lemma nth_error_Some_bound {A} (l : list A) (i : nat) (x : A) :
  nth_error l i = Some x -> (i < length l)%nat.
Proof. intros H. apply nth_error_Some. congruence. Qed.

(** What every formation leaves in the group. *)
Lemma formation_summary
    (math_sin math_cos : float -> float) (f : Formation) (w : World) :
  let w' := exec (create_enemies_formation math_sin math_cos f) w in
  length (enemies w') = 10%nat
  /\ map eid (enemies w') = seq (next_eid w) 10
  /\ next_eid w' = (next_eid w + 10)%nat
  /\ Forall newly_made (enemies w')
  /\ player w' = player w /\ bullets w' = bullets w
  /\ enemy_bullets w' = enemy_bullets w /\ score w' = score w
  /\ played w' = played w.
Proof.
  cbv zeta.
  assert (Hn : next_eid (exec (create_enemies_formation math_sin math_cos f) w)
               = (next_eid w + 10)%nat).
  { replace (next_eid w + 10)%nat with (10 + next_eid w)%nat by lia.
    destruct f; reflexivity. }
  split; [destruct f; reflexivity|].
  split; [destruct f; reflexivity|].
  split; [exact Hn|].
  split.
  { assert (Hk : map (fun e => (points e, can_capture e, rwidth (e_rect e),
                                rheight (e_rect e), health e, is_diving e,
                                has_captured_player e, dive_path e))
                     (enemies (exec (create_enemies_formation math_sin math_cos f) w))
                 = map (fun e => (kind_points (enemy_type e),
                                  kind_can_capture (enemy_type e),
                                  kind_size (enemy_type e), kind_size (enemy_type e),
                                  kind_health (enemy_type e), false, false, []))
                     (enemies (exec (create_enemies_formation math_sin math_cos f) w)))
      by (destruct f; reflexivity).
    revert Hk.
    generalize (enemies (exec (create_enemies_formation math_sin math_cos f) w)).
    intros l Hk. induction l as [|e l IH]; constructor.
    - injection Hk as H1 H2 H3 H4 H5 H6 H7 H8 _.
      unfold newly_made, of_its_kind. repeat split; assumption.
    - apply IH. injection Hk as _ _ _ _ _ _ _ _ Hk. exact Hk. }
  destruct f; repeat split; reflexivity.
Qed.

(** X10. Whatever the formation, the random source and the sine and cosine,
    [create_enemies_formation] empties the group and fills it with exactly
    10 new enemies, with fresh identities, each as its constructor leaves it
    (the points, size and health of its kind, in formation, carrying
    nothing); it touches neither the player nor the bullets nor the score. *)
Theorem every_formation_has_ten
    (math_sin math_cos : float -> float) (f : Formation) (w : World) :
  let w' := exec (create_enemies_formation math_sin math_cos f) w in
  length (enemies w') = 10%nat
  /\ map eid (enemies w') = seq (next_eid w) 10
  /\ next_eid w' = (next_eid w + 10)%nat
  /\ Forall newly_made (enemies w')
  /\ player w' = player w /\ bullets w' = bullets w
  /\ enemy_bullets w' = enemy_bullets w /\ score w' = score w
  /\ played w' = played w.
Proof. exact (formation_summary math_sin math_cos f w). Qed.

(** X11. The diamond and the V formations do not depend on the random
    source: the diamond puts its 10 enemies on the 10 positions of its table,
    the V puts them in 5 rows that go down by 30, the two enemies of row [i]
    at [40 (i + 1)] left and right of the middle of the window; the kinds go
    round small, medium, large along the diamond's table and, in the V, along
    the left arm, the right arm being one kind ahead.  All of them lie inside
    the window. *)
Theorem diamond_and_v_formations (math_sin math_cos : float -> float) (w : World) :
  let d := enemies (exec (create_enemies_formation math_sin math_cos diamond) w) in
  let v := enemies (exec (create_enemies_formation math_sin math_cos v_shape) w) in
  map position d = diamond_positions
  /\ map enemy_type d
     = [small; medium; large; small; medium; large; small; medium; large; small]
  /\ map position v = v_coordinates
  /\ map enemy_type v
     = [small; medium; medium; large; large; small; small; medium; medium; large]
  /\ Forall (fun e => 0 <= rleft (e_rect e) /\ rright (e_rect e) <= WINDOW_WIDTH
                      /\ 0 <= rtop (e_rect e) /\ rbottom (e_rect e) <= WINDOW_HEIGHT)
       (d ++ v).
Proof.
  cbv zeta. repeat split; try reflexivity.
  set (inside := fun e => (0 <=? rleft (e_rect e)) && (rright (e_rect e) <=? WINDOW_WIDTH)
                          && (0 <=? rtop (e_rect e))
                          && (rbottom (e_rect e) <=? WINDOW_HEIGHT)).
  assert (Hin : forallb inside
                  (enemies (exec (create_enemies_formation math_sin math_cos diamond) w)
                   ++ enemies (exec (create_enemies_formation math_sin math_cos v_shape) w))
                = true) by reflexivity.
  rewrite forallb_forall in Hin. apply Forall_forall. intros e He.
  specialize (Hin e He). unfold inside in Hin.
  rewrite !andb_true_iff, !Z.leb_le in Hin. tauto.
Qed.

(** ** The group of the enemies through a turn of the loop *)

Lemma kept_refl (e : Enemy) : kept e e.
Proof. unfold kept. repeat split; auto; lia. Qed.

Lemma kept_trans (a b c : Enemy) : kept a b -> kept b c -> kept a c.
Proof.
  unfold kept.
  intros (A1 & A2 & A3 & A4 & A5 & A6 & A7 & A8) (B1 & B2 & B3 & B4 & B5 & B6 & B7 & B8).
  repeat split; try congruence; lia.
Qed.

Lemma thinned_refl (l : list Enemy) : thinned l l.
Proof. induction l; constructor; [apply kept_refl | assumption]. Qed.

Lemma thinned_trans (a b c : list Enemy) : thinned a b -> thinned b c -> thinned a c.
Proof.
  intros H. revert c. induction H as [|e e' l l' Hk H IH|e l l' H IH]; intros c Hc.
  - exact Hc.
  - inversion Hc as [|e1 e2 l1 l2 Hk2 H2|e1 l1 l2 H2]; subst.
    + apply thinned_keep; [exact (kept_trans _ _ _ Hk Hk2) | apply IH; exact H2].
    + apply thinned_drop. apply IH. exact H2.
  - apply thinned_drop. apply IH. exact Hc.
Qed.

Lemma Forall2_kept_thinned (l l' : list Enemy) : Forall2 kept l l' -> thinned l l'.
Proof. induction 1; constructor; assumption. Qed.

Lemma Forall2_kept_refl (l : list Enemy) : Forall2 kept l l.
Proof. induction l; constructor; [apply kept_refl | assumption]. Qed.

Lemma Forall2_kept_trans (a b c : list Enemy) :
  Forall2 kept a b -> Forall2 kept b c -> Forall2 kept a c.
Proof.
  intros H. revert c. induction H as [|x y l l' Hk H IH]; intros c Hc.
  - exact Hc.
  - inversion Hc; subst. constructor; [eapply kept_trans; eassumption | apply IH; assumption].
Qed.

Lemma thinned_length (l l' : list Enemy) : thinned l l' -> (length l' <= length l)%nat.
Proof. induction 1; cbn; lia. Qed.

Lemma thinned_eid_in (l l' : list Enemy) :
  thinned l l' -> forall i, In i (map eid l') -> In i (map eid l).
Proof.
  induction 1 as [|e e' l l' Hk H IH|e l l' H IH]; intros i Hi; cbn in *.
  - exact Hi.
  - destruct Hk as (Hid & _). destruct Hi as [Hi | Hi]; [left; congruence | right; auto].
  - right. auto.
Qed.

Lemma thinned_NoDup (l l' : list Enemy) :
  thinned l l' -> NoDup (map eid l) -> NoDup (map eid l').
Proof.
  induction 1 as [|e e' l l' Hk H IH|e l l' H IH]; intros Hnd; cbn in *.
  - exact Hnd.
  - inversion Hnd as [|x xs Hnin Hnd']; subst. constructor.
    + intros Hin. apply Hnin. destruct Hk as (Hid & _). rewrite <- Hid.
      apply (thinned_eid_in _ _ H). exact Hin.
    + apply IH. exact Hnd'.
  - inversion Hnd; subst. apply IH. assumption.
Qed.

Lemma kept_enemy_ok (e e' : Enemy) : kept e e' -> enemy_ok e -> enemy_ok e'.
Proof.
  unfold kept, enemy_ok, of_its_kind.
  intros (H1 & H2 & H3 & H4 & H5 & H6 & H7 & H8) ((K1 & K2 & K3 & K4) & K5).
  rewrite H2, H3, H4, H5, H6. repeat split; try assumption; lia.
Qed.

Lemma thinned_Forall_ok (l l' : list Enemy) :
  thinned l l' -> Forall enemy_ok l -> Forall enemy_ok l'.
Proof.
  induction 1 as [|e e' l l' Hk H IH|e l l' H IH]; intros Hf.
  - constructor.
  - inversion Hf; subst. constructor; [eapply kept_enemy_ok; eassumption | auto].
  - inversion Hf; subst. auto.
Qed.

Lemma thinned_Forall_eid (l l' : list Enemy) (n : nat) :
  thinned l l' -> Forall (fun e => (eid e < n)%nat) l -> Forall (fun e => (eid e < n)%nat) l'.
Proof.
  induction 1 as [|e e' l l' Hk H IH|e l l' H IH]; intros Hf.
  - constructor.
  - inversion Hf; subst. destruct Hk as (Hid & _). constructor; [lia | auto].
  - inversion Hf; subst. auto.
Qed.

#[local] Instance enemies_thinned_pre : PreOrder enemies_thinned.
Proof.
  split.
  - intros w. split; [apply thinned_refl | reflexivity].
  - intros a b c [H1 H2] [H3 H4]. split; [eapply thinned_trans; eassumption | congruence].
Qed.

#[local] Instance enemies_kept_pre : PreOrder enemies_kept.
Proof.
  split.
  - intros w. split; [apply Forall2_kept_refl | reflexivity].
  - intros a b c [H1 H2] [H3 H4]. split; [eapply Forall2_kept_trans; eassumption | congruence].
Qed.

#[local] Instance enemies_untouched_pre : PreOrder enemies_untouched.
Proof.
  split.
  - intros w. split; reflexivity.
  - intros a b c [H1 H2] [H3 H4]. split; congruence.
Qed.

Lemma untouched_kept (w w' : World) : enemies_untouched w w' -> enemies_kept w w'.
Proof. intros [H1 H2]. split; [rewrite H1; apply Forall2_kept_refl | exact H2]. Qed.

Lemma kept_thinned (w w' : World) : enemies_kept w w' -> enemies_thinned w w'.
Proof. intros [H1 H2]. split; [apply Forall2_kept_thinned; exact H1 | exact H2]. Qed.

Ltac untouched_leaf := unfold enemies_untouched; cbn; split; reflexivity.

Lemma process_events_untouched (events : list Event) :
  steps enemies_untouched (process_events events).
Proof.
  induction events as [|e events IH]; cbn [process_events].
  - steps_walk enemies_untouched_pre untouched_leaf.
  - destruct e as [|k|]; [|destruct k|];
      steps_walk enemies_untouched_pre untouched_leaf.
Qed.

Lemma Player_update_untouched : steps enemies_untouched Player_update.
Proof. steps_walk enemies_untouched_pre untouched_leaf. Qed.

Lemma Enemy_update_untouched (math_sin : float -> float) (e : Enemy) :
  steps enemies_untouched (Enemy_update math_sin e).
Proof. steps_walk enemies_untouched_pre untouched_leaf. Qed.

Lemma respawn_step_untouched : steps enemies_untouched respawn_step.
Proof. steps_walk enemies_untouched_pre untouched_leaf. Qed.

Lemma enemy_bullet_pass_untouched : steps enemies_untouched enemy_bullet_player_collisions.
Proof. steps_walk enemies_untouched_pre untouched_leaf. Qed.

Lemma game_over_check_untouched : steps enemies_untouched game_over_check.
Proof. steps_walk enemies_untouched_pre untouched_leaf. Qed.

#[local] Hint Resolve process_events_untouched Player_update_untouched
  Enemy_update_untouched respawn_step_untouched enemy_bullet_pass_untouched
  game_over_check_untouched : steps.

(** Proves [kept e e'] when [e'] is [e] under setters that leave the kept
    attributes alone. *)
Ltac kept_by_setters := unfold kept; cbn; repeat split; try reflexivity; lia.

Lemma relocate_top_kept (self : Enemy) (w : World) : kept self (eval (relocate_top self) w).
Proof. unfold relocate_top, eval, bind, ret. kept_by_setters. Qed.

Lemma Enemy_dive_move_kept (self : Enemy) (w : World) :
  kept self (eval (Enemy_dive_move self) w).
Proof.
  unfold Enemy_dive_move.
  destruct (dive_index self <? length (dive_path self))%nat.
  - destruct (nth (dive_index self) (dive_path self) (0, 0)) as [x y].
    cbv zeta.
    match goal with |- context [if ?b then _ else _] => destruct b end;
      [|unfold eval, ret; kept_by_setters].
    unfold eval, bind, get. cbn [fst snd].
    match goal with |- context [if ?b then _ else _] => destruct b end;
      [|unfold ret; kept_by_setters].
    cbn [fst snd].
    eapply kept_trans; [|apply relocate_top_kept]. kept_by_setters.
  - cbv zeta.
    match goal with |- context [if ?b then _ else _] => destruct b end.
    + eapply kept_trans; [|apply relocate_top_kept]. kept_by_setters.
    + unfold eval, ret. kept_by_setters.
Qed.

Lemma Enemy_formation_move_kept (math_sin : float -> float) (self : Enemy) (w : World) :
  kept self (eval (Enemy_formation_move math_sin self) w).
Proof.
  unfold Enemy_formation_move, eval, bind, get_ticks, ret. cbv zeta. cbn [fst snd].
  repeat match goal with |- context [if ?b then _ else _] => destruct b end;
    kept_by_setters.
Qed.

(** [Enemy.update] never changes the identity, the kind, the points, the
    capture ability, the size or the health of the enemy. *)
Lemma Enemy_update_kept (math_sin : float -> float) (self : Enemy) (w : World) :
  kept self (eval (Enemy_update math_sin self) w).
Proof.
  destruct (Enemy_update_eval math_sin self w) as (l & d & w1 & He).
  cbv zeta in He. rewrite He.
  eapply kept_trans;
    [|destruct (is_diving self);
      [apply Enemy_dive_move_kept | apply Enemy_formation_move_kept]].
  kept_by_setters.
Qed.

Lemma map_each_Forall2 {A B} (R : A -> B -> Prop) (body : A -> M B) (l : list A) :
  (forall x v, R x (eval (body x) v)) ->
  forall w, Forall2 R l (eval (map_each l body) w).
Proof.
  intros H. induction l as [|x l IH]; intros w.
  - constructor.
  - cbn [map_each]. unfold eval, bind, ret. cbn [fst snd]. constructor.
    + apply H.
    + apply IH.
Qed.

Lemma update_all_kept (math_sin : float -> float) : steps enemies_kept (update_all math_sin).
Proof.
  intros w. fold (exec (update_all math_sin) w).
  destruct (Player_update_untouched w) as [H1 H2]. fold (exec Player_update w) in H1, H2.
  set (w1 := exec Player_update w) in *.
  assert (He : enemies (exec (update_all math_sin) w)
               = eval (map_each (enemies w1) (Enemy_update math_sin)) w1) by reflexivity.
  assert (Hn : next_eid (exec (update_all math_sin) w)
               = next_eid (exec (map_each (enemies w1) (Enemy_update math_sin)) w1))
    by reflexivity.
  split.
  - rewrite He, <- H1. apply map_each_Forall2. intros x v. apply Enemy_update_kept.
  - rewrite Hn, <- H2.
    assert (Hs : steps enemies_untouched (map_each (enemies w1) (Enemy_update math_sin)))
      by (apply steps_map_each; [exact enemies_untouched_pre | intros x; apply Enemy_update_untouched]).
    apply (Hs w1).
Qed.

(** The enemies after the bullet-enemy pass. *)
Lemma bullet_pass_enemies (w : World) :
  enemies (exec bullet_enemy_collisions w)
  = flat_map (fun e => if destroyed (bullets w) e then []
                       else [set_health (health e - hits_on (bullets w) e) e])
      (enemies w).
Proof.
  rewrite bullet_enemy_collisions_visits. cbv zeta.
  destruct (visits_tally (bullets w) (map (fun e => (e, true)) (enemies w))
              (exec groupcollide_bullets_enemies w)) as [Hstore _].
  cbn [enemies set_enemies]. rewrite Hstore. apply live_after_bullets.
Qed.

Lemma bullet_pass_next_eid (w : World) :
  next_eid (exec bullet_enemy_collisions w) = next_eid w.
Proof.
  assert (Hs : steps (fun a b => next_eid b = next_eid a) bullet_enemy_collisions).
  { assert (Hpre : PreOrder (fun a b : World => next_eid b = next_eid a)).
    { split; [intros a; reflexivity | intros a b c H1 H2; congruence]. }
    steps_walk Hpre ltac:(cbn; reflexivity). }
  apply (Hs w).
Qed.

Lemma bullet_pass_thinned : steps enemies_thinned bullet_enemy_collisions.
Proof.
  intros w. fold (exec bullet_enemy_collisions w). split.
  - rewrite bullet_pass_enemies. generalize (bullets w). intros bs.
    induction (enemies w) as [|e l IH]; cbn [flat_map]; [constructor|].
    destruct (destroyed bs e) eqn:Hd; cbn [app].
    + apply thinned_drop. exact IH.
    + apply thinned_keep; [|exact IH].
      pose proof (hits_on_nonneg bs e) as Hh.
      unfold destroyed in Hd. unfold kept. cbn.
      repeat split; lia.
  - apply bullet_pass_next_eid.
Qed.

Lemma keep_some_thinned (l : list Enemy) (l' : list (option Enemy)) :
  Forall2 (fun e o => match o with Some e' => kept e e' | None => True end) l l' ->
  thinned l (keep_some l').
Proof.
  induction 1 as [|e o l l' Ho H IH]; cbn; [constructor|].
  destruct o as [e'|]; cbn [app].
  - apply thinned_keep; assumption.
  - apply thinned_drop. exact IH.
Qed.

Lemma enemy_meets_player_kept (e : Enemy) (w : World) :
  match eval (enemy_meets_player e) w with Some e' => kept e e' | None => True end.
Proof.
  unfold enemy_meets_player, eval, bind, get. cbn [fst snd].
  match goal with |- context [if ?b then _ else _] => destruct b end.
  - cbn [fst snd ret]. kept_by_setters.
  - cbn [ret fst snd]. exact I.
Qed.

Lemma enemy_meets_player_untouched (e : Enemy) :
  steps enemies_untouched (enemy_meets_player e).
Proof. steps_walk enemies_untouched_pre untouched_leaf. Qed.

Lemma enemy_player_pass_thinned : steps enemies_thinned enemy_player_collisions.
Proof.
  intros w. fold (exec enemy_player_collisions w).
  unfold enemy_player_collisions. rewrite exec_bind.
  change (exec (get player) w) with w. change (eval (get player) w) with (player w).
  destruct (negb (is_captured (player w)) && negb (invincible (player w)));
    [|reflexivity].
  cbn [when]. rewrite exec_bind.
  change (exec (get enemies) w) with w. change (eval (get enemies) w) with (enemies w).
  rewrite exec_bind, exec_modify.
  set (body := fun enemy : Enemy =>
                 if colliderect (p_rect (player w)) (e_rect enemy)
                 then enemy_meets_player enemy else ret (Some enemy)).
  split.
  - cbn [enemies set_enemies]. apply keep_some_thinned.
    apply map_each_Forall2. intros x v. unfold body.
    destruct (colliderect (p_rect (player w)) (e_rect x)).
    + apply enemy_meets_player_kept.
    + apply kept_refl.
  - cbn [next_eid set_enemies].
    assert (Hs : steps enemies_untouched (map_each (enemies w) body)).
    { apply steps_map_each; [exact enemies_untouched_pre|]. intros x. unfold body.
      destruct (colliderect (p_rect (player w)) (e_rect x)).
      - apply enemy_meets_player_untouched.
      - apply steps_ret. exact enemies_untouched_pre. }
    apply (Hs w).
Qed.

Lemma replace_nth_kept (l : list Enemy) (i : nat) (e e' : Enemy) :
  nth_error l i = Some e -> kept e e' -> Forall2 kept l (replace_nth i e' l).
Proof.
  revert i. induction l as [|x l IH]; intros [|i] H Hk; cbn in *; try discriminate.
  - injection H as ->. constructor; [exact Hk | apply Forall2_kept_refl].
  - constructor; [apply kept_refl | apply IH; assumption].
Qed.

Ltac kept_leaf :=
  unfold enemies_kept; cbn; split; [apply Forall2_kept_refl | reflexivity].

Lemma send_diving_kept (i : nat) : steps enemies_kept (send_diving i).
Proof.
  intros w. fold (exec (send_diving i) w).
  unfold send_diving. rewrite exec_bind.
  change (exec (get enemies) w) with w. change (eval (get enemies) w) with (enemies w).
  destruct (nth_error (enemies w) i) as [e|] eqn:He; [|reflexivity].
  destruct (is_diving e); [reflexivity|].
  destruct (has_captured_player e) eqn:Hc; [reflexivity|].
  cbn [negb andb when].
  unfold Enemy_start_dive. rewrite Hc.
  unfold exec, bind, randint, draw, get, modify, ret. cbn [fst snd].
  split; [|reflexivity].
  cbn [enemies set_enemies set_rng].
  apply replace_nth_kept with (e := e); [exact He | kept_by_setters].
Qed.

#[local] Hint Resolve send_diving_kept : steps.

Lemma dive_scheduler_kept : steps enemies_kept dive_scheduler.
Proof. steps_walk enemies_kept_pre kept_leaf. Qed.

Lemma steps_weaken (R S : World -> World -> Prop) {A} (m : M A) :
  (forall a b, R a b -> S a b) -> steps R m -> steps S m.
Proof. intros H Hm w. apply H, Hm. Qed.

(** The turn of the loop, phase by phase. *)
Lemma frame_exec (math_sin math_cos : float -> float) (w : World) :
  exec (frame math_sin math_cos) w
  = let w1 := exec (process_events (eval event_get w)) (exec event_get w) in
    if eval (process_events (eval event_get w)) (exec event_get w) then w1
    else
      exec game_over_check
        (exec dive_scheduler
           (exec (next_wave_check math_sin math_cos)
              (exec collision_resolution
                 (exec (update_all math_sin) (exec respawn_step w1))))).
Proof.
  unfold frame. rewrite !exec_bind. cbv zeta.
  destruct (eval (process_events (eval event_get w)) (exec event_get w)).
  - reflexivity.
  - rewrite !exec_bind. reflexivity.
Qed.

Lemma next_wave_check_exec (math_sin math_cos : float -> float) (w : World) :
  exec (next_wave_check math_sin math_cos) w
  = if (length (enemies w) =? 0)%nat
    then exec (create_enemies_formation math_sin math_cos
                 (nth (Z.to_nat ((current_wave w + 1) mod 4)) wave_formations grid))
           (set_current_wave (current_wave w + 1)
              (set_played (wave_complete_sound :: played w) w))
    else w.
Proof.
  unfold next_wave_check. rewrite exec_bind.
  change (exec (get enemies) w) with w. change (eval (get enemies) w) with (enemies w).
  destruct (length (enemies w) =? 0)%nat; reflexivity.
Qed.

(** The phases of a turn before the wave check thin the group out; they make
    no enemy. *)
Lemma before_wave_check_thinned (math_sin : float -> float) (w : World) :
  enemies_thinned w
    (exec collision_resolution (exec (update_all math_sin) (exec respawn_step w))).
Proof.
  transitivity (exec respawn_step w).
  { apply kept_thinned, untouched_kept, respawn_step_untouched. }
  transitivity (exec (update_all math_sin) (exec respawn_step w)).
  { apply kept_thinned, update_all_kept. }
  unfold collision_resolution. rewrite !exec_bind.
  etransitivity; [apply bullet_pass_thinned|]. fold (exec bullet_enemy_collisions).
  etransitivity; [apply kept_thinned, untouched_kept, enemy_bullet_pass_untouched|].
  apply enemy_player_pass_thinned.
Qed.

Lemma thinned_enemies_ok (w w' : World) :
  enemies_thinned w w' -> enemies_ok w ->
  (length (enemies w') <= 10)%nat
  /\ Forall enemy_ok (enemies w')
  /\ NoDup (map eid (enemies w'))
  /\ Forall (fun e => (eid e < next_eid w')%nat) (enemies w').
Proof.
  intros [Ht Hn] (Hl & Hok & Hnd & Hid). repeat split.
  - pose proof (thinned_length _ _ Ht). lia.
  - eapply thinned_Forall_ok; eassumption.
  - eapply thinned_NoDup; eassumption.
  - rewrite Hn. eapply thinned_Forall_eid; eassumption.
Qed.

Lemma kept_enemies_ok (w w' : World) :
  enemies_kept w w' -> enemies_ok w -> enemies_ok w'.
Proof.
  intros Hk Hok.
  destruct (thinned_enemies_ok w w' (kept_thinned _ _ Hk) Hok) as (H1 & H2 & H3 & H4).
  destruct Hk as [Hf _]. apply Forall2_length in Hf.
  destruct Hok as (Hl & _). repeat split; try assumption; lia.
Qed.

Lemma newly_made_ok (e : Enemy) : newly_made e -> enemy_ok e.
Proof.
  intros (Hk & Hh & _). split; [exact Hk|]. rewrite Hh.
  destruct (enemy_type e); cbn; lia.
Qed.

Lemma new_formation_ok (math_sin math_cos : float -> float) (f : Formation) (w : World) :
  enemies_ok (exec (create_enemies_formation math_sin math_cos f) w).
Proof.
  destruct (formation_summary math_sin math_cos f w) as (Hl & Hid & Hn & Hnew & _).
  cbv zeta in *. repeat split.
  - lia.
  - lia.
  - eapply Forall_impl; [|exact Hnew]. intros e. apply newly_made_ok.
  - rewrite Hid. apply seq_NoDup.
  - apply Forall_forall. intros e He. apply (in_map eid) in He. rewrite Hid in He.
    apply in_seq in He. lia.
Qed.

Lemma frame_enemies_ok (math_sin math_cos : float -> float) (w : World) :
  enemies_ok w -> enemies_ok (exec (frame math_sin math_cos) w).
Proof.
  intros Hok. rewrite frame_exec. cbv zeta.
  assert (H1 : enemies_ok (exec (process_events (eval event_get w)) (exec event_get w))).
  { apply kept_enemies_ok with (w := w); [|exact Hok].
    apply untouched_kept.
    transitivity (exec event_get w); [split; reflexivity|].
    apply process_events_untouched. }
  set (w1 := exec (process_events (eval event_get w)) (exec event_get w)) in *.
  destruct (eval (process_events (eval event_get w)) (exec event_get w)); [exact H1|].
  pose proof (before_wave_check_thinned math_sin w1) as Ht.
  set (w2 := exec collision_resolution (exec (update_all math_sin) (exec respawn_step w1))) in *.
  destruct (thinned_enemies_ok w1 w2 Ht H1) as (Hl & Hf & Hnd & Hid).
  assert (H3 : enemies_ok (exec (next_wave_check math_sin math_cos) w2)).
  { rewrite next_wave_check_exec.
    destruct (length (enemies w2) =? 0)%nat eqn:He.
    - apply new_formation_ok.
    - apply Nat.eqb_neq in He. repeat split; try assumption; lia. }
  apply kept_enemies_ok with (w := exec dive_scheduler (exec (next_wave_check math_sin math_cos) w2)).
  { apply untouched_kept, game_over_check_untouched. }
  apply kept_enemies_ok with (w := exec (next_wave_check math_sin math_cos) w2);
    [apply dive_scheduler_kept | exact H3].
Qed.

Lemma setup_enemies_ok (math_sin math_cos : float -> float) (w : World) :
  enemies_ok (exec (run_game_setup math_sin math_cos) w).
Proof.
  unfold run_game_setup. rewrite !exec_bind.
  match goal with
  | |- context [exec (create_enemies_formation math_sin math_cos grid) ?v] =>
      pose proof (new_formation_ok math_sin math_cos grid v) as H;
      revert H;
      generalize (exec (create_enemies_formation math_sin math_cos grid) v)
  end.
  intros w1 H.
  apply kept_enemies_ok with (w := w1); [|exact H].
  apply untouched_kept. split; reflexivity.
Qed.

(** X12. At the head of every turn of the loop of [run_game] the group of
    the enemies holds between 1 and 10 enemies, no two with the same
    identity; each has the points, the capture ability and the size of its
    kind, and a health between 1 and the health of its kind. *)
Theorem enemies_at_loop_head (math_sin math_cos : float -> float) (w : World) :
  reachable math_sin math_cos w ->
  (1 <= length (enemies w) <= 10)%nat
  /\ NoDup (map eid (enemies w))
  /\ Forall (fun e =>
               points e = kind_points (enemy_type e)
               /\ can_capture e = kind_can_capture (enemy_type e)
               /\ rwidth (e_rect e) = kind_size (enemy_type e)
               /\ rheight (e_rect e) = kind_size (enemy_type e)
               /\ 1 <= health e <= kind_health (enemy_type e)) (enemies w).
Proof.
  intros Hr.
  assert (Hok : enemies_ok w).
  { induction Hr as [w He | w Hr IH Hrun Hex].
    - apply setup_enemies_ok.
    - apply frame_enemies_ok. exact IH. }
  destruct Hok as (Hl & Hf & Hnd & _).
  split; [exact Hl|]. split; [exact Hnd|].
  eapply Forall_impl; [|exact Hf].
  intros e ((H1 & H2 & H3 & H4) & H5). repeat split; try assumption; lia.
Qed.

Lemma enemies_at_loop_head_witness :
  (1 <= length (enemies (exec (run_game_setup (fun x => x) (fun x => x))
                              (demo_world demo_player []))) <= 10)%nat.
Proof.
  destruct (enemies_at_loop_head (fun x => x) (fun x => x)
              (exec (run_game_setup (fun x => x) (fun x => x))
                    (demo_world demo_player []))) as [H _].
  - apply reach_start. reflexivity.
  - exact H.
Defined.

(** ** The score *)

#[local] Instance score_same_pre : PreOrder score_same.
Proof.
  split.
  - intros w. reflexivity.
  - intros a b c H1 H2. unfold score_same in *. congruence.
Qed.

Ltac score_leaf := unfold score_same; cbn; reflexivity.

Lemma process_events_score (events : list Event) :
  steps score_same (process_events events).
Proof.
  induction events as [|e events IH]; cbn [process_events].
  - steps_walk score_same_pre score_leaf.
  - destruct e as [|k|]; [|destruct k|]; steps_walk score_same_pre score_leaf.
Qed.

Lemma respawn_update_score (math_sin : float -> float) :
  steps score_same (respawn_step ;; update_all math_sin).
Proof. steps_walk score_same_pre score_leaf. Qed.

Lemma after_bullet_pass_score (math_sin math_cos : float -> float) :
  steps score_same
    (enemy_bullet_player_collisions ;; enemy_player_collisions ;;
     next_wave_check math_sin math_cos ;; dive_scheduler ;; game_over_check).
Proof. steps_walk score_same_pre score_leaf. Qed.

(** The score after the bullet-enemy pass. *)
Lemma bullet_pass_score (w : World) :
  score (exec bullet_enemy_collisions w)
  = score w
    + sumZ (map (fun e => points e * lethal_hits (health e) (hits_on (bullets w) e))
              (enemies w)).
Proof.
  rewrite bullet_enemy_collisions_visits. cbv zeta.
  destruct (visits_tally (bullets w) (map (fun e => (e, true)) (enemies w))
              (exec groupcollide_bullets_enemies w)) as [_ (Hs & _)].
  cbn [score set_enemies]. rewrite Hs. rewrite groupcollide_exec. cbn [score set_bullets].
  f_equal. rewrite map_map. apply sumZ_map_ext. intros e. cbn [fst].
  rewrite lethal_count_closed. reflexivity.
Qed.

Lemma kind_points_hundreds (t : EnemyType) : 0 <= kind_points t /\ (100 | kind_points t).
Proof.
  destruct t; cbn; (split; [lia|]).
  - exists 1. reflexivity.
  - exists 2. reflexivity.
  - exists 4. reflexivity.
Qed.

Lemma points_sum_hundreds (bs : list Rect) (es : list Enemy) :
  Forall enemy_ok es ->
  let s := sumZ (map (fun e => points e * lethal_hits (health e) (hits_on bs e)) es) in
  0 <= s /\ (100 | s).
Proof.
  intros H. cbv zeta. induction H as [|e es He H IH]; cbn [map sumZ].
  - split; [lia | exists 0; reflexivity].
  - destruct IH as [IH1 IH2].
    destruct He as ((Hp & _) & _).
    destruct (kind_points_hundreds (enemy_type e)) as [K1 K2]. rewrite <- Hp in K1, K2.
    assert (Hl : 0 <= lethal_hits (health e) (hits_on bs e)) by (unfold lethal_hits; lia).
    split; [nia|].
    apply Z.divide_add_r; [|exact IH2]. apply Z.divide_mul_l. exact K2.
Qed.

(** A turn of the loop on a group of enemies as it is at the head of the
    loop: the score goes up by hundreds, or stays. *)
Lemma frame_score (math_sin math_cos : float -> float) (w : World) :
  enemies_ok w ->
  score w <= score (exec (frame math_sin math_cos) w)
  /\ (100 | score (exec (frame math_sin math_cos) w) - score w).
Proof.
  intros Hok. rewrite frame_exec. cbv zeta.
  assert (H1 : enemies_ok (exec (process_events (eval event_get w)) (exec event_get w))).
  { apply kept_enemies_ok with (w := w); [|exact Hok].
    apply untouched_kept.
    transitivity (exec event_get w); [split; reflexivity|].
    apply process_events_untouched. }
  assert (S1 : score (exec (process_events (eval event_get w)) (exec event_get w)) = score w).
  { apply (process_events_score (eval event_get w) (exec event_get w)). }
  revert H1 S1.
  generalize (eval (process_events (eval event_get w)) (exec event_get w)).
  generalize (exec (process_events (eval event_get w)) (exec event_get w)).
  intros w1 quit H1 S1.
  destruct quit.
  { rewrite S1. split; [lia|]. exists 0. lia. }
  assert (H2 : enemies_ok (exec (update_all math_sin) (exec respawn_step w1))).
  { apply kept_enemies_ok with (w := exec respawn_step w1); [apply update_all_kept|].
    apply kept_enemies_ok with (w := w1); [|exact H1].
    apply untouched_kept, respawn_step_untouched. }
  assert (S2 : score (exec (update_all math_sin) (exec respawn_step w1)) = score w1).
  { pose proof (respawn_update_score math_sin w1) as H. unfold score_same in H.
    exact H. }
  revert H2 S2. generalize (exec (update_all math_sin) (exec respawn_step w1)).
  intros w2 H2 S2.
  unfold collision_resolution. rewrite !exec_bind.
  pose proof (bullet_pass_score w2) as S3.
  destruct H2 as (_ & Hf & _).
  destruct (points_sum_hundreds (bullets w2) (enemies w2) Hf) as [P1 P2].
  cbv zeta in P1, P2.
  revert S3. generalize (exec bullet_enemy_collisions w2). intros w3 S3.
  pose proof (after_bullet_pass_score math_sin math_cos w3) as S4.
  unfold score_same in S4.
  assert (S5 : score
                 (exec game_over_check
                    (exec dive_scheduler
                       (exec (next_wave_check math_sin math_cos)
                          (exec enemy_player_collisions
                             (exec enemy_bullet_player_collisions w3)))))
               = score w3) by exact S4.
  rewrite S5, S3, S2, S1.
  split; [lia|].
  replace (score w
           + sumZ (map (fun e => points e * lethal_hits (health e) (hits_on (bullets w2) e))
                     (enemies w2)) - score w)
    with (sumZ (map (fun e => points e * lethal_hits (health e) (hits_on (bullets w2) e))
                  (enemies w2))) by lia.
  exact P2.
Qed.

(** X13. The score is 0 when the loop of [run_game] starts, whatever the
    state [run_game] is called in; a turn of the loop never lowers it, and
    raises it by hundreds (the points of the three kinds are 100, 200 and
    400): at the head of every turn the score is a multiple of 100, not
    negative. *)
Theorem score_at_loop_head (math_sin math_cos : float -> float) (w : World) :
  reachable math_sin math_cos w ->
  (forall v, score (exec (run_game_setup math_sin math_cos) v) = 0)
  /\ 0 <= score w /\ (100 | score w)
  /\ score w <= score (exec (frame math_sin math_cos) w).
Proof.
  intros Hr.
  assert (Hs : forall v, score (exec (run_game_setup math_sin math_cos) v) = 0)
    by (intros v; reflexivity).
  split; [exact Hs|].
  assert (H : enemies_ok w /\ 0 <= score w /\ (100 | score w)).
  { induction Hr as [w He | w Hr IH Hrun Hex].
    - split; [apply setup_enemies_ok|].
      rewrite Hs. split; [lia | exists 0; reflexivity].
    - destruct IH as (Hok & H0 & Hd).
      destruct (frame_score math_sin math_cos w Hok) as [F1 F2].
      split; [apply frame_enemies_ok; exact Hok|]. split; [lia|].
      replace (score (exec (frame math_sin math_cos) w))
        with (score w + (score (exec (frame math_sin math_cos) w) - score w)) by lia.
      apply Z.divide_add_r; assumption. }
  destruct H as (Hok & H0 & Hd).
  split; [exact H0|]. split; [exact Hd|].
  apply (frame_score math_sin math_cos w Hok).
Qed.

Lemma score_at_loop_head_witness :
  score (exec (run_game_setup (fun x => x) (fun x => x))
              (set_score 500 (demo_world demo_player []))) = 0
  /\ 0 <= score (exec (run_game_setup (fun x => x) (fun x => x))
                      (demo_world demo_player [])).
Proof.
  destruct (score_at_loop_head (fun x => x) (fun x => x)
              (exec (run_game_setup (fun x => x) (fun x => x))
                    (demo_world demo_player []))) as (H0 & H & _).
  - apply reach_start. reflexivity.
  - split; [apply H0 | exact H].
Defined.

(** ** A captured player with no bullet in flight *)

#[local] Instance still_stuck_pre : PreOrder still_stuck.
Proof.
  split.
  - intros w Hc Hb. repeat split; assumption.
  - intros a b c H1 H2 Hc Hb.
    destruct (H1 Hc Hb) as (A1 & A2 & A3 & A4 & A5 & A6 & A7).
    destruct (H2 A1 A2) as (B1 & B2 & B3 & B4 & B5 & B6 & B7).
    repeat split; congruence.
Qed.

Ltac stuck_leaf :=
  unfold still_stuck, rescues; cbn; intros Hc Hb; rewrite ?Hb; repeat split; auto.

Lemma Player_shoot_stuck : steps still_stuck Player_shoot.
Proof.
  intros w Hc Hb. unfold Player_shoot. run_method. rewrite Hc. repeat split; assumption.
Qed.

Lemma Player_get_captured_stuck (captor : nat) :
  steps still_stuck (Player_get_captured captor).
Proof.
  intros w Hc Hb. unfold Player_get_captured. run_method. rewrite Hc.
  rewrite andb_false_r. repeat split; assumption.
Qed.

Lemma bullet_pass_stuck : steps still_stuck bullet_enemy_collisions.
Proof.
  intros w Hc Hb. fold (exec bullet_enemy_collisions w).
  rewrite bullet_enemy_collisions_visits. cbv zeta. rewrite groupcollide_exec.
  rewrite Hb. cbn. repeat split; auto.
Qed.

Lemma enemy_bullet_pass_stuck : steps still_stuck enemy_bullet_player_collisions.
Proof.
  intros w Hc Hb. unfold enemy_bullet_player_collisions. run_method. rewrite Hc.
  repeat split; assumption.
Qed.

Lemma enemy_player_pass_stuck : steps still_stuck enemy_player_collisions.
Proof.
  intros w Hc Hb. unfold enemy_player_collisions. run_method. rewrite Hc.
  repeat split; assumption.
Qed.

#[local] Hint Resolve Player_shoot_stuck Player_get_captured_stuck bullet_pass_stuck
  enemy_bullet_pass_stuck enemy_player_pass_stuck : steps.

Lemma process_events_stuck (events : list Event) :
  steps still_stuck (process_events events).
Proof.
  induction events as [|e events IH]; cbn [process_events].
  - steps_walk still_stuck_pre stuck_leaf.
  - destruct e as [|k|]; [|destruct k|]; steps_walk still_stuck_pre stuck_leaf.
Qed.

#[local] Hint Resolve process_events_stuck : steps.

Lemma frame_stuck (math_sin math_cos : float -> float) :
  steps still_stuck (frame math_sin math_cos).
Proof. steps_walk still_stuck_pre stuck_leaf. Qed.

(** X14. A captured player without a bullet of its own in flight stays
    captured for ever: [shoot()] does nothing for it, so no bullet comes, no
    enemy is hit and [rescue()] is never called; the two collision passes on
    the player are skipped.  Through any number of turns of the loop its
    lives, its ships and the score stay exactly as they are. *)
Theorem captured_without_bullets_is_stuck
    (math_sin math_cos : float -> float) (n : nat) (w : World) :
  is_captured (player w) = true -> bullets w = [] ->
  let w' := run_frames math_sin math_cos n w in
  is_captured (player w') = true /\ bullets w' = []
  /\ captured_by (player w') = captured_by (player w)
  /\ lives (player w') = lives (player w)
  /\ combined_ships (player w') = combined_ships (player w)
  /\ score w' = score w
  /\ rescues w' = rescues w.
Proof.
  intros Hc Hb. cbv zeta.
  assert (H : still_stuck w (run_frames math_sin math_cos n w)).
  { clear Hc Hb. revert w. induction n as [|n IH]; intros w; cbn [run_frames].
    - reflexivity.
    - destruct (running w && negb (exited w)); [|reflexivity].
      transitivity (exec (frame math_sin math_cos) w); [apply frame_stuck | apply IH]. }
  exact (H Hc Hb).
Qed.

Lemma captured_without_bullets_is_stuck_witness :
  lives (player (run_frames (fun x => x) (fun x => x) 5
                   (demo_world captured_player [captor_enemy]))) = 2.
Proof.
  destruct (captured_without_bullets_is_stuck (fun x => x) (fun x => x) 5
              (demo_world captured_player [captor_enemy]))
    as (_ & _ & _ & H & _); [reflexivity | reflexivity | exact H].
Defined.

(** ** The events of a turn *)

#[local] Instance flags_same_pre : PreOrder flags_same.
Proof.
  split.
  - intros w. split; reflexivity.
  - intros a b c [H1 H2] [H3 H4]. split; congruence.
Qed.

Ltac flags_leaf := unfold flags_same; cbn; split; reflexivity.

Lemma Player_shoot_flags : steps flags_same Player_shoot.
Proof. steps_walk flags_same_pre flags_leaf. Qed.

Lemma middle_of_frame_flags (math_sin math_cos : float -> float) (w : World) :
  flags_same w
    (exec dive_scheduler
       (exec (next_wave_check math_sin math_cos)
          (exec collision_resolution
             (exec (update_all math_sin) (exec respawn_step w))))).
Proof.
  assert (H1 : steps flags_same respawn_step)
    by steps_walk flags_same_pre flags_leaf.
  assert (H2 : steps flags_same (update_all math_sin))
    by steps_walk flags_same_pre flags_leaf.
  assert (H3 : steps flags_same collision_resolution)
    by steps_walk flags_same_pre flags_leaf.
  assert (H4 : steps flags_same (next_wave_check math_sin math_cos))
    by steps_walk flags_same_pre flags_leaf.
  assert (H5 : steps flags_same dive_scheduler)
    by steps_walk flags_same_pre flags_leaf.
  transitivity (exec respawn_step w); [apply H1|].
  etransitivity; [apply H2|]. fold (exec (update_all math_sin)).
  etransitivity; [apply H3|]. fold (exec collision_resolution).
  etransitivity; [apply H4|]. fold (exec (next_wave_check math_sin math_cos)).
  apply H5.
Qed.

Lemma eval_bind {A B} (m : M A) (k : A -> M B) (w : World) :
  eval (bind m k) w = eval (k (eval m w)) (exec m w).
Proof. reflexivity. Qed.

(** The event loop up to a [QUIT] event: the events after it are not looked
    at. *)
Lemma process_events_until_quit (pre post : list Event) (w : World) :
  ~ In QUIT pre ->
  eval (process_events (pre ++ QUIT :: post)) w = true
  /\ exec (process_events (pre ++ QUIT :: post)) w
     = set_exited true (exec (process_events pre) w).
Proof.
  revert w. induction pre as [|e pre IH]; intros w Hn.
  - split; reflexivity.
  - assert (Hn' : ~ In QUIT pre) by (intros H; apply Hn; right; exact H).
    destruct e as [|k|].
    + exfalso. apply Hn. left. reflexivity.
    + destruct k; cbn [app process_events]; try apply (IH w Hn');
        unfold eval, exec, bind; cbn [fst snd]; apply IH; exact Hn'.
    + cbn [app process_events]. apply (IH w Hn').
Qed.

(** The event loop without a [QUIT] event: it answers [false], leaves
    [exited] as it is, and clears [running] when there is an [ESCAPE]. *)
Lemma process_events_no_quit (events : list Event) (w : World) :
  ~ In QUIT events ->
  eval (process_events events) w = false
  /\ exited (exec (process_events events) w) = exited w
  /\ running (exec (process_events events) w)
     = running w && negb (existsb is_escape events).
Proof.
  revert w. induction events as [|e events IH]; intros w Hn.
  - cbn. rewrite andb_true_r. repeat split.
  - assert (Hn' : ~ In QUIT events) by (intros H; apply Hn; right; exact H).
    destruct e as [|k|].
    + exfalso. apply Hn. left. reflexivity.
    + destruct k; cbn [process_events existsb is_escape orb negb].
      * rewrite eval_bind, !exec_bind, exec_modify.
        destruct (IH (set_running false w) Hn') as (H1 & H2 & H3).
        rewrite H1, H2, H3.
        cbn. rewrite andb_false_r. repeat split.
      * rewrite eval_bind, !exec_bind.
        destruct (IH (exec Player_shoot w) Hn') as (H1 & H2 & H3).
        rewrite H1, H2, H3.
        destruct (Player_shoot_flags w) as [F1 F2]. fold (exec Player_shoot w) in F1, F2.
        rewrite F1, F2. repeat split.
      * apply (IH w Hn').
      * apply (IH w Hn').
    + cbn [process_events existsb is_escape orb]. apply (IH w Hn').
Qed.

(** The event loop goes through the whole batch unless a [QUIT] comes. *)
Lemma process_events_app (pre post : list Event) (w : World) :
  ~ In QUIT pre ->
  exec (process_events (pre ++ post)) w
  = exec (process_events post) (exec (process_events pre) w).
Proof.
  revert w. induction pre as [|e pre IH]; intros w Hn.
  - reflexivity.
  - assert (Hn' : ~ In QUIT pre) by (intros H; apply Hn; right; exact H).
    destruct e as [|k|].
    + exfalso. apply Hn. left. reflexivity.
    + destruct k; cbn [app process_events]; try apply (IH w Hn');
        rewrite !exec_bind; apply IH; exact Hn'.
    + cbn [app process_events]. apply (IH w Hn').
Qed.

Lemma rest_of_turn_exec (math_sin math_cos : float -> float) (w : World) :
  exec (rest_of_turn math_sin math_cos) w
  = exec game_over_check
      (exec dive_scheduler
         (exec (next_wave_check math_sin math_cos)
            (exec collision_resolution
               (exec (update_all math_sin) (exec respawn_step w))))).
Proof. unfold rest_of_turn. rewrite !exec_bind. reflexivity. Qed.

(** X15. The events of a turn of the loop.  A [QUIT] event ends the process
    on the spot: the events before it have been handled, [exited] is set, and
    the events after it and the rest of the turn are not run.  Without a
    [QUIT] the turn is run to its end, whether an [ESCAPE] key came or not:
    the state after the turn is the one that the respawn step, the updates,
    the collisions, the wave check, the dive scheduler and the game over
    check make of the state after the whole batch of events.  [running] holds
    after the turn exactly when it held before, no [ESCAPE] came, and the
    player has a life left.  An [ESCAPE] clears [running] and does not end
    the event loop: the events that follow it in the batch are handled like
    the others. *)
Theorem frame_events (math_sin math_cos : float -> float) (w : World) :
  let events := event_queue w 0%nat in
  let w' := exec (frame math_sin math_cos) w in
  (forall pre post, events = pre ++ QUIT :: post -> ~ In QUIT pre ->
     w' = set_exited true (exec (process_events pre) (exec event_get w)))
  /\ (~ In QUIT events ->
      w' = exec (rest_of_turn math_sin math_cos)
             (exec (process_events events) (exec event_get w))
      /\ exited w' = exited w
      /\ running w'
         = running w && negb (existsb is_escape events) && (0 <? lives (player w')))
  /\ (forall pre post v, ~ In QUIT pre ->
      exec (process_events (pre ++ KEYDOWN K_ESCAPE :: post)) v
      = exec (process_events post) (set_running false (exec (process_events pre) v))).
Proof.
  cbv zeta. split; [|split].
  - intros pre post He Hn. rewrite frame_exec. cbv zeta.
    change (eval event_get w) with (event_queue w 0%nat). rewrite He.
    destruct (process_events_until_quit pre post (exec event_get w) Hn) as [H1 H2].
    rewrite H1. exact H2.
  - intros Hn. rewrite frame_exec. cbv zeta.
    change (eval event_get w) with (event_queue w 0%nat).
    destruct (process_events_no_quit (event_queue w 0%nat) (exec event_get w) Hn)
      as (H1 & H2 & H3).
    rewrite H1, rest_of_turn_exec. split; [reflexivity|].
    change (exited (exec event_get w)) with (exited w) in H2.
    change (running (exec event_get w)) with (running w) in H3.
    revert H2 H3.
    generalize (exec (process_events (event_queue w 0%nat)) (exec event_get w)).
    intros w1 H2 H3.
    pose proof (middle_of_frame_flags math_sin math_cos w1) as [F1 F2].
    revert F1 F2.
    generalize (exec dive_scheduler
                  (exec (next_wave_check math_sin math_cos)
                     (exec collision_resolution
                        (exec (update_all math_sin) (exec respawn_step w1))))).
    intros v F1 F2.
    unfold game_over_check. run_method.
    destruct (Z.leb_spec (lives (player v)) 0) as [Hl | Hl]; cbn.
    + rewrite (proj2 (Z.ltb_ge 0 (lives (player v)))) by lia.
      rewrite andb_false_r. split; congruence.
    + rewrite (proj2 (Z.ltb_lt 0 (lives (player v)))) by lia.
      rewrite andb_true_r. split; congruence.
  - intros pre post v Hn. rewrite (process_events_app pre _ v Hn).
    cbn [process_events]. rewrite exec_bind, exec_modify. reflexivity.
Qed.

(** In [escape_world] an [ESCAPE] comes first and a [SPACE] after it: the shot
    is fired, the enemy and the bullet are moved, and the loop is left. *)
Lemma frame_events_witness :
  let w' := exec (frame (fun x => x) (fun x => x)) escape_world in
  running w' = false /\ exited w' = false
  /\ bullets w' = [mkRect 297 718 6 12]
  /\ map anim_counter (enemies w') = [1]
  /\ played w' = [shoot_sound].
Proof.
  cbv zeta.
  destruct (frame_events (fun x => x) (fun x => x) escape_world) as (_ & H & _).
  destruct H as (H1 & H2 & H3).
  - intros [H | [H | []]]; discriminate H.
  - split; [rewrite H3; reflexivity|]. split; [exact H2|].
    rewrite H1. vm_compute. repeat split.
Defined.

(** ** The collisions with the player *)

(** X16. The enemy bullets of a turn cost one hit at most.  When the player
    is free and not invincible, every enemy bullet that overlaps it is
    removed and, if there was one, [hit()] is called once, so at most one
    life is lost; the other bullets stay, in order.  When the player is
    captured or invincible the pass changes nothing: the bullets go through
    the ship. *)
Theorem enemy_bullets_hit_once (w : World) :
  let p := player w in
  let touches := fun b => colliderect (p_rect p) b in
  let rest := filter (fun b => negb (touches b)) (enemy_bullets w) in
  let w' := exec enemy_bullet_player_collisions w in
  (is_captured p = true \/ invincible p = true -> w' = w)
  /\ (is_captured p = false -> invincible p = false ->
      enemy_bullets w' = rest
      /\ w' = (if existsb touches (enemy_bullets w)
               then exec Player_hit (set_enemy_bullets rest w)
               else set_enemy_bullets rest w)
      /\ lives p - 1 <= lives (player w') <= lives p).
Proof.
  cbv zeta. split.
  - intros H. unfold enemy_bullet_player_collisions. run_method.
    destruct H as [H | H]; rewrite H; [|rewrite andb_false_r]; reflexivity.
  - intros Hc Hi.
    assert (He : exec enemy_bullet_player_collisions w
                 = if existsb (fun b => colliderect (p_rect (player w)) b) (enemy_bullets w)
                   then exec Player_hit
                          (set_enemy_bullets
                             (filter (fun b => negb (colliderect (p_rect (player w)) b))
                                (enemy_bullets w)) w)
                   else set_enemy_bullets
                          (filter (fun b => negb (colliderect (p_rect (player w)) b))
                             (enemy_bullets w)) w).
    { unfold enemy_bullet_player_collisions. rewrite exec_bind.
      change (exec (get player) w) with w. change (eval (get player) w) with (player w).
      rewrite Hc, Hi. cbn [negb andb when]. rewrite !exec_bind.
      change (exec (get enemy_bullets) w) with w.
      change (eval (get enemy_bullets) w) with (enemy_bullets w).
      rewrite exec_modify.
      destruct (existsb _ (enemy_bullets w)); reflexivity. }
    rewrite He. clear He.
    set (rest := filter (fun b => negb (colliderect (p_rect (player w)) b)) (enemy_bullets w)).
    destruct (existsb _ (enemy_bullets w)).
    + pose proof (Player_hit_takes_at_most_one (set_enemy_bullets rest w)) as Hl.
      change (lives (player (set_enemy_bullets rest w))) with (lives (player w)) in Hl.
      split; [|split; [reflexivity | exact Hl]].
      assert (Hs : steps (fun a b => enemy_bullets b = enemy_bullets a) Player_hit).
      { assert (Hpre : PreOrder (fun a b : World => enemy_bullets b = enemy_bullets a)).
        { split; [intros a; reflexivity | intros a b c H1 H2; congruence]. }
        steps_walk Hpre ltac:(cbn; reflexivity). }
      apply (Hs (set_enemy_bullets rest w)).
    + cbn. repeat split; lia.
Qed.

Lemma enemy_bullets_hit_once_witness :
  enemy_bullets (exec enemy_bullet_player_collisions rammed_world) = [mkRect 10 10 6 12]
  /\ lives (player rammed_world) - 1
     <= lives (player (exec enemy_bullet_player_collisions rammed_world))
     <= lives (player rammed_world).
Proof.
  destruct (enemy_bullets_hit_once rammed_world) as [_ H].
  destruct H as (H1 & _ & H3); [reflexivity | reflexivity |].
  split; [rewrite H1; reflexivity | exact H3].
Defined.

Lemma Player_hits_score (k : nat) : steps score_same (Player_hits k).
Proof.
  induction k as [|k IH]; cbn [Player_hits];
    steps_walk score_same_pre score_leaf.
Qed.

(** After a first hit that starts an invincibility period, the later hits of
    the same pass do nothing. *)
Lemma Player_hits_invincible (k : nat) (w : World) :
  invincible (player w) = true -> exec (Player_hits k) w = w.
Proof.
  intros Hi. induction k as [|k IH]; [reflexivity|].
  cbn [Player_hits]. rewrite exec_bind.
  destruct (Player_hit_single_ship w) as [Hn _]. cbv zeta in Hn.
  rewrite Hn by (left; exact Hi). exact IH.
Qed.

(** On the last life of a single ship no hit starts an invincibility period:
    every hit of the pass takes a life. *)
Lemma Player_hits_last_life (k : nat) :
  forall w : World,
    invincible (player w) = false -> is_captured (player w) = false ->
    combined_ships (player w) <= 1 -> lives (player w) <= 1 ->
    lives (player (exec (Player_hits k) w)) = lives (player w) - Z.of_nat k.
Proof.
  induction k as [|k IH]; intros w Hi Hc Hs Hl.
  - cbn. lia.
  - cbn [Player_hits]. rewrite exec_bind.
    assert (Hp : player (exec Player_hit w) = set_lives (lives (player w) - 1) (player w)).
    { unfold Player_hit. run_method. rewrite Hi, Hc. cbn.
      rewrite (gtb_false (combined_ships (player w)) 1) by lia. cbn.
      rewrite (gtb_false (lives (player w) - 1) 0) by lia. reflexivity. }
    revert Hp. generalize (exec Player_hit w). intros w1 Hp.
    rewrite IH; rewrite Hp; cbn; try assumption; lia.
Qed.

(** The loop of the enemy-player pass when no overlapping enemy can capture:
    each overlapping enemy hits the player and leaves the group. *)
Lemma ramming_loop (p : Player) (es : list Enemy) :
  Forall (fun e => rams p e = true -> can_capture e = false) es ->
  forall w : World,
    let body := fun enemy : Enemy =>
                  if colliderect (p_rect p) (e_rect enemy)
                  then enemy_meets_player enemy else ret (Some enemy) in
    eval (map_each es body) w = map (fun e => if rams p e then None else Some e) es
    /\ exec (map_each es body) w = exec (Player_hits (length (filter (rams p) es))) w.
Proof.
  induction 1 as [|e es He H IH]; intros w; cbv zeta.
  - split; reflexivity.
  - cbn [map_each map filter]. rewrite eval_bind, exec_bind.
    unfold rams in *.
    destruct (colliderect (p_rect p) (e_rect e)) eqn:Hr.
    + specialize (He eq_refl).
      assert (Hm : enemy_meets_player e w = (None, exec Player_hit w)).
      { unfold enemy_meets_player, bind, get. cbn [fst snd]. rewrite He.
        cbn [andb ret fst snd]. reflexivity. }
      assert (Hm1 : eval (enemy_meets_player e) w = None)
        by (unfold eval; rewrite Hm; reflexivity).
      assert (Hm2 : exec (enemy_meets_player e) w = exec Player_hit w)
        by (unfold exec at 1; rewrite Hm; reflexivity).
      rewrite Hm1, Hm2. clear Hm Hm1 Hm2.
      cbv zeta in IH.
      destruct (IH (exec Player_hit w)) as [I1 I2].
      rewrite eval_bind, exec_bind, I1, I2.
      cbn [length Player_hits]. rewrite exec_bind. split; reflexivity.
    + cbv zeta in IH. destruct (IH w) as [I1 I2].
      change (exec (ret (Some e)) w) with w.
      change (eval (ret (Some e)) w) with (Some e).
      rewrite eval_bind, exec_bind, I1, I2. split; reflexivity.
Qed.

Lemma keep_some_filter (f : Enemy -> bool) (es : list Enemy) :
  keep_some (map (fun e => if f e then None else Some e) es)
  = filter (fun e => negb (f e)) es.
Proof.
  induction es as [|e es IH]; [reflexivity|].
  cbn [map filter]. unfold keep_some in *. cbn [flat_map].
  destruct (f e); cbn [negb app]; rewrite IH; reflexivity.
Qed.

(** X17. The enemy-player pass of a free, not invincible player when none of
    the enemies that overlap it can capture: every overlapping enemy is
    destroyed, the others stay, and no point is scored.  [hit()] is called
    once per overlapping enemy.  With two ships, or with more than one life,
    the first call starts the invincibility period and the pass costs one
    ship, or one life, however many enemies there are; on the last life of a
    single ship no period starts, and [k] overlapping enemies take [k]
    lives. *)
Theorem ramming_spec (w : World) :
  let p := player w in
  let k := length (filter (rams p) (enemies w)) in
  let w' := exec enemy_player_collisions w in
  is_captured p = false -> invincible p = false ->
  (forall e, In e (enemies w) -> rams p e = true -> can_capture e = false) ->
  enemies w' = filter (fun e => negb (rams p e)) (enemies w)
  /\ score w' = score w
  /\ player w' = player (exec (Player_hits k) w)
  /\ ((1 <= k)%nat -> combined_ships p = 2 ->
      combined_ships (player w') = 1 /\ lives (player w') = lives p)
  /\ ((1 <= k)%nat -> combined_ships p <= 1 -> 1 < lives p ->
      lives (player w') = lives p - 1)
  /\ (combined_ships p <= 1 -> lives p <= 1 ->
      lives (player w') = lives p - Z.of_nat k).
Proof.
  cbv zeta. intros Hc Hi Hcap.
  assert (Hf : Forall (fun e => rams (player w) e = true -> can_capture e = false)
                 (enemies w)).
  { apply Forall_forall. exact Hcap. }
  destruct (ramming_loop (player w) (enemies w) Hf w) as [L1 L2]. cbv zeta in L1, L2.
  assert (He : exec enemy_player_collisions w
               = set_enemies (filter (fun e => negb (rams (player w) e)) (enemies w))
                   (exec (Player_hits (length (filter (rams (player w)) (enemies w)))) w)).
  { unfold enemy_player_collisions. rewrite exec_bind.
    change (exec (get player) w) with w. change (eval (get player) w) with (player w).
    rewrite Hc, Hi. cbn [negb andb when]. rewrite exec_bind.
    change (exec (get enemies) w) with w. change (eval (get enemies) w) with (enemies w).
    rewrite exec_bind, exec_modify, L1, L2, keep_some_filter. reflexivity. }
  rewrite He. clear He L1 L2.
  set (k := length (filter (rams (player w)) (enemies w))).
  cbn [enemies score player set_enemies].
  split; [reflexivity|]. split; [apply (Player_hits_score k w)|].
  split; [reflexivity|].
  split; [|split].
  - intros Hk Hs. destruct k as [|k]; [lia|].
    cbn [Player_hits]. rewrite exec_bind.
    assert (Hp : invincible (player (exec Player_hit w)) = true
                 /\ combined_ships (player (exec Player_hit w)) = 1
                 /\ lives (player (exec Player_hit w)) = lives (player w)).
    { unfold Player_hit. run_method. rewrite Hi, Hc, Hs. cbn.
      destruct (rwidth (p_rect (player w)) >? 30); cbn; rewrite ?Hs; repeat split. }
    destruct Hp as (P1 & P2 & P3).
    rewrite (Player_hits_invincible k _ P1). split; assumption.
  - intros Hk Hs Hl. destruct k as [|k]; [lia|].
    cbn [Player_hits]. rewrite exec_bind.
    destruct (Player_hit_single_ship w) as [_ Hh]. cbv zeta in Hh.
    destruct (Hh Hi Hc Hs) as (P1 & _ & _ & _ & P5 & _).
    rewrite (proj2 (Z.ltb_lt 1 (lives (player w))) Hl) in P5.
    rewrite (Player_hits_invincible k _ P5). exact P1.
  - intros Hs Hl. apply Player_hits_last_life; assumption.
Qed.

Lemma ramming_spec_witness :
  map eid (enemies (exec enemy_player_collisions rammed_world)) = [2%nat]
  /\ combined_ships (player (exec enemy_player_collisions rammed_world)) = 1
  /\ lives (player (exec enemy_player_collisions rammed_world)) = 2.
Proof.
  destruct (ramming_spec rammed_world) as (H1 & _ & _ & H4 & _).
  - reflexivity.
  - reflexivity.
  - intros e He _.
    repeat (destruct He as [<- | He]; [reflexivity|]). destruct He.
  - destruct H4 as [H5 H6]; [vm_compute; lia | reflexivity |].
    split; [rewrite H1; reflexivity | split; [exact H5 | exact H6]].
Defined.

(** ** Explosions *)

Lemma Explosion_updates_alive (k : nat) :
  forall self : Explosion,
    x_counter self = 0 \/ x_counter self = 1 ->
    2 * Z.of_nat (x_index self) + x_counter self + Z.of_nat k
    < 2 * Z.of_nat (length (images self)) ->
    nth_error (images self) (x_index self) = Some (x_image self) ->
    exists e,
      Explosion_updates k self = Some e
      /\ images e = images self
      /\ x_rect e = x_rect self
      /\ (x_counter e = 0 \/ x_counter e = 1)
      /\ 2 * Z.of_nat (x_index e) + x_counter e
         = 2 * Z.of_nat (x_index self) + x_counter self + Z.of_nat k
      /\ nth_error (images e) (x_index e) = Some (x_image e).
Proof.
  induction k as [|k IH]; intros self Hc Hk Hn.
  - exists self. cbn [Explosion_updates]. repeat split; auto. lia.
  - cbn [Explosion_updates]. unfold Explosion_update. cbv zeta.
    destruct Hc as [Hc | Hc]; rewrite Hc in *.
    + change (0 + 1 >=? 2) with false. cbv iota.
      match goal with |- context [Explosion_updates k ?e0] => set (e1 := e0) end.
      destruct (IH e1) as (e & He & Hi & Hr & Hc' & Ht & Hn').
      * right. reflexivity.
      * subst e1. cbn [x_index x_counter images]. lia.
      * exact Hn.
      * exists e. subst e1. cbn [x_index x_counter images x_rect] in *.
        repeat split; try assumption. lia.
    + change (1 + 1 >=? 2) with true. cbv iota.
      destruct (Nat.leb_spec (length (images self)) (S (x_index self))) as [Hle | Hgt];
        [lia|].
      match goal with |- context [Explosion_updates k ?e0] => set (e1 := e0) end.
      destruct (IH e1) as (e & He & Hi & Hr & Hc' & Ht & Hn').
      * left. reflexivity.
      * subst e1. cbn [x_index x_counter images]. lia.
      * subst e1. cbn [x_index x_image images]. apply nth_error_nth'. exact Hgt.
      * exists e. subst e1. cbn [x_index x_counter images x_rect] in *.
        repeat split; try assumption. lia.
Qed.

(** X18. An explosion lives for 16 calls of [update]: its animation has 8
    frames and shows each of them for two calls.  After [k < 16] calls the
    sprite is still there, on frame [k / 2] of its list, so its image is
    always one of its frames; the 16th call kills it.  It never moves. *)
Theorem explosion_lifetime (x y size : Z) (k : nat) :
  let self := new_Explosion x y size in
  length (images self) = 8%nat
  /\ ((k < 16)%nat ->
      exists e, Explosion_updates k self = Some e
                /\ x_index e = (k / 2)%nat
                /\ nth_error (images self) (x_index e) = Some (x_image e)
                /\ x_rect e = x_rect self)
  /\ Explosion_updates 16 self = None.
Proof.
  cbv zeta. split; [reflexivity|]. split.
  - intros Hk.
    destruct (Explosion_updates_alive k (new_Explosion x y size))
      as (e & He & Hi & Hr & Hc & Ht & Hn).
    + left. reflexivity.
    + cbn. lia.
    + reflexivity.
    + exists e. split; [exact He|]. cbn [new_Explosion x_index x_counter] in Ht.
      split; [|split; [rewrite <- Hi; exact Hn | exact Hr]].
      apply Nat.div_unique with (r := Z.to_nat (x_counter e)); lia.
  - reflexivity.
Qed.

Lemma explosion_lifetime_witness :
  exists e, Explosion_updates 15 (new_Explosion 300 400 20) = Some e
            /\ x_index e = 7%nat.
Proof.
  destruct (explosion_lifetime 300 400 20 15) as (_ & H & _).
  destruct H as (e & H1 & H2 & _); [lia|].
  exists e. split; [exact H1 | exact H2].
Defined.

(** Every size from 0 to 100, tried one by one. *)
Lemma frames_all_sizes : forallb frames_as_computed (range 101) = true.
Proof. vm_compute. reflexivity. Qed.

(** X19. The 8 frames of an explosion of size [size], for every size from 0
    to 100 (the game makes explosions of sizes 15, 20, 30 and 40): frame [i]
    is a square of side [3 size] with a circle of radius [3 size (i + 1) / 16]
    (rounded down) and alpha [255 - 255 i / 8] (255, 224, 192, ... 32), and,
    on the first six frames only, an inner circle of half that radius.  The
    last circle has radius [3 size / 2]: it just fits in the frame. *)
Theorem explosion_frames (size i : Z) :
  0 <= size <= 100 -> 0 <= i < 8 ->
  exists f,
    nth_error (images (new_Explosion 0 0 size)) (Z.to_nat i) = Some f
    /\ side f = 3 * size
    /\ radius f = 3 * size * (i + 1) / 16
    /\ alpha f = 255 - 255 * i / 8
    /\ inner_radius f = (if i <? 6 then Some (radius f / 2) else None)
    /\ 2 * radius f <= side f.
Proof.
  intros Hs Hi.
  pose proof frames_all_sizes as Hall. rewrite forallb_forall in Hall.
  specialize (Hall size (in_range 101 size ltac:(lia))).
  unfold frames_as_computed in Hall. rewrite forallb_forall in Hall.
  specialize (Hall i (in_range num_frames i ltac:(cbn; lia))).
  destruct (nth_error (images (new_Explosion 0 0 size)) (Z.to_nat i)) as [f|];
    [|discriminate].
  exists f. split; [reflexivity|].
  rewrite !andb_true_iff, !Z.eqb_eq in Hall. destruct Hall as (((H1 & H2) & H3) & H4).
  split; [exact H1|]. split; [exact H2|]. split; [exact H3|]. split.
  - destruct (inner_radius f) as [r|].
    + apply andb_true_iff in H4. destruct H4 as [H4 H5].
      rewrite H4. apply Z.eqb_eq in H5. congruence.
    + apply Z.leb_le in H4. rewrite (proj2 (Z.ltb_ge i 6)) by lia. reflexivity.
  - rewrite H1, H2.
    assert (3 * size * (i + 1) / 16 <= 3 * size * 8 / 16)
      by (apply Z.div_le_mono; nia).
    assert (3 * size * 8 / 16 * 2 <= 3 * size).
    { replace (3 * size * 8) with (3 * size * 16 / 2).
      - pose proof (Z.mul_div_le (3 * size) 2 ltac:(lia)).
        assert (3 * size * 16 / 2 / 16 = 3 * size / 2).
        { rewrite Z.div_div by lia. replace (2 * 16) with (16 * 2) by lia.
          rewrite <- Z.div_div by lia. rewrite Z.div_mul by lia. reflexivity. }
        lia.
      - replace (3 * size * 16) with (3 * size * 8 * 2) by lia.
        rewrite Z.div_mul by lia. reflexivity. }
    lia.
Qed.

Lemma explosion_frames_witness :
  exists f, nth_error (images (new_Explosion 0 0 20)) 7 = Some f /\ radius f = 30.
Proof.
  destruct (explosion_frames 20 7) as (f & H1 & _ & H3 & _); [lia | lia |].
  exists f. split; [exact H1 | exact H3].
Defined.

(** ** The lives display *)

(** X20. [draw_lives] blits the icon once per life, from left to right, 30
    apart on the same line, starting at [(x, y)]; with no life, or with a
    negative number of lives, it draws nothing.  Icons of a width between 1
    and 30 (the life icon is 20 by 25) do not overlap. *)
Theorem draw_lives_spec (x y lives w h : Z) :
  let icons := draw_lives x y lives w h in
  Z.of_nat (length icons) = Z.max 0 lives
  /\ (forall i, 0 <= i < lives ->
        nth_error icons (Z.to_nat i) = Some (mkRect (x + 30 * i) y w h))
  /\ (lives <= 0 -> icons = [])
  /\ (0 < w <= 30 -> 0 < h ->
      forall i j a b, nth_error icons i = Some a -> nth_error icons j = Some b ->
                      i <> j -> colliderect a b = false).
Proof.
  cbv zeta. unfold draw_lives, range_Z, range.
  assert (Hnth : forall i, (i < Z.to_nat lives)%nat ->
             nth_error (map (fun i0 => set_ry y (set_rx (x + 30 * i0) (mkRect 0 0 w h)))
                          (map Z.of_nat (seq 0 (Z.to_nat lives)))) i
             = Some (mkRect (x + 30 * Z.of_nat i) y w h)).
  { intros i Hi. rewrite map_map.
    rewrite nth_error_map, nth_error_seq.
    rewrite (proj2 (Nat.ltb_lt i (Z.to_nat lives)) Hi). reflexivity. }
  split; [rewrite !length_map, length_seq; lia|]. split; [|split].
  - intros i Hi. rewrite Hnth by lia. do 2 f_equal. lia.
  - intros Hl. replace (Z.to_nat lives) with 0%nat by lia. reflexivity.
  - intros Hw Hh i j a b Ha Hb Hne.
    assert (Hi : (i < Z.to_nat lives)%nat).
    { apply nth_error_Some_bound in Ha. rewrite !length_map, length_seq in Ha. exact Ha. }
    assert (Hj : (j < Z.to_nat lives)%nat).
    { apply nth_error_Some_bound in Hb. rewrite !length_map, length_seq in Hb. exact Hb. }
    rewrite Hnth in Ha, Hb by assumption.
    assert (Hd : 30 <= 30 * Z.of_nat i - 30 * Z.of_nat j
                 \/ 30 * Z.of_nat i - 30 * Z.of_nat j <= -30) by lia.
    revert Ha Hb Hd. generalize (30 * Z.of_nat i), (30 * Z.of_nat j). intros u v Ha Hb Hd.
    assert (Ea : a = mkRect (x + u) y w h) by congruence.
    assert (Eb : b = mkRect (x + v) y w h) by congruence.
    subst a b. clear Ha Hb.
    unfold colliderect. cbn [rx ry rwidth rheight].
    rewrite (proj2 (Z.eqb_neq w 0)) by lia. rewrite (proj2 (Z.eqb_neq h 0)) by lia.
    cbn [orb].
    destruct (Z.ltb_spec (Z.min (x + u) (x + u + w)) (Z.max (x + v) (x + v + w)));
      [|reflexivity].
    destruct (Z.gtb_spec (Z.max (x + u) (x + u + w)) (Z.min (x + v) (x + v + w)));
      [|rewrite !andb_false_r; reflexivity].
    exfalso. lia.
Qed.

Lemma draw_lives_spec_witness : draw_lives 10 10 (-1) 20 25 = [].
Proof.
  destruct (draw_lives_spec 10 10 (-1) 20 25) as (_ & _ & H & _).
  apply H. lia.
Defined.

(** ** The high score file *)

(** X21. [load_high_score] answers the integer of the file, and 0 when there
    is no file, when it cannot be read or when its text is not an integer.
    [save_high_score] writes only a score above the one it loads, and answers
    [True] only when it has written it; then the score loads back.  On a disk
    where nothing fails, the high score after a save is the larger of the
    score and the high score before, and saving the same score again answers
    [False]. *)
Theorem high_score_spec (score : Z) (d : Disk) :
  let r := save_high_score score d in
  (high_score_file d = None \/ opens_for_read d = false
   \/ high_score_file d = Some other_text -> load_high_score d = 0)
  /\ (fst r = true ->
      load_high_score d < score
      /\ (opens_for_read d = true -> load_high_score (snd r) = score))
  /\ (score <= load_high_score d -> r = (false, d))
  /\ (working d ->
      fst r = (load_high_score d <? score)
      /\ load_high_score (snd r) = Z.max score (load_high_score d)
      /\ working (snd r)
      /\ fst (save_high_score score (snd r)) = false).
Proof.
  cbv zeta. unfold save_high_score, load_high_score, working. split; [|split; [|split]].
  - intros [H | [H | H]]; rewrite H; try reflexivity.
    + destruct (high_score_file d) as [[z|]|]; reflexivity.
    + destruct (opens_for_read d); reflexivity.
  - destruct d as [[[z|]|] rd wr ws]; cbn;
      destruct rd, wr, ws; cbn;
      repeat match goal with
             | |- context [?a >? ?b] => destruct (Z.gtb_spec a b); cbn
             end;
      try discriminate; intros _; (split; [lia | try reflexivity; try discriminate]).
  - intros Hle.
    match goal with
    | |- context [score >? ?c] => rewrite (gtb_false score c) by exact Hle
    end.
    reflexivity.
  - intros (Hr & Hw & Hs). destruct d as [[[z|]|] rd wr ws]; cbn in *; subst; cbn;
      repeat match goal with
             | |- context [?a >? ?b] => destruct (Z.gtb_spec a b); cbn
             | |- context [?a <? ?b] => destruct (Z.ltb_spec a b); cbn
             end;
      repeat split; try reflexivity; try lia.
Qed.

Lemma high_score_spec_witness :
  load_high_score (snd (save_high_score 700 (mkDisk (Some (int_text 300)) true true true)))
  = 700.
Proof.
  destruct (high_score_spec 700 (mkDisk (Some (int_text 300)) true true true))
    as (_ & _ & _ & H).
  destruct H as (_ & H & _).
  - repeat split.
  - exact H.
Defined.

(** ** The start screen *)

Lemma start_screen_events_outcome (events : list Event) :
  forall (waiting : bool) (w : World),
    start_screen_events events waiting w
    = if existsb is_quit events then (None, set_exited true w)
      else (Some (waiting && negb (existsb is_return events)), w).
Proof.
  induction events as [|e events IH]; intros waiting w.
  - cbn. rewrite andb_true_r. reflexivity.
  - destruct e as [|k|]; [reflexivity|destruct k|];
      cbn [start_screen_events existsb is_quit is_return orb negb];
      try reflexivity; rewrite IH;
      destruct (existsb is_quit events); try reflexivity.
    rewrite andb_false_r. reflexivity.
Qed.

Lemma show_start_screen_step (fuel : nat) (w : World) :
  show_start_screen (S fuel) w
  = let events := event_queue w 0%nat in
    let w1 := exec event_get w in
    if existsb is_quit events then (screen_exited, set_exited true w1)
    else if existsb is_return events then (screen_left, w1)
    else show_start_screen fuel w1.
Proof.
  cbn [show_start_screen]. unfold bind at 1. cbn [fst snd event_get].
  unfold bind at 1. rewrite start_screen_events_outcome. cbv zeta.
  change (exec event_get w)
    with (set_event_queue (fun n => event_queue w (S n)) w).
  destruct (existsb is_quit (event_queue w 0%nat)); [reflexivity|].
  cbn [fst snd andb]. destruct (existsb is_return (event_queue w 0%nat)); reflexivity.
Qed.

(** X22. The start screen waits through the turns that bring neither ENTER
    nor ESCAPE nor a [QUIT] event.  At the first turn that brings one of
    them, it ends the process if the batch of events holds an ESCAPE or a
    [QUIT] anywhere, also after an ENTER; otherwise, on an ENTER, it returns to
    start the game, having taken the batches of events up to that turn and no
    more.  As long as no such turn comes it goes on waiting. *)
Theorem start_screen_spec (n fuel : nat) (w : World) :
  (forall m, (m < n)%nat -> idle (event_queue w m)) ->
  let events := event_queue w n in
  let r := show_start_screen fuel w in
  ((fuel <= n)%nat -> fst r = screen_waiting /\ exited (snd r) = exited w)
  /\ ((n < fuel)%nat -> existsb is_quit events = true ->
      fst r = screen_exited /\ exited (snd r) = true)
  /\ ((n < fuel)%nat -> existsb is_quit events = false ->
      existsb is_return events = true ->
      fst r = screen_left /\ exited (snd r) = exited w
      /\ forall k, event_queue (snd r) k = event_queue w (S n + k)%nat).
Proof.
  revert fuel w. induction n as [|n IH]; intros fuel w Hidle; cbv zeta.
  - destruct fuel as [|fuel].
    + split; [intros _; split; reflexivity|]. split; intros H; lia.
    + rewrite show_start_screen_step. cbv zeta.
      split; [intros H; lia|]. split.
      * intros _ Hq. rewrite Hq. split; reflexivity.
      * intros _ Hq Hr. rewrite Hq, Hr. repeat split.
  - destruct fuel as [|fuel].
    + split; [intros _; split; reflexivity|]. split; intros H; lia.
    + rewrite show_start_screen_step. cbv zeta.
      destruct (Hidle 0%nat ltac:(lia)) as [Hq0 Hr0]. rewrite Hq0, Hr0.
      specialize (IH fuel (exec event_get w)).
      cbv zeta in IH.
      change (exited (exec event_get w)) with (exited w) in IH.
      change (event_queue (exec event_get w)) with (fun k => event_queue w (S k)) in IH.
      cbv beta in IH.
      destruct IH as (I1 & I2 & I3).
      { intros m Hm. apply Hidle. lia. }
      split; [intros H; apply I1; lia|]. split.
      * intros H. apply I2. lia.
      * intros H Hq Hr. destruct (I3 ltac:(lia) Hq Hr) as (J1 & J2 & J3).
        split; [exact J1|]. split; [exact J2|].
        intros k. rewrite J3. reflexivity.
Qed.

Lemma start_screen_spec_witness :
  fst (show_start_screen 10 enter_world) = screen_left
  /\ event_queue (snd (show_start_screen 10 enter_world)) 0%nat = [OTHER_EVENT].
Proof.
  destruct (start_screen_spec 2 10 enter_world) as (_ & _ & H).
  - intros m Hm. destruct m as [|[|m]]; [split; reflexivity | split; reflexivity | lia].
  - destruct H as (H1 & _ & H3); [lia | reflexivity | reflexivity |].
    split; [exact H1 | rewrite H3; reflexivity].
Defined.

(** ** The star field *)

Lemma map_each_Forall {A B} (P : B -> Prop) (body : A -> M B) (l : list A) :
  (forall x v, P (eval (body x) v)) ->
  forall w, Forall P (eval (map_each l body) w).
Proof.
  intros H. induction l as [|x l IH]; intros w.
  - constructor.
  - cbn [map_each]. unfold eval, bind, ret. cbn [fst snd]. constructor.
    + apply H.
    + apply IH.
Qed.

Lemma map_each_length {A B} (body : A -> M B) (l : list A) (w : World) :
  length (eval (map_each l body) w) = length l.
Proof.
  revert w. induction l as [|x l IH]; intros w; [reflexivity|].
  cbn [map_each]. unfold eval, bind, ret in *. cbn [fst snd length]. rewrite IH.
  reflexivity.
Qed.

(** Every ordinate that a new star can take, tried one by one. *)
Lemma new_ordinates_in_window :
  forallb (fun y => negb (PrimFloat.ltb (float_of_int WINDOW_HEIGHT) (float_of_int y)))
    (range 801) = true.
Proof. vm_compute. reflexivity. Qed.

Lemma new_star_in_window (size : Z) (slow fast : float) (color : Z * Z * Z) (w : World) :
  star_in_window (eval (new_star size slow fast color) w)
  /\ s_size (eval (new_star size slow fast color) w) = size.
Proof.
  unfold new_star, uniform, random, randint, draw, eval, bind, ret. cbn [fst snd].
  unfold star_in_window. cbn [s_x s_y s_size set_rng rng].
  pose proof (Z.mod_pos_bound (rng w 0%nat) (WINDOW_WIDTH - 0 + 1) ltac:(reflexivity)).
  pose proof (Z.mod_pos_bound (rng w 1%nat) (WINDOW_HEIGHT - 0 + 1) ltac:(reflexivity)).
  unfold WINDOW_WIDTH, WINDOW_HEIGHT in *.
  split; [split; [lia|] | reflexivity].
  pose proof new_ordinates_in_window as Hall. rewrite forallb_forall in Hall.
  assert (Hin : In (0 + rng w 1%nat mod (800 - 0 + 1)) (range 801))
    by (apply in_range; lia).
  specialize (Hall _ Hin).
  apply negb_true_iff in Hall. exact Hall.
Qed.

Lemma Star_update_in_window (star : Star) (w : World) :
  let star' := eval (Star_update star) w in
  same_star star star'
  /\ PrimFloat.ltb (float_of_int WINDOW_HEIGHT) (s_y star') = false
  /\ (0 <= s_x star <= WINDOW_WIDTH -> 0 <= s_x star' <= WINDOW_WIDTH)
  /\ (s_y star' = fadd (s_y star) (s_speed star) /\ s_x star' = s_x star
      \/ s_y star' = float_of_int 0).
Proof.
  cbv zeta. unfold Star_update, same_star. cbv zeta. cbn [s_x s_y s_size s_speed s_color].
  destruct (PrimFloat.ltb (float_of_int WINDOW_HEIGHT) (fadd (s_y star) (s_speed star)))
    eqn:Hlt.
  - unfold randint, draw, eval, bind, ret. cbn [fst snd s_x s_y s_size s_speed s_color].
    pose proof (Z.mod_pos_bound (rng w 0%nat) (WINDOW_WIDTH - 0 + 1) ltac:(reflexivity)).
    unfold WINDOW_WIDTH in *.
    repeat split; try reflexivity; try lia. right. reflexivity.
  - unfold eval, ret. cbn [fst s_x s_y s_size s_speed s_color].
    repeat split; try assumption; try lia. left. split; reflexivity.
Qed.

(** X23. The star field has 100 stars, 50 of size 1, 30 of size 2 and 20 of
    size 3, each made inside the window.  [update] keeps the stars, their
    order, sizes, speeds and colours; it moves each star down by its speed
    and puts a star that has gone below the window back on its top line at a
    new abscissa of the window: after every update no star is below the
    window, and a star field inside the width of the window stays inside
    it. *)
Theorem star_field_spec (w : World) (stars : list Star) :
  let made := eval new_StarField w in
  let moved := eval (StarField_update stars) w in
  map s_size made = repeat 1 50 ++ repeat 2 30 ++ repeat 3 20
  /\ Forall star_in_window made
  /\ Forall2 same_star stars moved
  /\ Forall (fun s => PrimFloat.ltb (float_of_int WINDOW_HEIGHT) (s_y s) = false) moved
  /\ (Forall (fun s => 0 <= s_x s <= WINDOW_WIDTH) stars -> Forall star_in_window moved).
Proof.
  cbv zeta. split; [reflexivity|]. split; [|split; [|split]].
  - unfold new_StarField. rewrite !eval_bind.
    change (eval (ret ?l) ?v) with l.
    repeat (apply Forall_app; split);
      apply map_each_Forall; intros x v; apply new_star_in_window.
  - unfold StarField_update. apply map_each_Forall2. intros x v.
    apply (Star_update_in_window x v).
  - unfold StarField_update. apply map_each_Forall. intros x v.
    apply (Star_update_in_window x v).
  - unfold StarField_update. intros H. revert w.
    induction H as [|s l Hs H IH]; intros w; cbn [map_each].
    + constructor.
    + unfold eval, bind, ret. cbn [fst snd]. constructor.
      * destruct (Star_update_in_window s w) as (_ & H1 & H2 & _). cbv zeta in *.
        split; [apply H2; exact Hs | exact H1].
      * apply IH.
Qed.

Lemma star_field_spec_witness :
  Forall star_in_window
    (eval (StarField_update [mkStar 5 799.5%float 1 1.5%float (255, 255, 255)])
          (demo_world demo_player [])).
Proof.
  apply (star_field_spec (demo_world demo_player [])
           [mkStar 5 799.5%float 1 1.5%float (255, 255, 255)]).
  constructor; [cbn; unfold WINDOW_WIDTH; lia | constructor].
Defined.

(** ** Waves *)

#[local] Instance wave_same_pre : PreOrder wave_same.
Proof.
  split.
  - intros w. reflexivity.
  - intros a b c H1 H2. unfold wave_same in *. congruence.
Qed.

Ltac wave_leaf := unfold wave_same; cbn; reflexivity.

Lemma process_events_wave (events : list Event) :
  steps wave_same (process_events events).
Proof.
  induction events as [|e events IH]; cbn [process_events].
  - steps_walk wave_same_pre wave_leaf.
  - destruct e as [|k|]; [|destruct k|]; steps_walk wave_same_pre wave_leaf.
Qed.

Lemma before_wave_check_wave (math_sin : float -> float) (w : World) :
  wave_same w
    (exec collision_resolution (exec (update_all math_sin) (exec respawn_step w))).
Proof.
  assert (H1 : steps wave_same respawn_step) by steps_walk wave_same_pre wave_leaf.
  assert (H2 : steps wave_same (update_all math_sin))
    by steps_walk wave_same_pre wave_leaf.
  assert (H3 : steps wave_same collision_resolution)
    by steps_walk wave_same_pre wave_leaf.
  transitivity (exec respawn_step w); [apply H1|].
  etransitivity; [apply H2|]. fold (exec (update_all math_sin)).
  apply H3.
Qed.

Lemma after_wave_check (w : World) :
  let w' := exec game_over_check (exec dive_scheduler w) in
  current_wave w' = current_wave w /\ length (enemies w') = length (enemies w).
Proof.
  cbv zeta.
  assert (H1 : steps wave_same dive_scheduler) by steps_walk wave_same_pre wave_leaf.
  assert (H2 : steps wave_same game_over_check) by steps_walk wave_same_pre wave_leaf.
  split.
  - transitivity (current_wave (exec dive_scheduler w)); [apply H2 | apply H1].
  - destruct (dive_scheduler_kept w) as [K1 _]. fold (exec dive_scheduler w) in K1.
    destruct (game_over_check_untouched (exec dive_scheduler w)) as [K2 _].
    fold (exec game_over_check (exec dive_scheduler w)) in K2.
    rewrite K2. symmetry. apply (Forall2_length K1).
Qed.

Lemma formation_wave (math_sin math_cos : float -> float) (f : Formation) :
  steps wave_same (create_enemies_formation math_sin math_cos f).
Proof. steps_walk wave_same_pre wave_leaf. Qed.

(** A turn of the loop and the wave counter. *)
Lemma frame_wave (math_sin math_cos : float -> float) (w : World) :
  let w' := exec (frame math_sin math_cos) w in
  current_wave w' = current_wave w
  \/ (current_wave w' = current_wave w + 1 /\ length (enemies w') = 10%nat).
Proof.
  cbv zeta. rewrite frame_exec. cbv zeta.
  pose proof (process_events_wave (eval event_get w) (exec event_get w)) as H1.
  fold (exec (process_events (eval event_get w)) (exec event_get w)) in H1.
  unfold wave_same in H1.
  change (current_wave (exec event_get w)) with (current_wave w) in H1.
  revert H1.
  generalize (eval (process_events (eval event_get w)) (exec event_get w)).
  generalize (exec (process_events (eval event_get w)) (exec event_get w)).
  intros w1 quit H1. destruct quit; [left; exact H1|].
  pose proof (before_wave_check_wave math_sin w1) as H2. unfold wave_same in H2.
  revert H2.
  generalize (exec collision_resolution (exec (update_all math_sin) (exec respawn_step w1))).
  intros w2 H2.
  destruct (after_wave_check (exec (next_wave_check math_sin math_cos) w2)) as [A1 A2].
  cbv zeta in A1, A2. rewrite A1, A2. clear A1 A2.
  rewrite next_wave_check_exec.
  destruct (length (enemies w2) =? 0)%nat.
  - right.
    match goal with
    | |- context [exec (create_enemies_formation math_sin math_cos ?f) ?v] =>
        pose proof (formation_wave math_sin math_cos f v) as Hw;
        destruct (formation_summary math_sin math_cos f v) as (Hl & _);
        fold (exec (create_enemies_formation math_sin math_cos f) v) in Hw;
        unfold wave_same in Hw; cbv zeta in Hl; rewrite Hw, Hl
    end.
    cbn [current_wave set_current_wave]. split; [lia | reflexivity].
  - left. lia.
Qed.

(** X24. The wave counter starts at 0 and a turn of the loop leaves it as it
    is or adds one to it; when it adds one, the group, emptied by the
    collisions of the turn, has been filled again with 10 enemies, in the
    formation of the new wave: the formations follow one another as grid,
    diamond, arc, V, and again from the grid, every four waves. *)
Theorem wave_counter (math_sin math_cos : float -> float) (w : World) :
  reachable math_sin math_cos w ->
  let w' := exec (frame math_sin math_cos) w in
  0 <= current_wave w
  /\ (current_wave w' = current_wave w
      \/ (current_wave w' = current_wave w + 1 /\ length (enemies w') = 10%nat))
  /\ (forall v, enemies v = [] ->
        exec (next_wave_check math_sin math_cos) v
        = exec (create_enemies_formation math_sin math_cos
                  (formation_of_wave (current_wave v + 1)))
            (set_current_wave (current_wave v + 1)
               (set_played (wave_complete_sound :: played v) v)))
  /\ map formation_of_wave [0; 1; 2; 3] = [grid; diamond; arc; v_shape]
  /\ (forall k, formation_of_wave (k + 4) = formation_of_wave k).
Proof.
  intros Hr. cbv zeta.
  split.
  { induction Hr as [w He | w Hr IH Hrun Hex].
    - assert (H0 : current_wave (exec (run_game_setup math_sin math_cos) w) = 0)
        by reflexivity.
      lia.
    - destruct (frame_wave math_sin math_cos w) as [H | [H _]]; cbv zeta in H; lia. }
  split; [apply frame_wave|]. split; [|split].
  - intros v Hv. rewrite next_wave_check_exec, Hv. reflexivity.
  - reflexivity.
  - intros k. unfold formation_of_wave.
    replace (k + 4) with (k + 1 * 4) by lia. rewrite Z.mod_add by lia. reflexivity.
Qed.

Lemma wave_counter_witness :
  0 <= current_wave (exec (run_game_setup (fun x => x) (fun x => x))
                          (demo_world demo_player [])).
Proof.
  destruct (wave_counter (fun x => x) (fun x => x)
              (exec (run_game_setup (fun x => x) (fun x => x))
                    (demo_world demo_player []))) as [H _].
  - apply reach_start. reflexivity.
  - exact H.
Defined.

(** ** The ship carried by an enemy *)

(** [Enemy.update] written out: the move, then the carried ship. *)
Lemma Enemy_update_run (math_sin : float -> float) (self : Enemy) (w : World) :
  exists l d w1,
    let self1 :=
      set_e_shoot_delay d
        (set_e_last_shot l (set_anim_counter (anim_counter self + 1) self)) in
    let r := (if is_diving self then Enemy_dive_move self1
              else Enemy_formation_move math_sin self1) w1 in
    Enemy_update math_sin self w
    = (fst r,
       exec (when (has_captured_player (fst r))
               (modify_player
                  (fun p =>
                     set_p_rect
                       (set_ry (ry (e_rect (fst r)) + snd captured_player_offset)
                          (set_rx (rx (e_rect (fst r)) + fst captured_player_offset)
                             (p_rect p)))
                       p)))
         (snd r)).
Proof.
  unfold Enemy_update, bind, get_ticks. cbn [can_shoot fst snd].
  destruct (_ >? e_shoot_delay _).
  - eexists _, _, _. cbv zeta. reflexivity.
  - exists (e_last_shot self), (e_shoot_delay self).
    eexists. cbv zeta. destruct self. reflexivity.
Qed.

Lemma relocate_top_carrying (self : Enemy) (w : World) :
  has_captured_player (eval (relocate_top self) w) = has_captured_player self.
Proof. reflexivity. Qed.

Lemma Enemy_dive_move_carrying (self : Enemy) (w : World) :
  has_captured_player self = true ->
  has_captured_player (eval (Enemy_dive_move self) w) = true.
Proof.
  intros Hc. unfold Enemy_dive_move.
  destruct (dive_index self <? length (dive_path self))%nat.
  - destruct (nth (dive_index self) (dive_path self) (0, 0)) as [x y].
    cbv zeta. cbn [has_captured_player set_dive_index set_e_rect can_capture].
    rewrite Hc. rewrite andb_false_r. cbn [andb]. exact Hc.
  - cbv zeta.
    match goal with |- context [if ?b then _ else _] => destruct b end.
    + rewrite relocate_top_carrying. exact Hc.
    + exact Hc.
Qed.

Lemma Enemy_formation_move_carrying (math_sin : float -> float) (self : Enemy) (w : World) :
  has_captured_player (eval (Enemy_formation_move math_sin self) w)
  = has_captured_player self.
Proof.
  unfold Enemy_formation_move, eval, bind, get_ticks, ret. cbv zeta. cbn [fst snd].
  repeat match goal with |- context [if ?b then _ else _] => destruct b end;
    reflexivity.
Qed.

(** X25. An enemy that carries a captured ship never lets go of it: after
    every [update] its flag [has_captured_player] is still set, and the
    rectangle of the player has been put at the enemy's new place, 40 below
    it, whatever the state of the player is, captured or not. *)
Theorem captor_carries_player (math_sin : float -> float) (self : Enemy) (w : World) :
  has_captured_player self = true ->
  let e' := eval (Enemy_update math_sin self) w in
  let w' := exec (Enemy_update math_sin self) w in
  has_captured_player e' = true
  /\ rx (p_rect (player w')) = rx (e_rect e')
  /\ ry (p_rect (player w')) = ry (e_rect e') + 40.
Proof.
  intros Hc. cbv zeta.
  destruct (Enemy_update_run math_sin self w) as (l & d & w1 & He).
  cbv zeta in He. unfold eval, exec. rewrite He. clear He. cbn [fst snd].
  match goal with
  | |- context [fst (?m w1)] =>
      assert (Hh : has_captured_player (fst (m w1)) = true);
      [|revert Hh; generalize (m w1)]
  end.
  { destruct (is_diving self).
    - apply (Enemy_dive_move_carrying _ w1). exact Hc.
    - etransitivity; [apply (Enemy_formation_move_carrying math_sin _ w1) | exact Hc]. }
  intros r Hh. rewrite Hh. cbn. repeat split; lia.
Qed.

Lemma captor_carries_player_witness :
  ry (p_rect (player (exec (Enemy_update (fun x => x) captor_enemy)
                           (demo_world demo_player [captor_enemy])))) = 110.
Proof.
  destruct (captor_carries_player (fun x => x) captor_enemy
              (demo_world demo_player [captor_enemy])) as (_ & _ & H).
  - reflexivity.
  - rewrite H. vm_compute. reflexivity.
Defined.

(** * The lives of the player over a game *)

(** The loop goes through reachable states only. *)
Lemma run_frames_reachable (math_sin math_cos : float -> float) (n : nat) :
  forall w, reachable math_sin math_cos w ->
            reachable math_sin math_cos (run_frames math_sin math_cos n w).
Proof.
  induction n as [|n IH]; intros w Hr; [exact Hr|].
  cbn [run_frames].
  destruct (running w) eqn:Hrun; [|exact Hr].
  destruct (exited w) eqn:Hex; [exact Hr|].
  cbn [negb andb]. apply IH. apply reach_frame; assumption.
Qed.

(** [hit()] on the last life of a free single ship: a life is taken and no
    invincibility period starts. *)
Lemma Player_hit_last_life (w : World) :
  invincible (player w) = false -> is_captured (player w) = false ->
  combined_ships (player w) <= 1 -> lives (player w) <= 1 ->
  exec Player_hit w
  = set_player (set_lives (lives (player w) - 1) (player w))
      (set_played (hit_sound :: played w) w).
Proof.
  intros Hi Hc Hs Hl. unfold Player_hit. run_method. rewrite Hi, Hc. cbn.
  rewrite (gtb_false (combined_ships (player w)) 1) by lia. cbn.
  rewrite (gtb_false (lives (player w) - 1) 0) by lia. reflexivity.
Qed.

(** The enemy bullet pass on a free, not invincible player. *)
Lemma enemy_bullet_pass_exec (w : World) :
  is_captured (player w) = false -> invincible (player w) = false ->
  let touches := fun b => colliderect (p_rect (player w)) b in
  let rest := filter (fun b => negb (touches b)) (enemy_bullets w) in
  exec enemy_bullet_player_collisions w
  = if existsb touches (enemy_bullets w)
    then exec Player_hit (set_enemy_bullets rest w)
    else set_enemy_bullets rest w.
Proof.
  intros Hc Hi. cbv zeta.
  unfold enemy_bullet_player_collisions. rewrite exec_bind.
  change (exec (get player) w) with w. change (eval (get player) w) with (player w).
  rewrite Hc, Hi. cbn [negb andb when]. rewrite !exec_bind.
  change (exec (get enemy_bullets) w) with w.
  change (eval (get enemy_bullets) w) with (enemy_bullets w).
  rewrite exec_modify.
  destruct (existsb _ (enemy_bullets w)); reflexivity.
Qed.

(** The enemy-player pass on a free, not invincible player when no enemy
    that overlaps it can capture. *)
Lemma enemy_player_pass_exec (w : World) :
  is_captured (player w) = false -> invincible (player w) = false ->
  (forall e, In e (enemies w) -> rams (player w) e = true -> can_capture e = false) ->
  exec enemy_player_collisions w
  = set_enemies (filter (fun e => negb (rams (player w) e)) (enemies w))
      (exec (Player_hits (length (filter (rams (player w)) (enemies w)))) w).
Proof.
  intros Hc Hi Hcap.
  assert (Hf : Forall (fun e => rams (player w) e = true -> can_capture e = false)
                 (enemies w)).
  { apply Forall_forall. exact Hcap. }
  destruct (ramming_loop (player w) (enemies w) Hf w) as [L1 L2]. cbv zeta in L1, L2.
  unfold enemy_player_collisions. rewrite exec_bind.
  change (exec (get player) w) with w. change (eval (get player) w) with (player w).
  rewrite Hc, Hi. cbn [negb andb when]. rewrite exec_bind.
  change (exec (get enemies) w) with w. change (eval (get enemies) w) with (enemies w).
  rewrite exec_bind, exec_modify, L1, L2, keep_some_filter. reflexivity.
Qed.

(** The two passes on a player on its last life: every strike takes a
    life. *)
Lemma player_passes_last_life (v : World) :
  is_captured (player v) = false -> invincible (player v) = false ->
  combined_ships (player v) = 1 -> lives (player v) = 1 ->
  (forall e, In e (enemies v) -> rams (player v) e = true -> can_capture e = false) ->
  lives (player (exec enemy_player_collisions (exec enemy_bullet_player_collisions v)))
  = 1 - strikes v.
Proof.
  intros Hc Hi Hs Hl Hcap. unfold strikes.
  pose proof (enemy_bullet_pass_exec v Hc Hi) as Hb. cbv zeta in Hb.
  set (rest := filter (fun b => negb (colliderect (p_rect (player v)) b))
                 (enemy_bullets v)) in Hb.
  assert (Hu : exists u,
             exec enemy_bullet_player_collisions v = u
             /\ p_rect (player u) = p_rect (player v)
             /\ enemies u = enemies v
             /\ is_captured (player u) = false /\ invincible (player u) = false
             /\ combined_ships (player u) = 1
             /\ lives (player u)
                = 1 - (if existsb (colliderect (p_rect (player v))) (enemy_bullets v)
                       then 1 else 0)).
  { eexists. split; [exact Hb|].
    destruct (existsb (colliderect (p_rect (player v))) (enemy_bullets v)).
    - rewrite Player_hit_last_life; cbn; try assumption; try lia.
      rewrite Hl. repeat split; assumption.
    - cbn. rewrite Hl. repeat split; assumption. }
  destruct Hu as (u & Hu & Ur & Ue & Uc & Ui & Us & Ul).
  rewrite Hu. clear Hu Hb.
  assert (Hcap' : forall e, In e (enemies u) -> rams (player u) e = true ->
                            can_capture e = false).
  { intros e. unfold rams. rewrite Ur, Ue. apply Hcap. }
  rewrite (enemy_player_pass_exec u Uc Ui Hcap').
  cbn [player set_enemies].
  rewrite Player_hits_last_life; try assumption; try lia.
  - rewrite Ul. unfold rams. rewrite Ur, Ue. lia.
  - rewrite Ul. destruct (existsb _ _); lia.
Qed.

(** The wave check, the dive scheduler and the game over check leave the
    player as it is; the last one stops the loop when no life is left. *)
Lemma end_of_turn_player (math_sin math_cos : float -> float) (u : World) :
  let u' := exec game_over_check
              (exec dive_scheduler (exec (next_wave_check math_sin math_cos) u)) in
  player u' = player u
  /\ (lives (player u) <= 0 -> running u' = false).
Proof.
  cbv zeta.
  assert (Hpre : PreOrder (fun a b : World => player b = player a)).
  { split; [intros a; reflexivity | intros a b c H1 H2; congruence]. }
  assert (H1 : steps (fun a b : World => player b = player a)
                 (next_wave_check math_sin math_cos))
    by steps_walk Hpre ltac:(cbn; reflexivity).
  assert (H2 : steps (fun a b : World => player b = player a) dive_scheduler)
    by steps_walk Hpre ltac:(cbn; reflexivity).
  specialize (H1 u). fold (exec (next_wave_check math_sin math_cos) u) in H1.
  revert H1. generalize (exec (next_wave_check math_sin math_cos) u). intros u1 H1.
  specialize (H2 u1). fold (exec dive_scheduler u1) in H2.
  revert H2. generalize (exec dive_scheduler u1). intros u2 H2.
  assert (Hp : player u2 = player u) by congruence. clear H1 H2.
  unfold game_over_check. run_method.
  destruct (Z.leb_spec (lives (player u2)) 0) as [Hl | Hl]; cbn.
  - split; [exact Hp | reflexivity].
  - split; [exact Hp|]. rewrite <- Hp. lia.
Qed.

(** A turn of the loop for a player on its last life: the strikes of the
    turn are all taken off the lives, and the loop stops when there is
    one. *)
Lemma last_life_turn (math_sin math_cos : float -> float) (w : World) :
  let v := before_player_passes math_sin w in
  ~ In QUIT (event_queue w 0%nat) ->
  is_captured (player v) = false -> invincible (player v) = false ->
  combined_ships (player v) = 1 -> lives (player v) = 1 ->
  (forall e, In e (enemies v) -> rams (player v) e = true -> can_capture e = false) ->
  lives (player (exec (frame math_sin math_cos) w)) = 1 - strikes v
  /\ (1 <= strikes v -> running (exec (frame math_sin math_cos) w) = false).
Proof.
  cbv zeta. intros Hq Hc Hi Hs Hl Hcap.
  pose proof (player_passes_last_life _ Hc Hi Hs Hl Hcap) as Hp.
  rewrite frame_exec. cbv zeta.
  change (eval event_get w) with (event_queue w 0%nat).
  destruct (process_events_no_quit (event_queue w 0%nat) (exec event_get w) Hq)
    as (H1 & _ & _).
  rewrite H1.
  assert (He : exec collision_resolution
                 (exec (update_all math_sin)
                    (exec respawn_step
                       (exec (process_events (event_queue w 0%nat)) (exec event_get w))))
               = exec enemy_player_collisions
                   (exec enemy_bullet_player_collisions
                      (before_player_passes math_sin w))).
  { unfold collision_resolution. rewrite !exec_bind. reflexivity. }
  rewrite He. clear He.
  revert Hp.
  generalize (exec enemy_player_collisions
                (exec enemy_bullet_player_collisions (before_player_passes math_sin w))).
  generalize (strikes (before_player_passes math_sin w)).
  intros k u Hp.
  destruct (end_of_turn_player math_sin math_cos u) as [E1 E2]. cbv zeta in E1, E2.
  rewrite E1. split; [exact Hp|].
  intros Hk. apply E2. lia.
Qed.

(** C2, as the code has it.  At the head of every turn of the loop of
    [run_game] the player has at most 3 lives and, while the loop runs, at
    least 1; a turn gives no life; one call of [hit()] or of
    [get_captured(captor)] takes at most one life and gives none.  Within a
    turn nothing keeps the lives at 0 or above.  When the two passes that
    touch the player begin on a free, not invincible player on the last life
    of a single ship, and no enemy that overlaps it can capture, every strike
    takes a life: one for the enemy bullets that overlap the player, one for
    each enemy that overlaps it.  The turn ends with [1 - strikes] lives,
    which is negative from the second strike on, and the loop stops after
    that turn. *)
Theorem lives_at_loop_head (math_sin math_cos : float -> float) (w : World) :
  reachable math_sin math_cos w ->
  lives (player w) <= 3
  /\ (running w = true -> exited w = false -> 1 <= lives (player w))
  /\ lives (player (exec (frame math_sin math_cos) w)) <= lives (player w)
  /\ (forall v, lives (player v) - 1 <= lives (player (exec Player_hit v))
                                     <= lives (player v))
  /\ (forall v captor,
        lives (player v) - 1
        <= lives (player (exec (Player_get_captured captor) v))
        <= lives (player v))
  /\ (let v := before_player_passes math_sin w in
      ~ In QUIT (event_queue w 0%nat) ->
      is_captured (player v) = false -> invincible (player v) = false ->
      combined_ships (player v) = 1 -> lives (player v) = 1 ->
      (forall e, In e (enemies v) -> rams (player v) e = true ->
                 can_capture e = false) ->
      lives (player (exec (frame math_sin math_cos) w)) = 1 - strikes v
      /\ (2 <= strikes v -> lives (player (exec (frame math_sin math_cos) w)) < 0)
      /\ (1 <= strikes v -> running (exec (frame math_sin math_cos) w) = false)).
Proof.
  intros Hr. destruct (reachable_loop_head_ok math_sin math_cos w Hr) as (Hle & Hge & _).
  split; [exact Hle|]. split; [exact Hge|].
  split; [apply (frame_lives math_sin math_cos w)|]. split; [|split].
  - apply Player_hit_takes_at_most_one.
  - intros v captor. apply Player_get_captured_takes_at_most_one.
  - cbv zeta. intros Hq Hc Hi Hs Hl Hcap.
    destruct (last_life_turn math_sin math_cos w Hq Hc Hi Hs Hl Hcap) as [T1 T2].
    split; [exact T1|]. split; [|exact T2].
    intros Hk. rewrite T1. lia.
Qed.

(** ** The game of [first_world] *)

Lemma last_life_struck_sound (math_sin : float -> float) (k : Z) (w : World) :
  last_life_struck math_sin k w = true ->
  let v := before_player_passes math_sin w in
  running w = true /\ exited w = false
  /\ ~ In QUIT (event_queue w 0%nat)
  /\ is_captured (player v) = false /\ invincible (player v) = false
  /\ combined_ships (player v) = 1 /\ lives (player v) = 1
  /\ (forall e, In e (enemies v) -> rams (player v) e = true -> can_capture e = false)
  /\ strikes v = k.
Proof.
  unfold last_life_struck. cbv zeta. intros H.
  repeat (apply andb_prop in H; destruct H as [H ?]).
  repeat match goal with
         | h : negb _ = true |- _ => apply negb_true_iff in h
         | h : (_ =? _) = true |- _ => apply Z.eqb_eq in h
         end.
  repeat split; try assumption.
  - intros Hin.
    match goal with
    | h : existsb _ _ = false |- _ =>
        assert (Hx : existsb (fun e => match e with QUIT => true | _ => false end)
                       (event_queue w 0%nat) = true)
          by (apply existsb_exists; exists QUIT; split; [exact Hin | reflexivity]);
        rewrite Hx in h; discriminate h
    end.
  - intros e He Hr.
    match goal with
    | h : forallb _ _ = true |- _ =>
        pose proof (proj1 (forallb_forall _ _) h e He) as Hf
    end.
    cbv beta in Hf. rewrite Hr in Hf. cbn in Hf.
    apply negb_true_iff in Hf. exact Hf.
Qed.

Lemma game_after_reachable (n : nat) : reachable sine cosine (game_after n).
Proof.
  unfold game_after. apply run_frames_reachable. apply reach_start. reflexivity.
Qed.

(** The head of turn 109, as it is seen: the player stands at the bottom
    centre on its last life, free and not invincible; the enemies 6 and 9
    dive, stand above the player and clear of it, and the next points of
    their paths are both on it. *)
Lemma last_life_world_seen :
  seen_at_head last_life_world
  = (mkPlayer (mkRect 285 740 30 40) 0 1 1 false 14110 13 false None false 85,
     [(0%nat, small, mkRect 327 110 20 20, false, None);
      (1%nat, small, mkRect 453 90 20 20, false, None);
      (2%nat, small, mkRect 487 110 20 20, false, None);
      (4%nat, small, mkRect 377 70 20 20, false, None);
      (5%nat, small, mkRect 327 170 20 20, false, None);
      (6%nat, small, mkRect 278 698 20 20, true, Some (276, 722));
      (7%nat, small, mkRect 487 170 20 20, false, None);
      (9%nat, small, mkRect 316 698 20 20, true, Some (309, 722))],
     [], [], [], false, true, false, 19490).
Proof. vm_compute. reflexivity. Qed.

(** In turn 109 the player is struck twice. *)
Lemma last_life_world_struck : last_life_struck sine 2 last_life_world = true.
Proof. vm_compute. reflexivity. Qed.

Lemma last_life_world_reachable : reachable sine cosine last_life_world.
Proof. exact (game_after_reachable 108). Qed.

Lemma lives_at_loop_head_witness :
  lives (player last_life_world) <= 3
  /\ lives (player (exec (frame sine cosine) last_life_world)) = -1
  /\ running (exec (frame sine cosine) last_life_world) = false.
Proof.
  destruct (last_life_struck_sound sine 2 last_life_world last_life_world_struck)
    as (_ & _ & Hq & Hc & Hi & Hs & Hl & Hcap & Hk).
  destruct (lives_at_loop_head sine cosine last_life_world last_life_world_reachable)
    as (H1 & _ & _ & _ & _ & H6).
  destruct (H6 Hq Hc Hi Hs Hl Hcap) as (T1 & _ & T3).
  split; [exact H1|]. split.
  - rewrite T1, Hk. reflexivity.
  - apply T3. rewrite Hk. lia.
Defined.

(** C2 fails as it is stated: a state that the loop reaches can have a
    negative number of lives.  The game of [first_world] is at the head of
    turn 109 in [last_life_world], with one life left and the loop running;
    in that turn the enemies 6 and 9 reach the player together, [hit()] is
    called for each of them, and the turn ends with [lives = -1]. *)
Lemma lives_negative_after_frame :
  ~ (forall (math_sin math_cos : float -> float) (w : World),
       reachable math_sin math_cos w -> running w = true -> exited w = false ->
       0 <= lives (player (exec (frame math_sin math_cos) w))).
Proof.
  intros H.
  destruct (last_life_struck_sound sine 2 last_life_world last_life_world_struck)
    as (Hrun & Hex & Hq & Hc & Hi & Hs & Hl & Hcap & Hk).
  specialize (H sine cosine last_life_world last_life_world_reachable Hrun Hex).
  destruct (last_life_turn sine cosine last_life_world Hq Hc Hi Hs Hl Hcap) as [T _].
  rewrite T, Hk in H. lia.
Qed.

(** The state after that turn is itself a state that the loop reaches: the
    end of the game, with the loop stopped and [-1] lives. *)
Lemma game_ends_below_zero :
  let w' := exec (frame sine cosine) last_life_world in
  reachable sine cosine w' /\ running w' = false /\ lives (player w') = -1.
Proof.
  cbv zeta.
  destruct (last_life_struck_sound sine 2 last_life_world last_life_world_struck)
    as (Hrun & Hex & Hq & Hc & Hi & Hs & Hl & Hcap & Hk).
  destruct (last_life_turn sine cosine last_life_world Hq Hc Hi Hs Hl Hcap) as [T1 T2].
  split; [apply reach_frame; [exact last_life_world_reachable | exact Hrun | exact Hex]|].
  split; [apply T2; rewrite Hk; lia | rewrite T1, Hk; reflexivity].
Qed.
